(** * Sunday Pub Walks: the duplicate-avoidance core

    A shallow embedding of the walk generator ([getUsedPubs],
    [generateWalk], [formatWalkData], [generateBestWalk] of
    src/services/ai-walk-generator.js), of the post log ([logPost] of
    src/services/instagram.js) and of the publication pipeline
    ([publishSundayWalkPost] of src/index.js), followed by the properties
    of the specification that concern them.  The last part adds the entry
    points (the test script, the request handler and the startup banner of
    src/index.js), the date helpers of the prompts and of the weather
    service, and further properties of the generator, of the validation
    and of the pipeline.

    The program is asynchronous but single-threaded and sequential: every
    [await] suspends the only flow of control.  It is modelled by explicit
    state passing over a [world] (the log file, the lazily created OpenAI
    client and the trace of the effects performed so far); exceptions are
    the [Throw] results of an error monad; the external collaborators
    (generative text, image, weather, publishing, clock) are functions of
    an [env] that may answer from the whole history of effects.

    What the model takes from the platform rather than from the program:
    - a line of text is kept as what [JSON.parse] makes of it;
      [JSON.stringify] writes a value as a text that is read back as that
      value, except for the numbers that JSON cannot write (infinity and
      NaN are written null, minus zero is written 0);
    - logs/posts.jsonl is a store: absent (where it can be created, or
      not), out of reach, or stored with its permissions to read and to
      write, as the lines that a newline ends and the rest after the last
      newline; a read returns all of it, an append writes one more line
      where the file ends;
    - values are JSON values or [undefined], numbers are binary64 floats,
      and two objects parsed from two texts are never the same object;
    - a string is kept as its UTF-8 bytes; its length is counted in UTF-16
      code units; [toLowerCase] lowers what ends as an ASCII letter (the
      capitals A-Z, the Kelvin sign and the capital I with a dot) and keeps
      the bytes of the other characters, which are outside ASCII before
      and after;
    - logging to the console has no effect. *)

From Stdlib Require Import String Ascii List Bool Arith PeanoNat Lia ZArith.
From Stdlib Require Import Floats.
From Equations Require Import Equations.
Import ListNotations.
Local Open Scope string_scope.
Local Open Scope list_scope.

Set Warnings "-register-all".

(* ===================================================================== *)
(** ** JavaScript values as the program meets them *)
(* ===================================================================== *)

Module JS.

(** What [JSON.parse] returns.  Members of an object are kept in the order
    of the text; a later member of the same name wins, as in JavaScript. *)
Inductive json : Type :=
| JNull
| JBool (b : bool)
| JNum (x : float)
| JStr (s : string)
| JArr (items : list json)
| JObj (members : list (string * json)).

(** A JavaScript value of the program: a JSON value or [undefined]. *)
Definition value : Type := option json.
Definition undefined : value := None.

Definition is_nan (x : float) : bool := negb (PrimFloat.eqb x x).

(** [Boolean(v)], the test behind [!v] and [filter(Boolean)]. *)
Definition truthy (v : value) : bool :=
  match v with
  | None => false
  | Some JNull => false
  | Some (JBool b) => b
  | Some (JNum x) => negb (PrimFloat.eqb x 0%float || is_nan x)
  | Some (JStr s) => negb (String.eqb s "")
  | Some (JArr _) => true
  | Some (JObj _) => true
  end.

(** SameValueZero, the comparison of [Array.prototype.includes] and of
    [Set].  Arrays and objects are compared by identity; the values
    compared by this program always come from two different calls of
    [JSON.parse] (two lines of the log, or a line of the log and the reply
    of the model), so two of them are never the same object. *)
Definition same_value_zero (a b : value) : bool :=
  match a, b with
  | None, None => true
  | Some JNull, Some JNull => true
  | Some (JBool x), Some (JBool y) => Bool.eqb x y
  | Some (JNum x), Some (JNum y) => PrimFloat.eqb x y || (is_nan x && is_nan y)
  | Some (JStr x), Some (JStr y) => String.eqb x y
  | _, _ => false
  end.

(** [arr.includes(v)] *)
Definition includes (arr : list json) (v : value) : bool :=
  existsb (fun u => same_value_zero (Some u) v) arr.

(** [[...new Set(arr)]]: the first occurrence of every value, in order. *)
Fixpoint set_of (seen arr : list json) : list json :=
  match arr with
  | [] => []
  | x :: rest =>
      if includes seen (Some x) then set_of seen rest
      else x :: set_of (seen ++ [x]) rest
  end.

(** Own member [k] of an object; the last member of that name wins. *)
Fixpoint lookup (k : string) (members : list (string * json)) : value :=
  match members with
  | [] => None
  | (k', v) :: rest =>
      match lookup k rest with
      | Some v' => Some v'
      | None => if String.eqb k' k then Some v else None
      end
  end.

(** Does the conversion of [p] to a primitive throw?  It is asked for by
    a template literal ([`- ${p}`]) and by a comparison ([p < 2]).  An
    object with a member called toString (in JSON never a function) cannot
    be converted; an array is joined, so it throws when an item does. *)
Fixpoint to_string_throws (p : json) : bool :=
  match p with
  | JObj members =>
      match lookup "toString" members with
      | Some _ => true
      | None => false
      end
  | JArr items => existsb to_string_throws items
  | _ => false
  end.

(** [s.length]: the number of UTF-16 code units of the string whose UTF-8
    bytes are [s] (a lone surrogate is written as the three bytes of its
    code point).  A byte 10xxxxxx continues a character; a byte 11110xxx
    starts a character beyond the basic plane, which takes two units. *)
Fixpoint utf16_length (s : string) : nat :=
  match s with
  | EmptyString => 0
  | String c rest =>
      let b := nat_of_ascii c in
      (if (b <? 128)%nat then 1
       else if (b <? 192)%nat then 0
       else if (b <? 240)%nat then 1
       else 2) + utf16_length rest
  end.

End JS.
Export JS.

(* ===================================================================== *)
(** ** Exceptions *)
(* ===================================================================== *)

Inductive error : Type :=
| Error (message : string)      (* [new Error(message)] thrown by the program *)
| TypeError (message : string)  (* thrown by the runtime on a bad property read or call *)
| SyntaxError                   (* thrown by [JSON.parse] *)
| External (reason : string).   (* rejection coming from a collaborator or from [fs] *)

Inductive result (A : Type) : Type :=
| Ok (a : A)
| Throw (e : error).
Arguments Ok {A} a.
Arguments Throw {A} e.

(** The settled promise of an external call. *)
Inductive reply (A : Type) : Type :=
| Fulfilled (a : A)
| Rejected (reason : string).
Arguments Fulfilled {A} a.
Arguments Rejected {A} reason.

Module JSops.

(** [v.k] for a member name [k] that no prototype defines (the names read
    by the program: pubName, end_pub_name, walk_title, id, ...).  Reading
    a property of [undefined] or [null] throws. *)
Definition get (v : value) (k : string) : result value :=
  match v with
  | None => Throw (TypeError ("Cannot read properties of undefined (reading '" ++ k ++ "')")%string)
  | Some JNull => Throw (TypeError ("Cannot read properties of null (reading '" ++ k ++ "')")%string)
  | Some (JObj members) => Ok (lookup k members)
  | Some _ => Ok undefined
  end.

Definition float_of_nat (n : nat) : float :=
  PrimFloat.of_uint63 (Uint63.of_Z (Z.of_nat n)).

Definition not_primitive : error :=
  TypeError "Cannot convert object to primitive value".

(** [v < n] for a number literal [n].  The conversion to a number is
    immediate on [undefined], [null], a boolean and a number; [ToNumber]
    of the runtime reads a string as a number; an array or an object is
    first converted to a string, which throws or gives a string that
    [ToNumber] reads. *)
Definition less_than (ToNumber : json -> float) (v : value) (n : nat) : result bool :=
  match v with
  | None => Ok false                                   (* NaN < n *)
  | Some JNull => Ok (0 <? n)%nat
  | Some (JBool b) => Ok ((if b then 1 else 0) <? n)%nat
  | Some (JNum x) => Ok (PrimFloat.ltb x (float_of_nat n))
  | Some (JStr s) => Ok (PrimFloat.ltb (ToNumber (JStr s)) (float_of_nat n))
  | Some j =>
      if to_string_throws j then Throw not_primitive
      else Ok (PrimFloat.ltb (ToNumber j) (float_of_nat n))
  end.

(** [v.length < n]: the number of items of an array, the number of code
    units of a string, the member called length of an object, [undefined]
    on a number or a boolean; reading it on [undefined] or [null] throws. *)
Definition length_less_than (ToNumber : json -> float) (v : value) (n : nat)
  : result bool :=
  match v with
  | None => Throw (TypeError "Cannot read properties of undefined (reading 'length')")
  | Some JNull => Throw (TypeError "Cannot read properties of null (reading 'length')")
  | Some (JArr items) => Ok (List.length items <? n)%nat
  | Some (JStr s) => Ok (utf16_length s <? n)%nat
  | Some (JObj members) => less_than ToNumber (lookup "length" members) n
  | Some (JNum _) => Ok false
  | Some (JBool _) => Ok false
  end.

End JSops.
Export JSops.


(* ===================================================================== *)
(** ** The world: files, collaborators, effects *)
(* ===================================================================== *)

(** A line of text is kept as what [JSON.parse] makes of it: the value it
    denotes, or a failure.  A blank line is told apart from other
    unparsable text because [String.prototype.trim] removes it at both
    ends of a file. *)
Inductive text : Type :=
| Json (j : json)
| Blank
| Garbage.

(** logs/posts.jsonl: absent, in a place where [logPost] can create it or
    cannot (logs/ cannot be made or written); present but failing every
    access and holding nothing (a directory in its place, logs/ out of
    reach); or stored, read and appended to as its permissions allow: the
    lines that a newline ends and, when the file does not end with a
    newline, the rest after the last one. *)
Inductive file : Type :=
| Absent (creatable : bool)
| Unreadable
| Stored (readable writable : bool) (lines : list text) (rest : option text).

(** No log yet, where the first append creates it. *)
Abbreviation NoFile := (Absent true).

(** A file that is read and written, and ends with a newline (or is
    empty): what the program creates and keeps. *)
Abbreviation File lines := (Stored true true lines None).

(** The effects a run performs, in order. *)
Inductive event : Type :=
| EvReadLog (usedPubs : list json)   (* getUsedPubs returned usedPubs *)
| EvChat (usedPubs : list json)      (* one openai.chat.completions.create *)
| EvImage                            (* one image generation *)
| EvWriteCaption                     (* fsp.writeFile of the caption *)
| EvCreateContainer                  (* POST /media *)
| EvMediaPublish (ok : bool)         (* POST /media_publish and its outcome *)
| EvAppendLog (line : text).         (* a line appended to logs/posts.jsonl *)

Record world : Type := mkWorld {
  posts_jsonl : file;        (* the Post Log *)
  openaiClient : bool;       (* the module variable: is the client created *)
  trace : list event
}.

(** The [{ url, localPath }] record of the image service. *)
Record illustration : Type := mkIllustration {
  url : value;
  localPath : string
}.

(** process.env and the collaborators, for one run of the pipeline.  A
    collaborator sees the effects performed so far, so it may answer
    differently at every call. *)
Record env : Type := mkEnv {
  NODE_ENV : option string;
  OPENAI_API_KEY : option string;
  INSTAGRAM_ACCESS_TOKEN : option string;
  INSTAGRAM_ACCOUNT_ID : option string;
  (* the runtime *)
  ToNumber : json -> float;
  Date_now : list event -> string;
  Date_toISOString : list event -> string;
  (* response.choices[0].message.content of a chat completion whose prompt
     lists usedPubs *)
  chat_completions_create : list event -> list json -> reply text;
  (* services/weather.js: never throws once the coordinates are read *)
  weather_service : list event -> json -> json;
  (* services/caption.js: a pure function of walk and weather *)
  buildCaption : json -> json -> result string;
  (* services/image.js *)
  generateIllustration : list event -> json -> json -> reply illustration;
  (* fsp.writeFile(captionPath, caption) *)
  writeFile_caption : list event -> string -> string -> reply unit;
  (* axios.post of instagram.js: response.data.id and response.data *)
  createMediaContainer : list event -> value -> string -> reply value;
  publishMediaContainer : list event -> value -> reply value
}.

(** [process.env.X] is truthy: set, and not to the empty string. *)
Definition env_set (x : option string) : bool :=
  match x with
  | Some s => negb (String.eqb s "")
  | None => false
  end.

(** *** The monad of the program: state and exceptions *)

Definition M (A : Type) : Type := world -> result A * world.

Definition ret {A} (a : A) : M A := fun w => (Ok a, w).
Definition throw {A} (e : error) : M A := fun w => (Throw e, w).
Definition bind {A B} (c : M A) (k : A -> M B) : M B :=
  fun w =>
    match c w with
    | (Ok a, w') => k a w'
    | (Throw e, w') => (Throw e, w')
    end.
(** [try { c } catch (error) { h error }] *)
Definition try_catch {A} (c : M A) (h : error -> M A) : M A :=
  fun w =>
    match c w with
    | (Ok a, w') => (Ok a, w')
    | (Throw e, w') => h e w'
    end.
(** A pure computation that may throw. *)
Definition lift {A} (r : result A) : M A := fun w => (r, w).

Declare Scope js_scope.
Delimit Scope js_scope with js.
Notation "x <- c ;; k" := (bind c (fun x => k))
  (at level 61, c at next level, right associativity) : js_scope.
Notation "c ;;; k" := (bind c (fun _ => k))
  (at level 61, right associativity) : js_scope.
Local Open Scope js_scope.

(** The world once one more effect has been performed. *)
Definition record (ev : event) (w : world) : world :=
  mkWorld (posts_jsonl w) (openaiClient w) (trace w ++ [ev]).

Definition emit (ev : event) : M unit :=
  fun w => (Ok tt, record ev w).

(** [await] of an external promise. *)
Definition await {A} (r : reply A) : M A :=
  match r with
  | Fulfilled a => ret a
  | Rejected reason => throw (External reason)
  end.

Definition history : M (list event) := fun w => (Ok (trace w), w).

(* ===================================================================== *)
(** ** The Post Log *)
(* ===================================================================== *)

Definition JSON_parse (t : text) : result json :=
  match t with
  | Json j => Ok j
  | Blank => Throw SyntaxError
  | Garbage => Throw SyntaxError
  end.

(** [JSON.stringify] of an object literal: members whose value is
    [undefined] are left out. *)
Fixpoint defined_members (members : list (string * value)) : list (string * json) :=
  match members with
  | [] => []
  | (k, Some j) :: rest => (k, j) :: defined_members rest
  | (_, None) :: rest => defined_members rest
  end.

(** What [JSON.parse] reads from the text that [JSON.stringify] writes for
    a value: the value itself, but for the numbers, of which infinity and
    NaN are written null, and minus zero is written 0. *)
Fixpoint written (j : json) : json :=
  match j with
  | JNum x =>
      if PrimFloat.is_finite x
      then (if PrimFloat.eqb x 0 then JNum 0 else JNum x)
      else JNull
  | JArr items => JArr (map written items)
  | JObj members => JObj (map (fun kv => (fst kv, written (snd kv))) members)
  | _ => j
  end.

Definition JSON_stringify (members : list (string * value)) : text :=
  Json (written (JObj (defined_members members))).

Definition is_blank (t : text) : bool :=
  match t with
  | Blank => true
  | _ => false
  end.

Fixpoint trim_start (lines : list text) : list text :=
  match lines with
  | [] => []
  | t :: rest => if is_blank t then trim_start rest else lines
  end.

(** [data.trim().split('\n')]: blank lines go at both ends; splitting the
    empty string gives one empty line. *)
Definition trim_split (lines : list text) : list text :=
  match rev (trim_start (rev (trim_start lines))) with
  | [] => [Blank]
  | l => l
  end.

(** The lines of a stored file, as [split('\n')] cuts them. *)
Definition all_lines (lines : list text) (rest : option text) : list text :=
  match rest with
  | None => lines
  | Some t => lines ++ [t]
  end.

(** [fs.readFile(logPath, 'utf-8')] *)
Definition readFile (f : file) : result (list text) :=
  match f with
  | Absent _ => Throw (External "ENOENT")
  | Unreadable => Throw (External "EACCES")
  | Stored readable _ lines rest =>
      if readable then Ok (all_lines lines rest) else Throw (External "EACCES")
  end.

(** The text of an object written right after [rest], on the same line:
    after blanks it is read as the object; after anything else the line
    is no JSON text. *)
Definition glue (rest line : text) : text :=
  match rest with
  | Blank => line
  | _ => Garbage
  end.

(** [fs.mkdir(logDir, { recursive: true })] then
    [fs.appendFile(logFile, line + '\n')], for the text [line] of an
    object.  The line is written where the file ends: on a line of its own
    when the file ends with a newline, glued to the rest otherwise. *)
Definition appendFile (f : file) (line : text) : result file :=
  match f with
  | Absent creatable =>
      if creatable then Ok (File [line]) else Throw (External "EACCES")
  | Unreadable => Throw (External "EACCES")
  | Stored readable writable lines rest =>
      if writable
      then Ok (Stored readable true
                 (lines ++ [match rest with
                            | None => line
                            | Some t => glue t line
                            end])
                 None)
      else Throw (External "EACCES")
  end.

(** [fs.readFile] would succeed. *)
Definition can_read (f : file) : bool :=
  match f with
  | Stored readable _ _ _ => readable
  | _ => false
  end.

(** [fs.appendFile] would succeed. *)
Definition can_append (f : file) : bool :=
  match f with
  | Absent creatable => creatable
  | Unreadable => false
  | Stored _ writable _ _ => writable
  end.

(** [lines.map(line => JSON.parse(line))] *)
Fixpoint parse_lines (lines : list text) : result (list json) :=
  match lines with
  | [] => Ok []
  | t :: rest =>
      match JSON_parse t with
      | Throw e => Throw e
      | Ok j =>
          match parse_lines rest with
          | Throw e => Throw e
          | Ok js => Ok (j :: js)
          end
      end
  end.

(** [posts.map(p => p.pubName)] *)
Fixpoint pubName_of_posts (posts : list json) : result (list value) :=
  match posts with
  | [] => Ok []
  | p :: rest =>
      match get (Some p) "pubName" with
      | Throw e => Throw e
      | Ok v =>
          match pubName_of_posts rest with
          | Throw e => Throw e
          | Ok vs => Ok (v :: vs)
          end
      end
  end.

(** [.filter(Boolean)] *)
Fixpoint filter_Boolean (vs : list value) : list json :=
  match vs with
  | [] => []
  | Some j :: rest => if truthy (Some j) then j :: filter_Boolean rest else filter_Boolean rest
  | None :: rest => filter_Boolean rest
  end.

(** The body of the [try] block of [getUsedPubs]. *)
Definition read_used_pubs (f : file) : result (list json) :=
  match readFile f with
  | Throw e => Throw e
  | Ok data =>
      match parse_lines (trim_split data) with
      | Throw e => Throw e
      | Ok posts =>
          match pubName_of_posts posts with
          | Throw e => Throw e
          | Ok names => Ok (set_of [] (filter_Boolean names))
          end
      end
  end.

(** What [getUsedPubs] returns on a log: whatever the [try] block throws,
    the [catch] returns the empty list. *)
Definition usedPubs_of (f : file) : list json :=
  match read_used_pubs f with
  | Ok pubs => pubs
  | Throw _ => []
  end.

(** [getUsedPubs()] *)
Definition getUsedPubs : M (list json) :=
  fun w =>
    let pubs := usedPubs_of (posts_jsonl w) in
    (Ok pubs, record (EvReadLog pubs) w).

(** [logPost(walk, result)].  The entry is built before the [try]: a
    property read that throws there leaves [logPost] by an exception.  A
    failure of the append itself is caught and only reported. *)
Definition logPost (E : env) (walk result : value) : M unit :=
  h <- history ;;
  let timestamp := Date_toISOString E h in
  walkId <- lift (get walk "id") ;;
  walkTitle <- lift (get walk "walk_title") ;;
  slug <- lift (get walk "slug") ;;
  pubName <- lift (get walk "end_pub_name") ;;
  area <- lift (get walk "area_short") ;;
  instagramPostId <- lift (get result "id") ;;
  let logEntry :=
    [ ("timestamp", Some (JStr timestamp));
      ("walkId", walkId);
      ("walkTitle", walkTitle);
      ("slug", slug);
      ("pubName", pubName);
      ("area", area);
      ("instagramPostId", instagramPostId);
      ("success", Some (JBool true)) ] in
  fun w =>
    match appendFile (posts_jsonl w) (JSON_stringify logEntry) with
    | Ok f' =>
        (Ok tt, mkWorld f' (openaiClient w)
                  (trace w ++ [EvAppendLog (JSON_stringify logEntry)]))
    | Throw _ => (Ok tt, w)
    end.

(* ===================================================================== *)
(** ** The walk generator (services/ai-walk-generator.js) *)
(* ===================================================================== *)

(** [getOpenAIClient]: the client is created on first use, and the key is
    looked at only then. *)
Definition getOpenAIClient (E : env) : M unit :=
  fun w =>
    if openaiClient w then (Ok tt, w)
    else if negb (env_set (OPENAI_API_KEY E))
         then (Throw (Error "OPENAI_API_KEY environment variable is not set"), w)
         else (Ok tt, mkWorld (posts_jsonl w) true (trace w)).

(** *** The slug of a title *)

Definition between (lo hi : nat) (c : ascii) : bool :=
  (lo <=? nat_of_ascii c)%nat && (nat_of_ascii c <=? hi)%nat.

Definition lower (c : ascii) : ascii :=
  if between 65 90 c then ascii_of_nat (nat_of_ascii c + 32) else c.

Definition byte_is (n : nat) (c : ascii) : bool := (nat_of_ascii c =? n)%nat.

(** [.toLowerCase()].  Beyond the capitals A-Z, two characters have an ASCII
    letter in their lower case: the Kelvin sign U+212A (the bytes 226 132
    170) becomes k, and the capital I with a dot U+0130 (the bytes 196 176)
    becomes i followed by the combining dot U+0307 (the bytes 204 135).
    The other characters that JavaScript lowers are outside ASCII before
    and after; their bytes are kept. *)
Fixpoint toLowerCase (s : string) : string :=
  match s with
  | EmptyString => EmptyString
  | String c rest =>
      let lowered := String (lower c) (toLowerCase rest) in
      match rest with
      | String d rest1 =>
          if byte_is 196 c && byte_is 176 d
          then String "i" (String (ascii_of_nat 204) (String (ascii_of_nat 135)
                 (toLowerCase rest1)))
          else match rest1 with
               | String e rest2 =>
                   if byte_is 226 c && byte_is 132 d && byte_is 170 e
                   then String "k" (toLowerCase rest2)
                   else lowered
               | EmptyString => lowered
               end
      | EmptyString => lowered
      end
  end.

Definition is_a_z_0_9 (c : ascii) : bool :=
  between 97 122 c || between 48 57 c.

(** [.replace(/[^a-z0-9]+/g, '-')]; [in_run] tells that the previous
    character was already replaced. *)
Fixpoint replace_runs (in_run : bool) (s : string) : string :=
  match s with
  | EmptyString => EmptyString
  | String c rest =>
      if is_a_z_0_9 c then String c (replace_runs false rest)
      else if in_run then replace_runs true rest
      else String "-"%char (replace_runs true rest)
  end.

Fixpoint drop_last_dash (s : string) : string :=
  match s with
  | EmptyString => EmptyString
  | String c EmptyString => if Ascii.eqb c "-"%char then EmptyString else s
  | String c rest => String c (drop_last_dash rest)
  end.

(** [.replace(/(^-|-$)/g, '')] *)
Definition strip_dashes (s : string) : string :=
  match s with
  | String c rest => if Ascii.eqb c "-"%char then drop_last_dash rest else drop_last_dash s
  | EmptyString => EmptyString
  end.

Definition slug_of (title : string) : string :=
  strip_dashes (replace_runs false (toLowerCase title)).

(** *** formatWalkData *)

Definition required : list string :=
  [ "walk_title"; "area"; "area_short"; "start_point";
    "end_pub_name"; "distance_km"; "duration_minutes";
    "highlights"; "landmarks_for_prompt"; "location_coords"; "directions" ].

(** [for (const field of required) if (!walk[field]) throw ...] *)
Fixpoint check_required (walk : list (string * json)) (fields : list string) : result unit :=
  match fields with
  | [] => Ok tt
  | field :: rest =>
      if negb (truthy (lookup field walk))
      then Throw (Error ("Generated walk missing required field: " ++ field)%string)
      else check_required walk rest
  end.

(** The call [walkData.walk_title.toLowerCase()] on what the reply holds
    under walk_title. *)
Definition walk_title_toLowerCase (title : value) : result string :=
  match title with
  | None => Throw (TypeError "Cannot read properties of undefined (reading 'toLowerCase')")
  | Some JNull => Throw (TypeError "Cannot read properties of null (reading 'toLowerCase')")
  | Some (JStr s) => Ok (toLowerCase s)
  | Some _ => Throw (TypeError "walkData.walk_title.toLowerCase is not a function")
  end.

(** The members that [...walkData] copies.  Only an object reaches the
    spread: the slug has been computed from a string walk_title, which no
    other JSON value carries. *)
Definition spread (walkData : json) : list (string * json) :=
  match walkData with
  | JObj members => members
  | _ => []
  end.

(** [formatWalkData(walkData)], with [now] for [Date.now()] printed. *)
Definition formatWalkData (ToNumber : json -> float) (now : string) (walkData : json)
  : result json :=
  match get (Some walkData) "walk_title" with
  | Throw e => Throw e
  | Ok title =>
  match walk_title_toLowerCase title with
  | Throw e => Throw e
  | Ok lowered =>
      let walk :=
        ("id", JStr ("walk-" ++ now)%string)
        :: ("slug", JStr (strip_dashes (replace_runs false lowered)))
        :: spread walkData in
      match check_required walk required with
      | Throw e => Throw e
      | Ok _ =>
      match get (lookup "location_coords" walk) "lat",
            get (lookup "location_coords" walk) "lng" with
      | Throw e, _ => Throw e
      | _, Throw e => Throw e
      | Ok lat, Ok lng =>
          if negb (truthy lat) || negb (truthy lng)
          then Throw (Error "Generated walk has invalid coordinates")
          else
          match length_less_than ToNumber (lookup "highlights" walk) 2 with
          | Throw e => Throw e
          | Ok true => Throw (Error "Walk must have at least 2 highlights")
          | Ok false =>
          match length_less_than ToNumber (lookup "directions" walk) 4 with
          | Throw e => Throw e
          | Ok true => Throw (Error "Walk must have at least 4 direction steps")
          | Ok false => Ok (JObj walk)
          end
          end
      end
      end
  end
  end.

(** [buildWalkGenerationPrompt(usedPubs)].  Of the prompt, only the list
    of excluded pubs is kept; the season and the random area are left to
    the collaborator. *)
Definition buildWalkGenerationPrompt (usedPubs : list json) : result (list json) :=
  if existsb to_string_throws usedPubs
  then Throw (TypeError "Cannot convert object to primitive value")
  else Ok usedPubs.

(** [openai.chat.completions.create(...)] and the read of
    [response.choices[0].message.content]. *)
Definition chat_create (E : env) (prompt : list json) : M text :=
  h <- history ;;
  emit (EvChat prompt) ;;;
  await (chat_completions_create E h prompt).

Definition exhausted : error :=
  Error "Failed to generate a unique pub after maximum attempts".

(** [generateWalk(maxAttempts, attempt)].  The recursive call is made
    with attempt + 1 and only when attempt <= maxAttempts, so
    maxAttempts + 1 - attempt decreases. The [catch] clause re-throws what
    it caught. *)
Equations generateWalk (E : env) (maxAttempts attempt : nat) (w : world)
  : result json * world by wf (S maxAttempts - attempt) lt :=
generateWalk E maxAttempts attempt w with le_lt_dec attempt maxAttempts := {
  | right _ => throw exhausted w
  | left Hle =>
      (usedPubs <- getUsedPubs ;;
       prompt <- lift (buildWalkGenerationPrompt usedPubs) ;;
       try_catch
         (getOpenAIClient E ;;;
          content <- chat_create E prompt ;;
          walkData <- lift (JSON_parse content) ;;
          end_pub_name <- lift (get (Some walkData) "end_pub_name") ;;
          if includes usedPubs end_pub_name
          then (fun w' => generateWalk E maxAttempts (S attempt) w')
          else
            h <- history ;;
            lift (formatWalkData (ToNumber E) (Date_now E h) walkData))
         (fun error => throw error)) w
}.
Next Obligation. destruct attempt; lia. Qed.

(** [generateBestWalk(options)]: the body of the [for] loop, [remaining]
    iterations from now on.  A run of the generator that throws is caught
    and leaves [walks] as it was. *)
Fixpoint generateBestWalk_loop (E : env) (remaining : nat) (walks : list json)
  : M (list json) :=
  match remaining with
  | 0 => ret walks
  | S remaining' =>
      walks' <- try_catch
                  (walk <- generateWalk E 5 1 ;;
                   ret (walks ++ [walk]))
                  (fun _ => ret walks) ;;
      generateBestWalk_loop E remaining' walks'
  end.

Definition no_walks : error := Error "Failed to generate any walks".

Definition generateBestWalk (E : env) (options : nat) : M json :=
  walks <- generateBestWalk_loop E options [] ;;
  match walks with
  | [] => throw no_walks
  | selectedWalk :: _ => ret selectedWalk
  end.

(* ===================================================================== *)
(** ** Publishing (services/instagram.js) *)
(* ===================================================================== *)

Definition no_credentials : error :=
  Error "Instagram credentials not configured. Set INSTAGRAM_ACCESS_TOKEN and INSTAGRAM_ACCOUNT_ID in .env".

Definition createMediaContainer_call (E : env) (imageUrl : value) (caption : string)
  : M value :=
  h <- history ;;
  emit EvCreateContainer ;;;
  await (createMediaContainer E h imageUrl caption).

Definition publishMediaContainer_call (E : env) (containerId : value) : M value :=
  fun w =>
    match publishMediaContainer E (trace w) containerId with
    | Fulfilled data => (Ok data, record (EvMediaPublish true) w)
    | Rejected reason => (Throw (External reason), record (EvMediaPublish false) w)
    end.

(** [postToInstagram({ imageUrl, imagePath, caption })] *)
Definition postToInstagram (E : env) (imageUrl : value) (imagePath caption : string)
  : M value :=
  if negb (env_set (INSTAGRAM_ACCESS_TOKEN E)) || negb (env_set (INSTAGRAM_ACCOUNT_ID E))
  then throw no_credentials
  else
    try_catch
      (containerId <- createMediaContainer_call E imageUrl caption ;;
       result <- publishMediaContainer_call E containerId ;;
       ret result)
      (fun error => throw error).

(* ===================================================================== *)
(** ** The pipeline (index.js) *)
(* ===================================================================== *)

(** [fetchWeatherSummary(walk)]: the destructuring of
    [walk.location_coords] is outside its [try]; everything after it falls
    back to a mock summary. *)
Definition fetchWeatherSummary (E : env) (walk : json) : M json :=
  coords <- lift (get (Some walk) "location_coords") ;;
  lift (get coords "lat") ;;;
  h <- history ;;
  ret (weather_service E h walk).

(** [validateCaption(caption)] *)
Definition validateCaption (caption : string) : bool :=
  negb (2200 <? utf16_length caption)%nat.

Definition generateIllustration_call (E : env) (walk weather : json) : M illustration :=
  h <- history ;;
  emit EvImage ;;;
  await (generateIllustration E h walk weather).

(** [.replace(/\.png$/i, '-caption.txt')] *)
Fixpoint replace_png (s : string) : string :=
  match s with
  | EmptyString => EmptyString
  | String c rest =>
      if String.eqb (toLowerCase s) ".png" then "-caption.txt"
      else String c (replace_png rest)
  end.

(** What a run returns to its invoker. *)
Record outcome : Type := mkOutcome {
  success : bool;
  mode : string;
  walk : value;
  image : value;
  postId : value
}.

(** [process.env.NODE_ENV === 'development'] *)
Definition is_development (E : env) : bool :=
  match NODE_ENV E with
  | Some s => String.eqb s "development"
  | None => false
  end.

(** Steps 1 to 4 of [publishSundayWalkPost]: walk, weather, caption,
    illustration. *)
Definition generate_content (E : env) : M (json * string * illustration) :=
  walk <- generateBestWalk E 1 ;;
  weather <- fetchWeatherSummary E walk ;;
  caption <- lift (buildCaption E walk weather) ;;
  let isValid := validateCaption caption in
  image <- generateIllustration_call E walk weather ;;
  ret (walk, caption, image).

(** The development branch of step 5. *)
Definition save_for_review (E : env) (walk : json) (caption : string) (image : illustration)
  : M outcome :=
  let captionPath := replace_png (localPath image) in
  h <- history ;;
  emit EvWriteCaption ;;;
  await (writeFile_caption E h captionPath caption) ;;;
  walk_title <- lift (get (Some walk) "walk_title") ;;
  ret (mkOutcome true "development" walk_title (Some (JStr (localPath image))) undefined).

(** The production branch of step 5. *)
Definition publish_and_log (E : env) (walk : json) (caption : string) (image : illustration)
  : M outcome :=
  result <- postToInstagram E (url image) (localPath image) caption ;;
  logPost E (Some walk) result ;;;
  walk_title <- lift (get (Some walk) "walk_title") ;;
  postId <- lift (get result "id") ;;
  ret (mkOutcome true "production" walk_title undefined postId).

(** [publishSundayWalkPost()] *)
Definition publishSundayWalkPost (E : env) : M outcome :=
  try_catch
    (content <- generate_content E ;;
     let '(walk, caption, image) := content in
     if is_development E
     then save_for_review E walk caption image
     else publish_and_log E walk caption image)
    (fun error => throw error).

(** Successive triggers of the scheduler, one environment for each. *)
Fixpoint triggers (Es : list env) (w : world) : world :=
  match Es with
  | [] => w
  | E :: rest => triggers rest (snd (publishSundayWalkPost E w))
  end.

(* ===================================================================== *)
(** ** Notions used by the statements *)
(* ===================================================================== *)

(** The effects performed between two worlds of one execution. *)
Definition since (w w' : world) : list event :=
  skipn (List.length (trace w)) (trace w').

Definition is_chat (ev : event) : bool :=
  match ev with
  | EvChat _ => true
  | _ => false
  end.

(** The number of calls to the generative-text collaborator. *)
Definition chats (evs : list event) : nat :=
  List.length (filter is_chat evs).

(** One turn of the retry loop of [generateWalk]: [None] is a collision
    (the pub is already used), [Some walk] an accepted walk. *)
Definition one_attempt (E : env) : M (option json) :=
  usedPubs <- getUsedPubs ;;
  prompt <- lift (buildWalkGenerationPrompt usedPubs) ;;
  getOpenAIClient E ;;;
  content <- chat_create E prompt ;;
  walkData <- lift (JSON_parse content) ;;
  end_pub_name <- lift (get (Some walkData) "end_pub_name") ;;
  if includes usedPubs end_pub_name
  then ret None
  else
    h <- history ;;
    walk <- lift (formatWalkData (ToNumber E) (Date_now E h) walkData) ;;
    ret (Some walk).

(** The runs of the generator that [generateBestWalk(n)] is specified to
    make: [n] of them, one after the other, whatever each returns. *)
Fixpoint generator_runs (E : env) (n : nat) (w : world) : list (result json) * world :=
  match n with
  | 0 => ([], w)
  | S n' =>
      let (r, w1) := generateWalk E 5 1 w in
      let (rs, w2) := generator_runs E n' w1 in
      (r :: rs, w2)
  end.

Fixpoint first_success (rs : list (result json)) : option json :=
  match rs with
  | [] => None
  | Ok walk :: _ => Some walk
  | Throw _ :: rest => first_success rest
  end.

(** The walks of the runs that succeeded, in attempt order. *)
Fixpoint successes (rs : list (result json)) : list json :=
  match rs with
  | [] => []
  | Ok walk :: rest => walk :: successes rest
  | Throw _ :: rest => successes rest
  end.

(** The lines of the log and the pub names they record. *)
Definition log_lines (f : file) : list text :=
  match f with
  | Stored _ _ lines rest => all_lines lines rest
  | _ => []
  end.

Definition pubName_of_line (t : text) : value :=
  match t with
  | Json (JObj members) => lookup "pubName" members
  | _ => None
  end.

Fixpoint strings_of (vs : list value) : list string :=
  match vs with
  | [] => []
  | Some (JStr s) :: rest => s :: strings_of rest
  | _ :: rest => strings_of rest
  end.

Definition pub_names (f : file) : list string :=
  strings_of (map pubName_of_line (log_lines f)).

Definition is_record (t : text) : Prop :=
  exists members, t = Json (JObj members).

(** A log that is absent where it can be created, or is read and written
    and ends with a newline (or is empty). *)
Definition plain (f : file) : Prop :=
  f = NoFile \/ exists lines, f = File lines.

(** A log that is read as objects, one per line, if it is there. *)
Definition read_as_records (f : file) : Prop :=
  ((exists creatable, f = Absent creatable) \/ can_read f = true) /\
  Forall is_record (log_lines f).

(** A log as the program writes it: plain, one object per line. *)
Definition well_formed (f : file) : Prop :=
  plain f /\ Forall is_record (log_lines f).

Definition dedup_invariant (f : file) : Prop :=
  well_formed f /\ NoDup (pub_names f).

(** The invariant without the restriction to strings: no two lines of the
    log record the same pubName, whatever value it is. *)
Definition no_shared_pubName (f : file) : Prop :=
  NoDup (map pubName_of_line (log_lines f)).

Definition is_append (ev : event) : bool :=
  match ev with
  | EvAppendLog _ => true
  | _ => false
  end.

(** Effects that reach the publishing platform. *)
Definition is_publish (ev : event) : bool :=
  match ev with
  | EvCreateContainer => true
  | EvMediaPublish _ => true
  | _ => false
  end.

(** The world after the log has been read once more. *)
Definition after_read (w : world) : world :=
  record (EvReadLog (usedPubs_of (posts_jsonl w))) w.

(** The world after the chat completion of an attempt. *)
Definition after_chat (w : world) : world :=
  mkWorld (posts_jsonl w) true
    ((trace w ++ [EvReadLog (usedPubs_of (posts_jsonl w))])
       ++ [EvChat (usedPubs_of (posts_jsonl w))]).

(** An accepted walk: an object whose pub is not in the used list. *)
Definition accepted (used : list json) (walk : json) : Prop :=
  exists members,
    walk = JObj members /\
    includes used (lookup "end_pub_name" members) = false /\
    truthy (lookup "end_pub_name" members) = true.

Definition is_generator_event (ev : event) : bool :=
  match ev with
  | EvReadLog _ => true
  | EvChat _ => true
  | _ => false
  end.

(** The effects of steps 1 to 4 of the pipeline. *)
Definition is_content_event (ev : event) : bool :=
  match ev with
  | EvReadLog _ => true
  | EvChat _ => true
  | EvImage => true
  | _ => false
  end.


(** An attempt started in [w] gets as far as the call of the
    collaborator: the prompt can be built and the client exists or can be
    created. *)
Definition reaches_collaborator (E : env) (w : world) : Prop :=
  existsb to_string_throws (usedPubs_of (posts_jsonl w)) = false /\
  (openaiClient w = true \/ env_set (OPENAI_API_KEY E) = true).


(* ===================================================================== *)
(** ** Fixtures: stub collaborators and sample replies *)
(* ===================================================================== *)

Definition sample_walk (title pub : string) : json :=
  JObj
    [ ("walk_title", JStr title);
      ("area", JStr "Hampstead Heath, North London");
      ("area_short", JStr "Hampstead Heath");
      ("start_point", JStr "Hampstead station");
      ("end_pub_name", JStr pub);
      ("end_pub_handle", JNull);
      ("distance_km", JNum 4.5%float);
      ("duration_minutes", JNum 75%float);
      ("highlights", JArr [JStr "Views"; JStr "Ponds"; JStr "A fire"]);
      ("landmarks_for_prompt", JArr [JStr "Parliament Hill"; JStr "Kenwood"]);
      ("location_coords", JObj [("lat", JNum 51.5%float); ("lng", JNum (-0.25)%float)]);
      ("directions", JArr [JStr "Start"; JStr "Walk"; JStr "Continue"; JStr "Arrive"]) ].

(** A reply that lacks required fields (area and those after it). *)
Definition incomplete_reply (pub : string) : json :=
  JObj [("walk_title", JStr "Heath to Hearth"); ("end_pub_name", JStr pub)].

Definition sample_weather : json :=
  JObj [("summary", JStr "Mild and partly cloudy, 15C"); ("tip", JStr "Bring a light jacket.")].

Definition sample_image : illustration :=
  mkIllustration (Some (JStr "https://example.org/walk.png")) "generated/walk-1.png".

(** An environment whose collaborators all succeed, but for the chat
    completion, the publish call and NODE_ENV, which are given. *)
Definition stub_env (node_env : option string)
    (chat : list event -> list json -> reply text)
    (publish : reply value) : env :=
  mkEnv node_env (Some "sk-test") (Some "token") (Some "17841400000000000")
    (fun _ => nan)
    (fun _ => "1700000000000")
    (fun _ => "2024-11-11T10:00:00.000Z")
    chat
    (fun _ _ => sample_weather)
    (fun _ _ => Ok "caption")
    (fun _ _ _ => Fulfilled sample_image)
    (fun _ _ _ => Fulfilled tt)
    (fun _ _ _ => Fulfilled (Some (JStr "container-1")))
    (fun _ _ => publish).

Definition published : reply value :=
  Fulfilled (Some (JObj [("id", JStr "post-1")])).

(** The stub of the specification: it returns the same pub at every call. *)
Definition always (pub : string) : list event -> list json -> reply text :=
  fun _ _ => Fulfilled (Json (sample_walk "Heath to Hearth" pub)).

(** A stub that first returns an incomplete reply, then a full walk. *)
Definition incomplete_then (pub1 pub2 : string) : list event -> list json -> reply text :=
  fun h _ =>
    match chats h with
    | 0 => Fulfilled (Json (incomplete_reply pub1))
    | _ => Fulfilled (Json (sample_walk "Pints Above the Park" pub2))
    end.

(** The always-colliding stub: The Crown is proposed at every call. *)
Definition crown_stub : env :=
  stub_env None (always "The Crown") published.

(** An incomplete reply for a pub that is already used, then a full walk
    for another one. *)
Definition used_incomplete_stub : env :=
  stub_env None (incomplete_then "The Crown" "The Anchor") published.

(** An incomplete reply for a pub that has not been used. *)
Definition unused_incomplete_stub : env :=
  stub_env None (incomplete_then "The Anchor" "The Anchor") published.

(** Production, publishing refused by the platform. *)
Definition failing_publish_stub : env :=
  stub_env None (always "The Anchor") (Rejected "OAuthException").

(** The development mode of the test script. *)
Definition development_stub : env :=
  stub_env (Some "development") (always "The Anchor") published.

(** A value of NODE_ENV that differs from development by its case. *)
Definition capital_Development_stub : env :=
  stub_env (Some "Development") (always "The Anchor") published.

(** Production, with a collaborator that proposes The Anchor. *)
Definition anchor_stub : env :=
  stub_env None (always "The Anchor") published.

(** Production, with a collaborator that proposes the crown, in lower case. *)
Definition lowercase_stub : env :=
  stub_env None (always "the crown") published.

(** A collaborator that is unavailable for its first two calls. *)
Definition flaky_stub : env :=
  stub_env None
    (fun h _ =>
       match chats h with
       | 0 => Rejected "503 Service Unavailable"
       | 1 => Rejected "503 Service Unavailable"
       | _ => Fulfilled (Json (sample_walk "Heath to Hearth" "The Anchor"))
       end)
    published.

(** The sample walk with any JSON value for its end_pub_name. *)
Definition sample_walk_ending_at (pub : json) : json :=
  JObj (spread (sample_walk "Heath to Hearth" "The Crown") ++ [("end_pub_name", pub)]).

(** Production, with a collaborator whose pub name is an array. *)
Definition array_stub : env :=
  stub_env None
    (fun _ _ => Fulfilled (Json (sample_walk_ending_at (JArr [JStr "The Crown"]))))
    published.

(** Production, with a collaborator whose pub name is the number 1e999,
    which [JSON.parse] reads as infinity. *)
Definition infinity_stub : env :=
  stub_env None
    (fun _ _ => Fulfilled (Json (sample_walk_ending_at (JNum infinity))))
    published.

Definition fresh_world : world := mkWorld NoFile false [].

(** The Crown is logged, but the file does not end with a newline. *)
Definition unended_log : world :=
  mkWorld (Stored true true [] (Some (Json (JObj [("pubName", JStr "The Crown")]))))
    false [].

(** A log whose second line is not JSON. *)
Definition corrupted_log : world :=
  mkWorld (File [Json (JObj [("pubName", JStr "The Crown")]); Garbage]) false [].

Definition crown_logged : world :=
  mkWorld (File [Json (JObj [("pubName", JStr "The Crown")])]) false [].

(* ===================================================================== *)
(** ** More notions for the statements *)
(* ===================================================================== *)

(** The effects of [c] complete attempts of the generator on a log whose
    used pubs are [used]: a read of the log, then a chat completion whose
    prompt lists what was read. *)
Fixpoint attempts_trace (used : list json) (c : nat) : list event :=
  match c with
  | 0 => []
  | S c' => EvReadLog used :: EvChat used :: attempts_trace used c'
  end.

Definition missing_key : error :=
  Error "OPENAI_API_KEY environment variable is not set".

(** What an attempt throws before it reaches the collaborator when there
    is neither a client nor a key: the error of the prompt when a used pub
    cannot be written in it, the configuration error otherwise. *)
Definition keyless_error (used : list json) : error :=
  if existsb to_string_throws used then not_primitive else missing_key.

(** An environment without a key for the generative-text collaborator. *)
Definition keyless_stub : env :=
  mkEnv None None (Some "token") (Some "17841400000000000")
    (fun _ => nan)
    (fun _ => "1700000000000")
    (fun _ => "2024-11-11T10:00:00.000Z")
    (always "The Anchor")
    (fun _ _ => sample_weather)
    (fun _ _ => Ok "caption")
    (fun _ _ _ => Fulfilled sample_image)
    (fun _ _ _ => Fulfilled tt)
    (fun _ _ _ => Fulfilled (Some (JStr "container-1")))
    (fun _ _ => published).


(** The shape of a slug: which characters it is made of, and where its
    dashes are. *)
Definition is_dash (c : ascii) : bool := Ascii.eqb c "-"%char.

Fixpoint all_chars (p : ascii -> bool) (s : string) : bool :=
  match s with
  | EmptyString => true
  | String c rest => p c && all_chars p rest
  end.

Definition starts_with_dash (s : string) : bool :=
  match s with
  | String c _ => is_dash c
  | EmptyString => false
  end.

Fixpoint ends_with_dash (s : string) : bool :=
  match s with
  | EmptyString => false
  | String c EmptyString => is_dash c
  | String _ rest => ends_with_dash rest
  end.

Fixpoint dash_twice (s : string) : bool :=
  match s with
  | EmptyString => false
  | String c rest => (is_dash c && starts_with_dash rest) || dash_twice rest
  end.

Definition slug_shaped (s : string) : bool :=
  all_chars (fun c => is_a_z_0_9 c || is_dash c) s
  && negb (starts_with_dash s) && negb (ends_with_dash s) && negb (dash_twice s).

(** A walk as [formatWalkData] lets it through: an object with an id and
    a slug, a walk_title that is a string, truthy required members, a
    location with truthy lat and lng, and highlights and directions on
    which the tests [.length < 2] and [.length < 4] are false. *)
Definition valid_walk (T : json -> float) (walk : json) : Prop :=
  exists members title lat lng,
    walk = JObj members /\
    lookup "id" members <> None /\
    lookup "slug" members <> None /\
    lookup "walk_title" members = Some (JStr title) /\
    (forall f, In f required -> truthy (lookup f members) = true) /\
    get (lookup "location_coords" members) "lat" = Ok lat /\
    get (lookup "location_coords" members) "lng" = Ok lng /\
    truthy lat = true /\
    truthy lng = true /\
    length_less_than T (lookup "highlights" members) 2 = Ok false /\
    length_less_than T (lookup "directions" members) 4 = Ok false.

(** A log that can be neither read nor written. *)
Definition locked_log : world := mkWorld Unreadable false [].

(** A log that can be read but not written: it holds The Crown. *)
Definition read_only_log : world :=
  mkWorld (Stored true false [Json (JObj [("pubName", JStr "The Crown")])] None) false [].

(** No log, and no way to create one (logs/ cannot be made). *)
Definition no_logs_directory : world := mkWorld (Absent false) false [].

(** Production, with a media_publish that answers with the body null. *)
Definition null_body_stub : env :=
  stub_env None (always "The Anchor") (Fulfilled (Some JNull)).

(* ===================================================================== *)
(** ** The entry points (index.js, test-post.js) *)
(* ===================================================================== *)

(** [process.env.NODE_ENV = v] *)
Definition set_NODE_ENV (v : string) (E : env) : env :=
  mkEnv (Some v) (OPENAI_API_KEY E) (INSTAGRAM_ACCESS_TOKEN E) (INSTAGRAM_ACCOUNT_ID E)
    (ToNumber E) (Date_now E) (Date_toISOString E) (chat_completions_create E)
    (weather_service E) (buildCaption E) (generateIllustration E)
    (writeFile_caption E) (createMediaContainer E) (publishMediaContainer E).

(** [testPost()] of the test script: the mode is forced, the pipeline is
    run, and a failure ends the process with [process.exit(1)]; the value
    is the exit code asked for, if any. *)
Definition testPost (E : env) : M (option nat) :=
  let E' := set_NODE_ENV "development" E in
  try_catch
    (publishSundayWalkPost E' ;;; ret None)
    (fun _ => ret (Some 1)).

(** [x || d] for a variable of the environment. *)
Definition or_default (x : option string) (d : string) : string :=
  match x with
  | Some s => if String.eqb s "" then d else s
  | None => d
  end.

(** What [startScheduler] prints after Environment: *)
Definition banner_environment (E : env) : string :=
  or_default (NODE_ENV E) "development".

(** [const TRIGGER_SECRET = process.env.TRIGGER_SECRET || '...'] *)
Definition TRIGGER_SECRET (var : option string) : string :=
  or_default var "change-me-in-production".

(** A request, as the handler sees it: [new URL(req.url, ...)] throws, or
    gives [url.pathname] and [url.searchParams.get('secret')] ([None] is
    null: no such parameter). *)
Inductive request : Type :=
  | BadUrl
  | Url (pathname : string) (providedSecret : option string).

(** The answer of the handler: status and content type of [writeHead], and
    whether the pipeline has been started. *)
Record answer : Type := mkAnswer {
  status : nat;
  content_type : string;
  started : bool
}.

(** [providedSecret !== TRIGGER_SECRET] *)
Definition differs (providedSecret : option string) (secret : string) : bool :=
  match providedSecret with
  | Some s => negb (String.eqb s secret)
  | None => true
  end.

(** The request handler of the HTTP server.  The branch that serves the
    generated images looks at the file system: its status and content
    type are given by [images]. *)
Definition handler (var : option string) (images : string -> nat * string)
    (req : request) : answer :=
  match req with
  | BadUrl => mkAnswer 500 "application/json" false
  | Url pathname providedSecret =>
      if String.eqb pathname "/health" then mkAnswer 200 "application/json" false
      else if String.eqb pathname "/trigger" then
        if differs providedSecret (TRIGGER_SECRET var)
        then mkAnswer 401 "application/json" false
        else mkAnswer 200 "application/json" true
      else if String.prefix "/images/" pathname then
        mkAnswer (fst (images pathname)) (snd (images pathname)) false
      else mkAnswer 200 "text/html" false
  end.

(* ===================================================================== *)
(** ** Dates (services/ai-walk-generator.js, image.js, weather.js) *)
(* ===================================================================== *)

(** [[a, b, c].includes(month)] on numbers *)
Definition month_in (months : list nat) (month : nat) : bool :=
  existsb (Nat.eqb month) months.

(** [getCurrentSeason()], for [month = new Date().getMonth() + 1] *)
Definition getCurrentSeason (month : nat) : string :=
  if month_in [12; 1; 2] month then "winter (cosy pubs, crisp air, roaring fires)"
  else if month_in [3; 4; 5] month
       then "spring (fresh blooms, mild weather, beer gardens opening)"
  else if month_in [6; 7; 8] month
       then "summer (long days, sunny terraces, riverside pints)"
  else "autumn (golden leaves, mild temperatures, harvest season)".

(** [getSeasonHint(date)], for [month = date.getMonth() + 1] *)
Definition getSeasonHint (month : nat) : string :=
  if month_in [12; 1; 2] month then "crisp winter"
  else if month_in [3; 4; 5] month then "fresh spring"
  else if month_in [6; 7; 8] month then "bright summer"
  else "golden autumn".

(** A date in local time: the number of its calendar day, counted from
    Thursday 1 January 1970, and its time of day.  [setDate] with a day
    past the end of the month moves on to the following months, that is,
    by calendar days. *)
Record date : Type := mkDate {
  day_number : nat;
  hours : nat;
  minutes : nat;
  seconds : nat;
  milliseconds : nat
}.

(** [date.getDay()]: 0 is Sunday *)
Definition getDay (d : date) : nat := (day_number d + 4) mod 7.

(** [getNextSunday()], for [today = new Date()] *)
Definition getNextSunday (today : date) : date :=
  let daysUntilSunday :=
    match (7 - getDay today) mod 7 with
    | 0 => 7
    | d => d
    end in
  mkDate (day_number today + daysUntilSunday) 12 0 0 0.

(* ===================================================================== *)
(** ** Generic facts: the monad, traces, the frame *)
(* ===================================================================== *)

Arguments get : simpl never.
Arguments JSON_parse : simpl never.
Arguments formatWalkData : simpl never.
Arguments usedPubs_of : simpl never.
Arguments includes : simpl never.
Arguments env_set : simpl never.

(** Proves a property of every event of an explicit list. *)
Ltac each_event :=
  repeat (apply Forall_cons; [cbn; auto |]); apply Forall_nil.

(** *** The model on sample inputs *)

Example slug_of_title : slug_of "Heath to Hearth!" = "heath-to-hearth".
Proof. reflexivity. Qed.

(** The Kelvin sign lowers to k, the capital I with a dot to i and a
    combining dot, which the slug replaces by a dash. *)
Example slug_beyond_ascii :
  slug_of (String (ascii_of_nat 226) (String (ascii_of_nat 132)
             (String (ascii_of_nat 170) "ew Gardens")))
  = "kew-gardens" /\
  slug_of (String (ascii_of_nat 196) (String (ascii_of_nat 176) "slington"))
  = "i-slington".
Proof. split; reflexivity. Qed.

Example caption_path : replace_png "generated/walk-1.PNG" = "generated/walk-1-caption.txt".
Proof. reflexivity. Qed.

Example zero_is_falsy : truthy (Some (JNum 0%float)) = false.
Proof. reflexivity. Qed.

Example empty_array_is_truthy : truthy (Some (JArr [])) = true.
Proof. reflexivity. Qed.

Example objects_are_never_the_same :
  includes [JArr [JStr "The Crown"]] (Some (JArr [JStr "The Crown"])) = false.
Proof. reflexivity. Qed.

Example last_member_wins :
  lookup "pubName" [("pubName", JStr "The Crown"); ("pubName", JStr "The Anchor")]
  = Some (JStr "The Anchor").
Proof. reflexivity. Qed.

Example set_of_keeps_first_occurrences :
  set_of [] [JStr "The Crown"; JStr "The Anchor"; JStr "The Crown"]
  = [JStr "The Crown"; JStr "The Anchor"].
Proof. reflexivity. Qed.

Example blank_ends_are_trimmed :
  trim_split [Blank; Json JNull; Blank; Garbage; Blank; Blank]
  = [Json JNull; Blank; Garbage].
Proof. reflexivity. Qed.

Example empty_file_is_one_empty_line : usedPubs_of (File []) = [].
Proof. reflexivity. Qed.

Example sample_walk_is_valid :
  exists walk, formatWalkData (fun _ => nan) "1700000000000"
                 (sample_walk "Heath to Hearth" "The Crown") = Ok walk.
Proof. eexists. vm_compute. reflexivity. Qed.

Example one_highlight_is_too_few :
  formatWalkData (fun _ => nan) "1700000000000"
    (JObj [ ("walk_title", JStr "t"); ("area", JStr "a"); ("area_short", JStr "a");
            ("start_point", JStr "s"); ("end_pub_name", JStr "p");
            ("distance_km", JNum 4.5%float); ("duration_minutes", JNum 75%float);
            ("highlights", JArr [JStr "one"]); ("landmarks_for_prompt", JArr []);
            ("location_coords", JObj [("lat", JNum 51.5%float); ("lng", JNum (-0.25)%float)]);
            ("directions", JArr [JStr "1"; JStr "2"; JStr "3"; JStr "4"]) ])
  = Throw (Error "Walk must have at least 2 highlights").
Proof. vm_compute. reflexivity. Qed.

Example zero_longitude_is_falsy :
  formatWalkData (fun _ => nan) "1700000000000"
    (JObj [ ("walk_title", JStr "t"); ("area", JStr "a"); ("area_short", JStr "a");
            ("start_point", JStr "s"); ("end_pub_name", JStr "p");
            ("distance_km", JNum 4.5%float); ("duration_minutes", JNum 75%float);
            ("highlights", JArr [JStr "1"; JStr "2"]); ("landmarks_for_prompt", JArr []);
            ("location_coords", JObj [("lat", JNum 51.5%float); ("lng", JNum 0%float)]);
            ("directions", JArr [JStr "1"; JStr "2"; JStr "3"; JStr "4"]) ])
  = Throw (Error "Generated walk has invalid coordinates").
Proof. vm_compute. reflexivity. Qed.

Example a_number_passes_for_highlights :
  exists walk,
    formatWalkData (fun _ => nan) "1700000000000"
      (JObj [ ("walk_title", JStr "t"); ("area", JStr "a"); ("area_short", JStr "a");
              ("start_point", JStr "s"); ("end_pub_name", JStr "p");
              ("distance_km", JNum 4.5%float); ("duration_minutes", JNum 75%float);
              ("highlights", JNum 5%float); ("landmarks_for_prompt", JArr []);
              ("location_coords", JObj [("lat", JNum 51.5%float); ("lng", JNum (-0.25)%float)]);
              ("directions", JBool true) ])
    = Ok walk.
Proof. eexists. vm_compute. reflexivity. Qed.

(** Three characters of three bytes each are three code units. *)
Example length_counts_code_units :
  let ri := String (ascii_of_nat 230) (String (ascii_of_nat 151)
              (String (ascii_of_nat 165) EmptyString)) in
  String.length (ri ++ ri ++ ri) = 9 /\
  length_less_than (fun _ => nan) (Some (JStr (ri ++ ri ++ ri))) 4 = Ok true.
Proof. split; reflexivity. Qed.

Example a_length_that_is_no_number :
  length_less_than (fun _ => nan)
    (Some (JObj [("length", JObj [("toString", JNum 1%float)])])) 2
  = Throw not_primitive.
Proof. reflexivity. Qed.

Example infinity_is_written_null :
  written (JObj [("pubName", JNum infinity); ("n", JArr [JNum neg_infinity; JNum 2%float])])
  = JObj [("pubName", JNull); ("n", JArr [JNull; JNum 2%float])].
Proof. vm_compute. reflexivity. Qed.

Example an_append_without_newline_is_glued :
  appendFile (posts_jsonl unended_log) (Json (JObj [("pubName", JStr "The Anchor")]))
    = Ok (File [Garbage]) /\
  usedPubs_of (posts_jsonl unended_log) = [JStr "The Crown"] /\
  usedPubs_of (File [Garbage]) = [].
Proof. repeat split; reflexivity. Qed.

Example a_read_only_log_is_read :
  usedPubs_of (Stored true false [Json (JObj [("pubName", JStr "The Crown")])] None)
    = [JStr "The Crown"] /\
  appendFile (Stored true false [Json (JObj [("pubName", JStr "The Crown")])] None)
    (Json (JObj [("pubName", JStr "The Anchor")])) = Throw (External "EACCES").
Proof. split; reflexivity. Qed.

(** Where the log cannot be created every run finds no used pub: the same
    pub is published by each. *)
Example a_log_that_cannot_be_created :
  fst (publishSundayWalkPost anchor_stub no_logs_directory)
    = Ok (mkOutcome true "production" (Some (JStr "Heath to Hearth")) undefined
            (Some (JStr "post-1"))) /\
  posts_jsonl (triggers [anchor_stub; anchor_stub] no_logs_directory) = Absent false /\
  filter is_publish (trace (triggers [anchor_stub; anchor_stub] no_logs_directory))
    = [EvCreateContainer; EvMediaPublish true; EvCreateContainer; EvMediaPublish true].
Proof. repeat split; vm_compute; reflexivity. Qed.

Example pipeline_in_production :
  posts_jsonl (snd (publishSundayWalkPost anchor_stub crown_logged))
  = File [ Json (JObj [("pubName", JStr "The Crown")]);
           Json (JObj [ ("timestamp", JStr "2024-11-11T10:00:00.000Z");
                        ("walkId", JStr "walk-1700000000000");
                        ("walkTitle", JStr "Heath to Hearth");
                        ("slug", JStr "heath-to-hearth");
                        ("pubName", JStr "The Anchor");
                        ("area", JStr "Hampstead Heath");
                        ("instagramPostId", JStr "post-1");
                        ("success", JBool true) ]) ].
Proof. vm_compute. reflexivity. Qed.

(** *** Unfolding the generator *)

Lemma generateWalk_over E k a w :
  k < a -> generateWalk E k a w = (Throw exhausted, w).
Proof.
  intros H. rewrite generateWalk_equation_1.
  unfold generateWalk_unfold_clause_1.
  destruct (le_lt_dec a k) as [Hle | _]; [lia | reflexivity].
Qed.

Lemma generateWalk_step E k a w :
  a <= k ->
  generateWalk E k a w =
  match one_attempt E w with
  | (Ok None, w') => generateWalk E k (S a) w'
  | (Ok (Some walk), w') => (Ok walk, w')
  | (Throw e, w') => (Throw e, w')
  end.
Proof.
  intros H. rewrite generateWalk_equation_1.
  unfold generateWalk_unfold_clause_1.
  destruct (le_lt_dec a k) as [_ | Hlt]; [| lia].
  unfold one_attempt, bind, try_catch, throw, ret, lift.
  destruct (getUsedPubs w) as [[usedPubs | e] w1]; [| reflexivity].
  destruct (buildWalkGenerationPrompt usedPubs) as [prompt | e]; [| reflexivity].
  destruct (getOpenAIClient E w1) as [[[] | e] w2]; [| reflexivity].
  destruct (chat_create E prompt w2) as [[content | e] w3]; [| reflexivity].
  destruct (JSON_parse content) as [walkData | e]; [| reflexivity].
  destruct (get (Some walkData) "end_pub_name") as [name | e]; [| reflexivity].
  destruct (includes usedPubs name).
  - destruct (generateWalk E k (S a) w3) as [[walk | e] w4]; reflexivity.
  - unfold history.
    destruct (formatWalkData (ToNumber E) (Date_now E (trace w3)) walkData); reflexivity.
Qed.


Lemma one_attempt_eq E w :
  one_attempt E w =
  let used := usedPubs_of (posts_jsonl w) in
  if existsb to_string_throws used
  then (Throw (TypeError "Cannot convert object to primitive value"), after_read w)
  else if negb (openaiClient w) && negb (env_set (OPENAI_API_KEY E))
  then (Throw (Error "OPENAI_API_KEY environment variable is not set"), after_read w)
  else
    match chat_completions_create E (trace (after_read w)) used with
    | Rejected reason => (Throw (External reason), after_chat w)
    | Fulfilled content =>
        match JSON_parse content with
        | Throw e => (Throw e, after_chat w)
        | Ok walkData =>
            match get (Some walkData) "end_pub_name" with
            | Throw e => (Throw e, after_chat w)
            | Ok name =>
                if includes used name then (Ok None, after_chat w)
                else
                  match formatWalkData (ToNumber E) (Date_now E (trace (after_chat w))) walkData with
                  | Ok walk => (Ok (Some walk), after_chat w)
                  | Throw e => (Throw e, after_chat w)
                  end
            end
        end
    end.
Proof.
  destruct w as [f client t].
  unfold one_attempt, bind, getUsedPubs, getOpenAIClient, chat_create, history,
    emit, bind, await, lift, ret, throw, after_read, after_chat, record,
    buildWalkGenerationPrompt; cbn.
  destruct (existsb to_string_throws (usedPubs_of f)); [reflexivity |].
  destruct client; cbn.
  - destruct (chat_completions_create E _ _) as [content | reason]; cbn; [| reflexivity].
    destruct (JSON_parse content) as [walkData | e]; [| reflexivity].
    destruct (get (Some walkData) "end_pub_name") as [name | e]; [| reflexivity].
    destruct (includes _ name); [reflexivity |].
    destruct (formatWalkData _ _ walkData); reflexivity.
  - destruct (env_set (OPENAI_API_KEY E)); cbn; [| reflexivity].
    destruct (chat_completions_create E _ _) as [content | reason]; cbn; [| reflexivity].
    destruct (JSON_parse content) as [walkData | e]; [| reflexivity].
    destruct (get (Some walkData) "end_pub_name") as [name | e]; [| reflexivity].
    destruct (includes _ name); [reflexivity |].
    destruct (formatWalkData _ _ walkData); reflexivity.
Qed.

(** *** Structural validation *)

Lemma check_required_not_exhausted walk fields e :
  check_required walk fields = Throw e -> e <> exhausted.
Proof.
  induction fields as [| f rest IH]; cbn; [discriminate |].
  destruct (truthy (lookup f walk)); cbn; [exact IH |].
  intros [= <-]. discriminate.
Qed.

Lemma check_required_In walk fields :
  check_required walk fields = Ok tt ->
  forall f, In f fields -> truthy (lookup f walk) = true.
Proof.
  induction fields as [| f0 rest IH]; cbn; [contradiction |].
  destruct (truthy (lookup f0 walk)) eqn:Hf0; cbn; [| discriminate].
  intros H f [<- | Hin]; auto.
Qed.

(** What an accepted reply looks like after formatting. *)
Lemma formatWalkData_Ok T now walkData walk :
  formatWalkData T now walkData = Ok walk ->
  exists members title,
    walkData = JObj members /\
    lookup "walk_title" members = Some (JStr title) /\
    walk = JObj (("id", JStr ("walk-" ++ now)%string)
                 :: ("slug", JStr (slug_of title)) :: members) /\
    (forall f, In f required ->
       truthy (lookup f (("id", JStr ("walk-" ++ now)%string)
                         :: ("slug", JStr (slug_of title)) :: members)) = true).
Proof.
  unfold formatWalkData.
  destruct (get (Some walkData) "walk_title") as [title | e] eqn:Hget; [| discriminate].
  destruct (walk_title_toLowerCase title) as [lowered | e] eqn:Hlow; [| discriminate].
  destruct title as [[| | | s | |] |]; try discriminate.
  injection Hlow as <-.
  destruct walkData as [| | | | | members]; try discriminate.
  unfold get in Hget. injection Hget as Hget.
  cbn [spread].
  destruct (check_required _ required) as [[] | e] eqn:Hreq; [| discriminate].
  intros H. exists members, s. repeat split; auto.
  - destruct (get (lookup "location_coords" _) "lat") as [lat | e];
      [| discriminate].
    destruct (get (lookup "location_coords" _) "lng") as [lng | e];
      [| discriminate].
    destruct (negb (truthy lat) || negb (truthy lng)); [discriminate |].
    destruct (length_less_than T _ 2) as [[] | e]; try discriminate.
    destruct (length_less_than T _ 4) as [[] | e]; try discriminate.
    now injection H as <-.
  - apply check_required_In. exact Hreq.
Qed.

Lemma lookup_walk_member k id slug members :
  k <> "id" -> k <> "slug" ->
  lookup k (("id", id) :: ("slug", slug) :: members) = lookup k members.
Proof.
  intros Hid Hslug. cbn [lookup].
  destruct (lookup k members); [reflexivity |].
  destruct (String.eqb_spec "slug" k); [congruence |].
  destruct (String.eqb_spec "id" k); [congruence | reflexivity].
Qed.

(** Structural validity, read off [formatWalkData]: a string title, the
    eleven required members truthy, both coordinates truthy, and the two
    tests on the lengths false. *)
Lemma formatWalkData_accepts T now members title :
  lookup "walk_title" members = Some (JStr title) ->
  (forall f, In f required -> truthy (lookup f members) = true) ->
  (exists lat lng,
     get (lookup "location_coords" members) "lat" = Ok lat /\
     get (lookup "location_coords" members) "lng" = Ok lng /\
     truthy lat = true /\ truthy lng = true) ->
  length_less_than T (lookup "highlights" members) 2 = Ok false ->
  length_less_than T (lookup "directions" members) 4 = Ok false ->
  formatWalkData T now (JObj members)
  = Ok (JObj (("id", JStr ("walk-" ++ now)%string)
              :: ("slug", JStr (slug_of title)) :: members)).
Proof.
  intros Htitle Hreq (lat & lng & Hlat & Hlng & Htlat & Htlng) Hhigh Hdir.
  unfold formatWalkData, get at 1. rewrite Htitle. cbn [walk_title_toLowerCase spread].
  assert (Hsame : forall k, k <> "id" -> k <> "slug" ->
            lookup k (("id", JStr ("walk-" ++ now)%string)
                      :: ("slug", JStr (strip_dashes (replace_runs false (toLowerCase title))))
                      :: members) = lookup k members)
    by (intros; now apply lookup_walk_member).
  assert (Hcheck : forall fields,
            (forall f, In f fields -> In f required) ->
            check_required (("id", JStr ("walk-" ++ now)%string)
                            :: ("slug", JStr (strip_dashes (replace_runs false (toLowerCase title))))
                            :: members) fields = Ok tt).
  { induction fields as [| f rest IH]; intros Hsub; [reflexivity |].
    cbn [check_required].
    assert (Hf : In f required) by (apply Hsub; now left).
    rewrite Hsame.
    - rewrite (Hreq f Hf). cbn [negb]. apply IH. intros g Hg. apply Hsub. now right.
    - intros ->. cbn in Hf. repeat destruct Hf as [Hf | Hf]; try discriminate; contradiction.
    - intros ->. cbn in Hf. repeat destruct Hf as [Hf | Hf]; try discriminate; contradiction. }
  rewrite Hcheck by auto.
  rewrite !Hsame by discriminate.
  rewrite Hlat, Hlng, Htlat, Htlng, Hhigh, Hdir. reflexivity.
Qed.

Lemma length_less_than_not_exhausted T v n e :
  length_less_than T v n = Throw e -> e <> exhausted.
Proof.
  destruct v as [[| | | | items | members] |]; cbn; try discriminate;
    try (intros [= <-]; discriminate).
  destruct (lookup "length" members) as [[| | | | items | members'] |]; cbn;
    try discriminate.
  - destruct (existsb to_string_throws items); [intros [= <-] |]; discriminate.
  - destruct (lookup "toString" members'); [intros [= <-] |]; discriminate.
Qed.

Lemma formatWalkData_not_exhausted T now walkData e :
  formatWalkData T now walkData = Throw e -> e <> exhausted.
Proof.
  unfold formatWalkData.
  destruct (get (Some walkData) "walk_title") as [title | e0] eqn:Hget.
  2:{ intros [= <-]. destruct walkData; unfold get in Hget; try discriminate.
      injection Hget as <-. discriminate. }
  destruct (walk_title_toLowerCase title) as [lowered | e0] eqn:Hlow.
  2:{ intros [= <-]. destruct title as [[| | | s | |] |]; cbn in Hlow;
      try discriminate; injection Hlow as <-; discriminate. }
  destruct (check_required _ required) as [[] | e0] eqn:Hreq.
  2:{ intros [= <-]. eapply check_required_not_exhausted; eauto. }
  destruct (get _ "lat") as [lat | e1] eqn:Hlat.
  2:{ intros [= <-]. destruct (lookup "location_coords" _) as [[] |];
      unfold get in Hlat; try discriminate; injection Hlat as <-; discriminate. }
  destruct (get _ "lng") as [lng | e1] eqn:Hlng.
  2:{ intros [= <-]. destruct (lookup "location_coords" _) as [[] |];
      unfold get in Hlng; try discriminate; injection Hlng as <-; discriminate. }
  destruct (negb (truthy lat) || negb (truthy lng)); [intros [= <-]; discriminate |].
  destruct (length_less_than T _ 2) as [[] | e1] eqn:Hhigh;
    [intros [= <-]; discriminate | |
     intros [= <-]; eapply length_less_than_not_exhausted; eauto].
  destruct (length_less_than T _ 4) as [[] | e1] eqn:Hdir;
    [intros [= <-]; discriminate | |
     intros [= <-]; eapply length_less_than_not_exhausted; eauto].
  discriminate.
Qed.


(** *** One attempt *)


Lemma one_attempt_cases E w r w' :
  one_attempt E w = (r, w') ->
  (w' = after_read w /\ exists e, r = Throw e /\ e <> exhausted) \/
  (w' = after_chat w /\
   match r with
   | Ok None => True
   | Ok (Some walk) => accepted (usedPubs_of (posts_jsonl w)) walk
   | Throw e => e <> exhausted
   end).
Proof.
  rewrite one_attempt_eq. cbv zeta.
  destruct (existsb to_string_throws (usedPubs_of (posts_jsonl w))).
  { intros [= <- <-]. left. split; [reflexivity |]. eexists. split; [reflexivity | discriminate]. }
  destruct (negb (openaiClient w) && negb (env_set (OPENAI_API_KEY E))).
  { intros [= <- <-]. left. split; [reflexivity |]. eexists. split; [reflexivity | discriminate]. }
  destruct (chat_completions_create E _ _) as [content | reason].
  2:{ intros [= <- <-]. right. split; [reflexivity | discriminate]. }
  destruct (JSON_parse content) as [walkData | e] eqn:Hparse.
  2:{ intros [= <- <-]. right. split; [reflexivity |].
      destruct content; cbn in Hparse; try discriminate; injection Hparse as <-; discriminate. }
  destruct (get (Some walkData) "end_pub_name") as [name | e] eqn:Hname.
  2:{ intros [= <- <-]. right. split; [reflexivity |].
      destruct walkData; unfold get in Hname; try discriminate.
      injection Hname as <-. discriminate. }
  destruct (includes _ name) eqn:Hinc.
  { intros [= <- <-]. right. split; [reflexivity | exact I]. }
  destruct (formatWalkData _ _ walkData) as [walk | e] eqn:Hfmt.
  2:{ intros [= <- <-]. right. split; [reflexivity |].
      eapply formatWalkData_not_exhausted; eauto. }
  intros [= <- <-]. right. split; [reflexivity |].
  apply formatWalkData_Ok in Hfmt as (members & title & -> & Htitle & -> & Hreq).
  unfold get in Hname. injection Hname as <-.
  eexists. split; [reflexivity |].
  rewrite lookup_walk_member by discriminate.
  split; [exact Hinc |].
  rewrite <- (lookup_walk_member "end_pub_name" (JStr ("walk-" ++ Date_now E (trace (after_chat w)))%string)
                (JStr (slug_of title)) members) by discriminate.
  apply Hreq. unfold required. cbn. tauto.
Qed.

(** *** The retry loop *)


Lemma chats_app evs1 evs2 : chats (evs1 ++ evs2) = chats evs1 + chats evs2.
Proof. unfold chats. now rewrite filter_app, length_app. Qed.

Lemma generateWalk_spec E k :
  forall n a w r w',
    n = S k - a ->
    generateWalk E k a w = (r, w') ->
    posts_jsonl w' = posts_jsonl w /\
    exists evs,
      trace w' = trace w ++ evs /\
      Forall (fun ev => is_generator_event ev = true) evs /\
      chats evs <= n /\
      match r with
      | Ok walk =>
          accepted (usedPubs_of (posts_jsonl w)) walk /\
          (exists pre, evs = pre ++ [EvReadLog (usedPubs_of (posts_jsonl w));
                                     EvChat (usedPubs_of (posts_jsonl w))]) /\
          (exists w_last, one_attempt E w_last = (Ok (Some walk), w'))
      | Throw e =>
          (e = exhausted /\ chats evs = n) \/
          (e <> exhausted /\ exists w_last, one_attempt E w_last = (Throw e, w'))
      end.
Proof.
  induction n as [| m IH]; intros a w r w' Hn Hrun.
  - rewrite generateWalk_over in Hrun by lia. injection Hrun as <- <-.
    split; [reflexivity |]. exists []. rewrite app_nil_r.
    repeat split; auto. 
  - rewrite generateWalk_step in Hrun by lia.
    destruct (one_attempt E w) as [[[walk |] | e] w1] eqn:Hone.
    + injection Hrun as <- <-.
      pose proof Hone as Hcase. apply one_attempt_cases in Hcase.
      destruct Hcase as [(_ & e & He & _) | (-> & Hacc)]; [discriminate |].
      split; [reflexivity |]. eexists. split; [cbn; rewrite <- app_assoc; reflexivity |].
      split; [repeat constructor |].
      split; [cbn; lia |].
      split; [exact Hacc |]. split; [exists []; reflexivity |].
      exists w. exact Hone.
    + apply one_attempt_cases in Hone.
      destruct Hone as [(_ & e & He & _) | (-> & _)]; [discriminate |].
      apply (IH (S a)) in Hrun; [| lia].
      destruct Hrun as (Hlog & evs & Htrace & Hgen & Hchats & Hres).
      cbn in Hlog, Htrace. split; [exact Hlog |].
      exists ([EvReadLog (usedPubs_of (posts_jsonl w)); EvChat (usedPubs_of (posts_jsonl w))] ++ evs).
      split; [rewrite Htrace, <- !app_assoc; reflexivity |].
      split; [repeat constructor; exact Hgen |].
      split; [rewrite chats_app; cbn; lia |].
      destruct r as [walk | e]; cbn [posts_jsonl after_chat] in Hres.
      * destruct Hres as (Hacc & (pre & ->) & Hlast).
        split; [exact Hacc |]. split; [| exact Hlast].
        eexists. rewrite app_assoc. reflexivity.
      * destruct Hres as [(-> & Hk) | Hprop]; [left | right; exact Hprop].
        split; [reflexivity |]. rewrite chats_app. cbn. lia.
    + injection Hrun as <- <-.
      pose proof Hone as Hcase. apply one_attempt_cases in Hcase.
      destruct Hcase as [(-> & e' & [= <-] & He) | (-> & He)].
      * split; [reflexivity |]. eexists. split; [reflexivity |].
        split; [repeat constructor |]. split; [cbn; lia |].
        right. split; [exact He |]. exists w. exact Hone.
      * split; [reflexivity |]. eexists.
        split; [cbn; rewrite <- app_assoc; reflexivity |].
        split; [repeat constructor |]. split; [cbn; lia |].
        right. split; [exact He |]. exists w. exact Hone.
Qed.

Lemma since_app w w' evs : trace w' = trace w ++ evs -> since w w' = evs.
Proof.
  intros H. unfold since. rewrite H, skipn_app, skipn_all, Nat.sub_diag. reflexivity.
Qed.









(** Claim C3, as amended.  In an attempt of [generateWalk] the pub name of
    the reply is looked up in the used pubs before the reply is validated
    by [formatWalkData].  For a structurally invalid reply: if its pub name
    is not in the used list, the attempt throws the validation error at
    once, after this one call of the collaborator and without a retry; if
    its pub name is in the used list, the attempt is a collision like any
    other and the generator goes on with the next attempt. *)
Theorem membership_before_validation
    (E : env) (k a : nat) (w : world) (walkData : json) (name : value) (e : error) :
  a <= k ->
  reaches_collaborator E w ->
  chat_completions_create E (trace (after_read w)) (usedPubs_of (posts_jsonl w))
    = Fulfilled (Json walkData) ->
  get (Some walkData) "end_pub_name" = Ok name ->
  formatWalkData (ToNumber E) (Date_now E (trace (after_chat w))) walkData = Throw e ->
  (includes (usedPubs_of (posts_jsonl w)) name = false ->
     generateWalk E k a w = (Throw e, after_chat w) /\
     chats (since w (after_chat w)) = 1) /\
  (includes (usedPubs_of (posts_jsonl w)) name = true ->
     generateWalk E k a w = generateWalk E k (S a) (after_chat w)).
Proof.
  intros Ha Hclient Hchat Hname Hinvalid.
  rewrite generateWalk_step by exact Ha.
  rewrite one_attempt_eq. cbv zeta.
  destruct Hclient as (-> & Hclient).
  replace (negb (openaiClient w) && negb (env_set (OPENAI_API_KEY E))) with false
    by (destruct Hclient as [-> | ->]; [reflexivity | now rewrite andb_false_r]).
  rewrite Hchat. unfold JSON_parse. rewrite Hname.
  split; intros ->.
  - rewrite Hinvalid. split; [reflexivity |].
    rewrite (since_app w (after_chat w)
               [EvReadLog (usedPubs_of (posts_jsonl w)); EvChat (usedPubs_of (posts_jsonl w))]).
    + reflexivity.
    + cbn. now rewrite <- app_assoc.
  - reflexivity.
Qed.

(** An incomplete reply for The Anchor while only The Crown is logged:
    one call, then the validation error. *)
Lemma membership_before_validation_witness :
  1 <= 5 /\
  reaches_collaborator unused_incomplete_stub crown_logged /\
  includes (usedPubs_of (posts_jsonl crown_logged)) (Some (JStr "The Anchor")) = false /\
  generateWalk unused_incomplete_stub 5 1 crown_logged =
    (Throw (Error "Generated walk missing required field: area"), after_chat crown_logged) /\
  chats (since crown_logged (after_chat crown_logged)) = 1.
Proof.
  assert (Hclient : reaches_collaborator unused_incomplete_stub crown_logged)
    by (split; [| right]; vm_compute; reflexivity).
  split; [lia |]. split; [exact Hclient |]. split; [vm_compute; reflexivity |].
  refine (proj1 (membership_before_validation unused_incomplete_stub 5 1 crown_logged
                   (incomplete_reply "The Anchor") (Some (JStr "The Anchor"))
                   (Error "Generated walk missing required field: area")
                   _ Hclient _ _ _) _); try (vm_compute; reflexivity).
  lia.
Defined.

(** Claim C3 as worded fails: an incomplete reply whose pub is already
    used is not an error; it is retried, and the second call of the
    collaborator decides the run. *)
Lemma invalid_used_reply_is_retried :
  formatWalkData (ToNumber used_incomplete_stub) "1700000000000" (incomplete_reply "The Crown")
    = Throw (Error "Generated walk missing required field: area") /\
  includes (usedPubs_of (posts_jsonl crown_logged)) (Some (JStr "The Crown")) = true /\
  chat_completions_create used_incomplete_stub (trace (after_read crown_logged))
    (usedPubs_of (posts_jsonl crown_logged)) = Fulfilled (Json (incomplete_reply "The Crown")) /\
  (exists walk w',
     generateWalk used_incomplete_stub 5 1 crown_logged = (Ok walk, w') /\
     get (Some walk) "end_pub_name" = Ok (Some (JStr "The Anchor")) /\
     chats (since crown_logged w') = 2).
Proof.
  split; [vm_compute; reflexivity |].
  split; [vm_compute; reflexivity |].
  split; [vm_compute; reflexivity |].
  eexists. eexists. split; [vm_compute; reflexivity |].
  split; vm_compute; reflexivity.
Qed.

(* ===================================================================== *)
(** ** The Best-of-N selector *)
(* ===================================================================== *)

Lemma generator_runs_length E :
  forall n w, List.length (fst (generator_runs E n w)) = n.
Proof.
  induction n as [| n IH]; intros w; cbn; [reflexivity |].
  destruct (generateWalk E 5 1 w) as [r w1].
  specialize (IH w1). destruct (generator_runs E n w1) as [rs w2].
  cbn in *. now rewrite IH.
Qed.

Lemma generateBestWalk_loop_runs E :
  forall n walks w,
    generateBestWalk_loop E n walks w =
    (Ok (walks ++ successes (fst (generator_runs E n w))),
     snd (generator_runs E n w)).
Proof.
  induction n as [| n IH]; intros walks w; cbn.
  - now rewrite app_nil_r.
  - unfold bind, try_catch, ret.
    destruct (generateWalk E 5 1 w) as [[walk | e] w1]; rewrite IH;
      destruct (generator_runs E n w1) as [rs w2]; cbn.
    + now rewrite <- app_assoc.
    + reflexivity.
Qed.

Lemma first_success_hd rs :
  first_success rs = hd_error (successes rs).
Proof.
  induction rs as [| [walk | e] rest IH]; cbn; auto.
Qed.

Lemma first_success_after_failures (failed : list error) walk rest :
  first_success (map Throw failed ++ Ok walk :: rest) = Some walk.
Proof. induction failed as [| e failed IH]; cbn; auto. Qed.

Lemma first_success_none rs :
  (forall r, In r rs -> exists e, r = Throw e) -> first_success rs = None.
Proof.
  induction rs as [| [walk | e] rest IH]; cbn; intros H; auto.
  destruct (H (Ok walk)) as (e & He); [now left | discriminate].
Qed.

Lemma generateBestWalk_runs E n w :
  generateBestWalk E n w =
    (match first_success (fst (generator_runs E n w)) with
     | Some walk => Ok walk
     | None => Throw no_walks
     end,
     snd (generator_runs E n w)).
Proof.
  unfold generateBestWalk, bind. rewrite generateBestWalk_loop_runs. cbn [app].
  rewrite first_success_hd.
  destruct (successes (fst (generator_runs E n w))); reflexivity.
Qed.

(** Claim C4.  [generateBestWalk(n)] makes the [n] runs of the generator
    one after the other, whatever each of them returns or throws (the
    world it leaves is the one left by the [n]-th run).  It returns the
    walk of the first run that succeeded, so the errors of the runs that
    failed before it are not propagated; when every run throws, it throws
    the all-options-exhausted error. *)
Theorem generateBestWalk_contract (E : env) (n : nat) (w : world) :
  List.length (fst (generator_runs E n w)) = n /\
  generateBestWalk E n w =
    (match first_success (fst (generator_runs E n w)) with
     | Some walk => Ok walk
     | None => Throw no_walks
     end,
     snd (generator_runs E n w)) /\
  (forall (failed : list error) walk rest,
     fst (generator_runs E n w) = map Throw failed ++ Ok walk :: rest ->
     fst (generateBestWalk E n w) = Ok walk) /\
  ((forall r, In r (fst (generator_runs E n w)) -> exists e, r = Throw e) ->
   fst (generateBestWalk E n w) = Throw no_walks).
Proof.
  pose proof (generateBestWalk_runs E n w) as Hrun.
  split; [apply generator_runs_length |]. split; [exact Hrun |]. split.
  - intros failed walk rest Hrs. rewrite Hrun, Hrs, first_success_after_failures.
    reflexivity.
  - intros Hall. rewrite Hrun, first_success_none by exact Hall. reflexivity.
Qed.

(** The two examples of the specification: of three runs the first two
    throw and the third succeeds; of two runs both throw. *)
Lemma generateBestWalk_contract_witness :
  (exists walk rest,
     fst (generator_runs flaky_stub 3 crown_logged)
       = map Throw [External "503 Service Unavailable"; External "503 Service Unavailable"]
         ++ Ok walk :: rest /\
     fst (generateBestWalk flaky_stub 3 crown_logged) = Ok walk /\
     get (Some walk) "end_pub_name" = Ok (Some (JStr "The Anchor"))) /\
  (forall r, In r (fst (generator_runs flaky_stub 2 crown_logged)) -> exists e, r = Throw e) /\
  fst (generateBestWalk flaky_stub 2 crown_logged) = Throw no_walks.
Proof.
  split; [| split].
  - destruct (generateBestWalk_contract flaky_stub 3 crown_logged) as (_ & _ & Hfirst & _).
    eexists. eexists.
    split; [vm_compute; reflexivity |].
    split; [| vm_compute; reflexivity].
    apply (Hfirst [External "503 Service Unavailable"; External "503 Service Unavailable"]
             _ []).
    vm_compute. reflexivity.
  - vm_compute. intros r [<- | [<- | []]]; eauto.
  - destruct (generateBestWalk_contract flaky_stub 2 crown_logged) as (_ & _ & _ & Hnone).
    apply Hnone. vm_compute. intros r [<- | [<- | []]]; eauto.
Defined.

(* ===================================================================== *)
(** ** The pipeline, step by step *)
(* ===================================================================== *)

Lemma generateBestWalk_one E w :
  generateBestWalk E 1 w =
  match generateWalk E 5 1 w with
  | (Ok walk, w1) => (Ok walk, w1)
  | (Throw _, w1) => (Throw no_walks, w1)
  end.
Proof.
  rewrite generateBestWalk_runs.
  cbn. destruct (generateWalk E 5 1 w) as [[walk | e] w1]; reflexivity.
Qed.

Lemma is_content_event_quiet evs :
  Forall (fun ev => is_content_event ev = true) evs ->
  Forall (fun ev => is_append ev = false) evs /\
  Forall (fun ev => is_publish ev = false) evs /\
  ~ In EvWriteCaption evs.
Proof.
  induction 1 as [| ev evs Hev _ (IH1 & IH2 & IH3)]; [repeat split; auto |].
  repeat split; try constructor; auto; try (destruct ev; cbn in *; congruence).
  intros [-> | Hin]; [discriminate | contradiction].
Qed.

Lemma generate_content_cases E w r w1 :
  generate_content E w = (r, w1) ->
  posts_jsonl w1 = posts_jsonl w /\
  exists evs,
    trace w1 = trace w ++ evs /\
    Forall (fun ev => is_content_event ev = true) evs /\
    match r with
    | Ok (walk, caption, image) =>
        accepted (usedPubs_of (posts_jsonl w)) walk /\
        exists pre, evs = pre ++ [EvReadLog (usedPubs_of (posts_jsonl w));
                                  EvChat (usedPubs_of (posts_jsonl w));
                                  EvImage]
    | Throw _ => True
    end.
Proof.
  unfold generate_content, bind. rewrite generateBestWalk_one.
  destruct (generateWalk E 5 1 w) as [[walk | e] w0] eqn:Hgen;
    destruct (generateWalk_spec E 5 5 1 w _ _ eq_refl Hgen)
      as (Hlog & evs & Htrace & Hevs & _ & Hres).
  2:{ intros [= <- <-]. split; [exact Hlog |]. exists evs.
      repeat split; auto.
      eapply Forall_impl; [| exact Hevs]. now intros [] H. }
  destruct Hres as (Hacc & (pre & Hpre) & _).
  assert (Hcontent : Forall (fun ev => is_content_event ev = true) evs)
    by (eapply Forall_impl; [| exact Hevs]; now intros [] H).
  unfold fetchWeatherSummary, bind, lift, history, ret.
  destruct (get (Some walk) "location_coords") as [coords | e].
  2:{ intros [= <- <-]. split; [exact Hlog |]. exists evs. repeat split; auto. }
  destruct (get coords "lat") as [lat | e].
  2:{ intros [= <- <-]. split; [exact Hlog |]. exists evs. repeat split; auto. }
  destruct (buildCaption E walk _) as [caption | e].
  2:{ intros [= <- <-]. split; [exact Hlog |]. exists evs. repeat split; auto. }
  unfold generateIllustration_call, bind, history, emit, await, ret, throw.
  destruct (generateIllustration E _ _ _) as [image | reason].
  - intros [= <- <-]. split; [exact Hlog |]. exists (evs ++ [EvImage]).
    cbn. rewrite Htrace, <- app_assoc. split; [reflexivity |].
    split; [apply Forall_app; split; [exact Hcontent | repeat constructor] |].
    split; [exact Hacc |]. exists pre. rewrite Hpre, <- app_assoc. reflexivity.
  - intros [= <- <-]. split; [exact Hlog |]. exists (evs ++ [EvImage]).
    cbn. rewrite Htrace, <- app_assoc. split; [reflexivity |].
    split; [apply Forall_app; split; [exact Hcontent | repeat constructor] | exact I].
Qed.

Lemma try_rethrow {A} (c : M A) w :
  try_catch c (fun error => throw error) w = c w.
Proof. unfold try_catch, throw. destruct (c w) as [[a | e] w']; reflexivity. Qed.

Lemma publishSundayWalkPost_eq E w :
  publishSundayWalkPost E w =
  match generate_content E w with
  | (Throw e, w1) => (Throw e, w1)
  | (Ok (walk, caption, image), w1) =>
      if is_development E
      then save_for_review E walk caption image w1
      else publish_and_log E walk caption image w1
  end.
Proof.
  unfold publishSundayWalkPost. rewrite try_rethrow. unfold bind.
  destruct (generate_content E w) as [[[[walk caption] image] | e] w1];
    [destruct (is_development E) |]; reflexivity.
Qed.

Lemma postToInstagram_cases E imageUrl imagePath caption w r w' :
  postToInstagram E imageUrl imagePath caption w = (r, w') ->
  posts_jsonl w' = posts_jsonl w /\
  ((r = Throw no_credentials /\ w' = w) \/
   (exists reason, r = Throw (External reason) /\ w' = record EvCreateContainer w) \/
   (exists reason, r = Throw (External reason) /\
                   w' = record (EvMediaPublish false) (record EvCreateContainer w)) \/
   (exists data, r = Ok data /\
                 w' = record (EvMediaPublish true) (record EvCreateContainer w))).
Proof.
  unfold postToInstagram.
  destruct (negb (env_set (INSTAGRAM_ACCESS_TOKEN E)) || negb (env_set (INSTAGRAM_ACCOUNT_ID E))).
  { intros [= <- <-]. split; [reflexivity |]. left. split; reflexivity. }
  rewrite try_rethrow.
  unfold bind, createMediaContainer_call, bind, history, emit, await, ret, throw,
    publishMediaContainer_call.
  destruct (createMediaContainer E (trace w) imageUrl caption) as [containerId | reason].
  2:{ intros [= <- <-]. split; [reflexivity |]. right. left. eauto. }
  destruct (publishMediaContainer E _ containerId) as [data | reason].
  - intros [= <- <-]. split; [reflexivity |]. right. right. right. eauto.
  - intros [= <- <-]. split; [reflexivity |]. right. right. left. eauto.
Qed.

Lemma logPost_cases E walk result w r w' :
  logPost E walk result w = (r, w') ->
  (w' = w /\
   ((exists e, r = Throw e) \/ (r = Ok tt /\ can_append (posts_jsonl w) = false))) \/
  (exists line,
     r = Ok tt /\
     appendFile (posts_jsonl w) line = Ok (posts_jsonl w') /\
     openaiClient w' = openaiClient w /\
     trace w' = trace w ++ [EvAppendLog line] /\
     is_record line /\
     (forall members, walk = Some (JObj members) ->
        pubName_of_line line = option_map written (lookup "end_pub_name" members))).
Proof.
  unfold logPost, bind, history, lift.
  destruct (get walk "id") as [walkId | e]; [| intros [= <- <-]; left; eauto].
  destruct (get walk "walk_title") as [walkTitle | e]; [| intros [= <- <-]; left; eauto].
  destruct (get walk "slug") as [slug | e]; [| intros [= <- <-]; left; eauto].
  destruct (get walk "end_pub_name") as [pubName | e] eqn:Hpub;
    [| intros [= <- <-]; left; eauto].
  destruct (get walk "area_short") as [area | e]; [| intros [= <- <-]; left; eauto].
  destruct (get result "id") as [instagramPostId | e]; [| intros [= <- <-]; left; eauto].
  destruct (appendFile (posts_jsonl w) _) as [f' | e] eqn:Happend.
  2:{ intros [= <- <-]. left. split; [reflexivity |]. right. split; [reflexivity |].
      destruct (posts_jsonl w) as [[] | | readable [] lines rest]; cbn in Happend |- *;
        congruence. }
  intros [= <- <-]. right. eexists. split; [reflexivity |].
  split; [exact Happend |]. split; [reflexivity |]. split; [reflexivity |].
  split; [eexists; reflexivity |].
  intros members ->. unfold get in Hpub. injection Hpub as <-.
  unfold JSON_stringify, pubName_of_line.
  destruct walkId, walkTitle, slug, (lookup "end_pub_name" members), area, instagramPostId;
    reflexivity.
Qed.

Lemma save_for_review_cases E walk caption image w r w' :
  save_for_review E walk caption image w = (r, w') ->
  w' = record EvWriteCaption w /\
  (forall title,
     writeFile_caption E (trace w) (replace_png (localPath image)) caption = Fulfilled tt ->
     get (Some walk) "walk_title" = Ok title ->
     r = Ok (mkOutcome true "development" title (Some (JStr (localPath image))) undefined)).
Proof.
  unfold save_for_review, bind, history, emit, await, lift, ret, throw.
  destruct (writeFile_caption E (trace w) _ caption) as [[] | reason].
  - destruct (get (Some walk) "walk_title") as [title | e]; intros [= <- <-];
      (split; [reflexivity |]); intros title' _ [= <-]; reflexivity.
  - intros [= <- <-]. split; [reflexivity |]. discriminate.
Qed.

Lemma publish_and_log_cases E walk caption image w r w' :
  publish_and_log E walk caption image w = (r, w') ->
  match postToInstagram E (url image) (localPath image) caption w with
  | (Throw e, w2) => r = Throw e /\ w' = w2
  | (Ok result, w2) =>
      match logPost E (Some walk) result w2 with
      | (Throw e, w3) => r = Throw e /\ w' = w3
      | (Ok _, w3) =>
          w' = w3 /\
          (forall title id,
             get (Some walk) "walk_title" = Ok title -> get result "id" = Ok id ->
             r = Ok (mkOutcome true "production" title undefined id))
      end
  end.
Proof.
  unfold publish_and_log, bind.
  destruct (postToInstagram E _ _ caption w) as [[result | e] w2];
    [| intros [= <- <-]; split; reflexivity].
  destruct (logPost E (Some walk) result w2) as [[[] | e] w3];
    [| intros [= <- <-]; split; reflexivity].
  unfold lift, ret.
  destruct (get (Some walk) "walk_title") as [title | e];
    [| intros [= <- <-]; split; [reflexivity | discriminate]].
  destruct (get result "id") as [id | e];
    intros [= <- <-]; (split; [reflexivity |]).
  - intros title' id' [= <-] [= <-]. reflexivity.
  - discriminate.
Qed.

(** What a run of the pipeline may do to the log and the trace. *)
Lemma run_cases E w :
  exists evs,
    trace (snd (publishSundayWalkPost E w)) = trace w ++ evs /\
    ((posts_jsonl (snd (publishSundayWalkPost E w)) = posts_jsonl w /\
      Forall (fun ev => is_append ev = false) evs /\
      (is_development E = true -> Forall (fun ev => is_publish ev = false) evs)) \/
     (exists walk caption image w1 result w2 line pre members,
        is_development E = false /\
        generate_content E w = (Ok (walk, caption, image), w1) /\
        postToInstagram E (url image) (localPath image) caption w1 = (Ok result, w2) /\
        appendFile (posts_jsonl w) line = Ok (posts_jsonl (snd (publishSundayWalkPost E w))) /\
        is_record line /\
        walk = JObj members /\
        pubName_of_line line = option_map written (lookup "end_pub_name" members) /\
        includes (usedPubs_of (posts_jsonl w)) (lookup "end_pub_name" members) = false /\
        truthy (lookup "end_pub_name" members) = true /\
        evs = pre ++ [EvReadLog (usedPubs_of (posts_jsonl w));
                      EvChat (usedPubs_of (posts_jsonl w));
                      EvImage; EvCreateContainer; EvMediaPublish true;
                      EvAppendLog line] /\
        Forall (fun ev => is_content_event ev = true) pre)).
Proof.
  rewrite publishSundayWalkPost_eq.
  destruct (generate_content E w) as [[[[walk caption] image] | e] w1] eqn:Hcontent;
    destruct (generate_content_cases E w _ _ Hcontent)
      as (Hlog & evs & Htrace & Hevs & Hres);
    destruct (is_content_event_quiet evs Hevs) as (Happ & Hpub & _).
  2:{ exists evs. split; [exact Htrace |]. left. auto. }
  destruct Hres as ((members & -> & Hinc & Htruthy) & pre & Hpre).
  destruct (is_development E) eqn:Hdev.
  - destruct (save_for_review E (JObj members) caption image w1) as [r w'] eqn:Hsave.
    apply save_for_review_cases in Hsave as (-> & _).
    exists (evs ++ [EvWriteCaption]). cbn. rewrite Htrace, <- app_assoc.
    split; [reflexivity |]. left. split; [exact Hlog |].
    split; [| intros _]; apply Forall_app; split; auto; repeat constructor.
  - destruct (publish_and_log E (JObj members) caption image w1) as [r w'] eqn:Hprod.
    apply publish_and_log_cases in Hprod.
    destruct (postToInstagram E _ _ caption w1) as [[result | e] w2] eqn:Hpost.
    2:{ destruct Hprod as (_ & ->).
        apply postToInstagram_cases in Hpost as (Hlog2 & Hcase).
        cbn [snd]. destruct Hcase as [(_ & ->) | [(? & _ & ->) | [(? & _ & ->) | (? & _ & ->)]]].
        - exists evs. split; [exact Htrace |]. left. repeat split; auto.
        - exists (evs ++ [EvCreateContainer]). cbn. rewrite Htrace, <- app_assoc.
          split; [reflexivity |]. left. split; [exact Hlog |].
          split; [| discriminate]. apply Forall_app; split; auto; repeat constructor.
        - exists (evs ++ [EvCreateContainer; EvMediaPublish false]).
          cbn. rewrite Htrace, <- !app_assoc.
          split; [reflexivity |]. left. split; [exact Hlog |].
          split; [| discriminate]. apply Forall_app; split; auto; repeat constructor.
        - exists (evs ++ [EvCreateContainer; EvMediaPublish true]).
          cbn. rewrite Htrace, <- !app_assoc.
          split; [reflexivity |]. left. split; [exact Hlog |].
          split; [| discriminate]. apply Forall_app; split; auto; repeat constructor. }
    pose proof Hpost as Hpost'.
    apply postToInstagram_cases in Hpost'
      as (Hlog2 & [(? & _) | [(? & ? & _) | [(? & ? & _) | (data & [= <-] & ->)]]]);
      try discriminate.
    assert (Hw' : w' = snd (logPost E (Some (JObj members)) result
                           (record (EvMediaPublish true) (record EvCreateContainer w1)))).
    { destruct (logPost E _ result _) as [[[] | e] w3]; cbn; tauto. }
    clear Hprod. cbn [snd]. subst w'.
    destruct (logPost E (Some (JObj members)) result
                (record (EvMediaPublish true) (record EvCreateContainer w1)))
      as [r3 w3] eqn:Hlogpost.
    cbn [snd].
    apply logPost_cases in Hlogpost
      as [(-> & _) | (line & _ & Happend & _ & Htrace3 & Hrec & Hname)].
    + exists (evs ++ [EvCreateContainer; EvMediaPublish true]).
      cbn. rewrite Htrace, <- !app_assoc.
      split; [reflexivity |]. left. split; [exact Hlog |].
      split; [| discriminate]. apply Forall_app; split; auto; repeat constructor.
    + exists (evs ++ [EvCreateContainer; EvMediaPublish true; EvAppendLog line]).
      rewrite Htrace3. cbn. rewrite Htrace, <- !app_assoc.
      split; [reflexivity |]. right.
      exists (JObj members), caption, image, w1, result,
        (record (EvMediaPublish true) (record EvCreateContainer w1)), line, pre, members.
      cbn [posts_jsonl record] in Happend. rewrite Hlog in Happend.
      repeat split; auto.
      * rewrite Hpre, <- app_assoc. reflexivity.
      * rewrite Hpre in Hevs. apply Forall_app in Hevs. tauto.
Qed.

Lemma can_append_appendFile f line :
  can_append f = true <-> exists f', appendFile f line = Ok f'.
Proof.
  destruct f as [[] | | readable [] lines rest]; cbn; split; eauto;
    try discriminate; intros (f' & Hf'); discriminate.
Qed.

Lemma plain_can_append f : plain f -> can_append f = true.
Proof. intros [-> | (lines & ->)]; reflexivity. Qed.

Lemma logPost_appends E members result id w :
  get result "id" = Ok id ->
  can_append (posts_jsonl w) = true ->
  exists line f',
    appendFile (posts_jsonl w) line = Ok f' /\
    logPost E (Some (JObj members)) result w =
      (Ok tt, mkWorld f' (openaiClient w) (trace w ++ [EvAppendLog line])).
Proof.
  intros Hid Hfile. unfold logPost, bind, history, lift.
  unfold get at 1 2 3 4 5. rewrite Hid.
  match goal with
  | |- context [appendFile ?f ?l] =>
      destruct (proj1 (can_append_appendFile f l) Hfile) as (f' & Happend);
        exists l, f'; rewrite Happend
  end.
  split; reflexivity.
Qed.

Lemma appendFile_lines f line f' :
  plain f ->
  appendFile f line = Ok f' ->
  f' = File (log_lines f ++ [line]).
Proof.
  intros [-> | (lines & ->)]; cbn; now intros [= <-].
Qed.

Lemma logPost_entry E members result id w :
  get result "id" = Ok id ->
  plain (posts_jsonl w) ->
  exists line,
    is_record line /\
    pubName_of_line line = option_map written (lookup "end_pub_name" members) /\
    logPost E (Some (JObj members)) result w =
      (Ok tt, mkWorld (File (log_lines (posts_jsonl w) ++ [line])) (openaiClient w)
                (trace w ++ [EvAppendLog line])).
Proof.
  intros Hid Hfile.
  destruct (logPost_appends E members result id w Hid (plain_can_append _ Hfile))
    as (line & f' & Happend & Hrun).
  pose proof Hrun as Hcase. apply logPost_cases in Hcase
    as [(Hw & _) | (line' & _ & _ & _ & Htrace & Hrec & Hname)].
  - apply (f_equal trace) in Hw. cbn in Hw.
    apply (f_equal (@List.length event)) in Hw. rewrite length_app in Hw. cbn in Hw. lia.
  - cbn [trace] in Htrace. apply app_inv_head in Htrace. injection Htrace as <-.
    apply (appendFile_lines _ _ _ Hfile) in Happend as ->.
    exists line. repeat split; auto.
Qed.

Lemma is_development_iff E :
  is_development E = true <-> NODE_ENV E = Some "development".
Proof.
  unfold is_development. destruct (NODE_ENV E) as [s |]; [| split; discriminate].
  rewrite String.eqb_eq. split; congruence.
Qed.

(* ===================================================================== *)
(** ** The pipeline: publishing, logging, modes *)
(* ===================================================================== *)

(** Claim C5.  In production mode, when walk, weather, caption and image
    have been produced and [postToInstagram] throws, the run throws that
    same error, the Post Log is as it was and no line has been appended.
    In any run, a line is appended to the log only right after a
    media_publish call that succeeded, and at most once. *)
Theorem publish_failure_writes_nothing (E : env) (w : world) :
  (forall walk caption image w1 e w2,
     is_development E = false ->
     generate_content E w = (Ok (walk, caption, image), w1) ->
     postToInstagram E (url image) (localPath image) caption w1 = (Throw e, w2) ->
     publishSundayWalkPost E w = (Throw e, w2) /\
     posts_jsonl w2 = posts_jsonl w /\
     Forall (fun ev => is_append ev = false) (since w w2)) /\
  (forall line,
     In (EvAppendLog line) (since w (snd (publishSundayWalkPost E w))) ->
     exists pre,
       since w (snd (publishSundayWalkPost E w))
         = pre ++ [EvMediaPublish true; EvAppendLog line] /\
       Forall (fun ev => is_append ev = false) pre).
Proof.
  split.
  - intros walk caption image w1 e w2 Hdev Hcontent Hpost.
    assert (Hrun : publishSundayWalkPost E w = (Throw e, w2)).
    { rewrite publishSundayWalkPost_eq, Hcontent, Hdev.
      unfold publish_and_log, bind. rewrite Hpost. reflexivity. }
    split; [exact Hrun |].
    destruct (run_cases E w) as (evs & Htrace & Hcase).
    rewrite Hrun in Htrace, Hcase. cbn [snd] in Htrace, Hcase.
    rewrite (since_app _ _ _ Htrace).
    destruct Hcase as [(Hlog & Happ & _) | Happend]; [split; assumption |].
    destruct Happend as (walk' & caption' & image' & w1' & result & w2' & line & pre
                         & members & _ & Hcontent' & Hpost' & _).
    rewrite Hcontent in Hcontent'. injection Hcontent' as <- <- <- <-.
    rewrite Hpost in Hpost'. discriminate.
  - intros line Hin.
    destruct (run_cases E w) as (evs & Htrace & Hcase).
    rewrite (since_app _ _ _ Htrace) in *.
    destruct Hcase as [(_ & Happ & _) | Happend].
    + rewrite Forall_forall in Happ. apply Happ in Hin. discriminate.
    + destruct Happend as (walk & caption & image & w1 & result & w2 & line' & pre
                           & members & _ & _ & _ & _ & _ & _ & _ & _ & _ & -> & Hpre).
      destruct (is_content_event_quiet pre Hpre) as (Hpre_app & _).
      apply in_app_or in Hin as [Hin | Hin].
      * rewrite Forall_forall in Hpre_app. apply Hpre_app in Hin. discriminate.
      * cbn in Hin.
        destruct Hin as [H | [H | [H | [H | [H | [H | []]]]]]]; try discriminate.
        injection H as ->.
        exists (pre ++ [EvReadLog (usedPubs_of (posts_jsonl w));
                        EvChat (usedPubs_of (posts_jsonl w)); EvImage; EvCreateContainer]).
        split; [now rewrite <- app_assoc |].
        apply Forall_app; split; [exact Hpre_app | repeat constructor].
Qed.

(** A production run whose publish call is refused by the platform. *)
Lemma publish_failure_writes_nothing_witness :
  is_development failing_publish_stub = false /\
  exists walk caption image w1 w2,
    generate_content failing_publish_stub crown_logged = (Ok (walk, caption, image), w1) /\
    postToInstagram failing_publish_stub (url image) (localPath image) caption w1
      = (Throw (External "OAuthException"), w2) /\
    publishSundayWalkPost failing_publish_stub crown_logged
      = (Throw (External "OAuthException"), w2) /\
    posts_jsonl w2 = posts_jsonl crown_logged /\
    Forall (fun ev => is_append ev = false) (since crown_logged w2).
Proof.
  assert (Hdev : is_development failing_publish_stub = false) by reflexivity.
  split; [exact Hdev |].
  destruct (generate_content failing_publish_stub crown_logged)
    as [[[[walk caption] image] | e] w1] eqn:Hcontent;
    [| vm_compute in Hcontent; discriminate].
  destruct (postToInstagram failing_publish_stub (url image) (localPath image) caption w1)
    as [[result | e] w2] eqn:Hpost.
  { vm_compute in Hcontent. injection Hcontent as <- <- <- <-.
    vm_compute in Hpost. discriminate. }
  assert (He : e = External "OAuthException").
  { vm_compute in Hcontent. injection Hcontent as <- <- <- <-.
    vm_compute in Hpost. now injection Hpost as <- _. }
  subst e.
  exists walk, caption, image, w1, w2.
  split; [reflexivity |]. split; [exact Hpost |].
  exact (proj1 (publish_failure_writes_nothing failing_publish_stub crown_logged)
           walk caption image w1 _ w2 Hdev Hcontent Hpost).
Defined.

(** Claim C6.  With NODE_ENV equal to development, a run leaves the Post
    Log unchanged, appends no line and makes no call to the publishing
    platform; when walk, weather, caption and image were produced and the
    caption file was saved, it returns the success record of the
    development mode. *)
Theorem development_never_logs (E : env) (w : world) :
  NODE_ENV E = Some "development" ->
  posts_jsonl (snd (publishSundayWalkPost E w)) = posts_jsonl w /\
  Forall (fun ev => is_append ev = false) (since w (snd (publishSundayWalkPost E w))) /\
  Forall (fun ev => is_publish ev = false) (since w (snd (publishSundayWalkPost E w))) /\
  (forall walk caption image w1,
     generate_content E w = (Ok (walk, caption, image), w1) ->
     writeFile_caption E (trace w1) (replace_png (localPath image)) caption = Fulfilled tt ->
     exists title,
       get (Some walk) "walk_title" = Ok title /\
       fst (publishSundayWalkPost E w) =
         Ok (mkOutcome true "development" title (Some (JStr (localPath image))) undefined)).
Proof.
  intros Hdev. apply is_development_iff in Hdev.
  destruct (run_cases E w) as (evs & Htrace & Hcase).
  rewrite (since_app _ _ _ Htrace).
  destruct Hcase as [(Hlog & Happ & Hpub) | Happend].
  2:{ destruct Happend as (? & ? & ? & ? & ? & ? & ? & ? & ? & Hprod & _). congruence. }
  split; [exact Hlog |]. split; [exact Happ |]. split; [exact (Hpub Hdev) |].
  intros walk caption image w1 Hcontent Hwrite.
  destruct (generate_content_cases E w _ _ Hcontent)
    as (_ & _ & _ & _ & (members & -> & _) & _).
  exists (lookup "walk_title" members). split; [reflexivity |].
  rewrite publishSundayWalkPost_eq, Hcontent, Hdev.
  destruct (save_for_review E (JObj members) caption image w1) as [r w'] eqn:Hsave.
  apply save_for_review_cases in Hsave as (_ & Hr).
  cbn [fst]. now apply Hr.
Qed.

(** A fully successful run in development mode, with The Crown logged. *)
Lemma development_never_logs_witness :
  NODE_ENV development_stub = Some "development" /\
  posts_jsonl (snd (publishSundayWalkPost development_stub crown_logged))
    = posts_jsonl crown_logged /\
  Forall (fun ev => is_append ev = false)
    (since crown_logged (snd (publishSundayWalkPost development_stub crown_logged))) /\
  Forall (fun ev => is_publish ev = false)
    (since crown_logged (snd (publishSundayWalkPost development_stub crown_logged))) /\
  fst (publishSundayWalkPost development_stub crown_logged) =
    Ok (mkOutcome true "development" (Some (JStr "Heath to Hearth"))
          (Some (JStr "generated/walk-1.png")) undefined).
Proof.
  assert (Hdev : NODE_ENV development_stub = Some "development") by reflexivity.
  split; [exact Hdev |].
  destruct (development_never_logs development_stub crown_logged Hdev)
    as (Hlog & Happ & Hpub & _).
  split; [exact Hlog |]. split; [exact Happ |]. split; [exact Hpub |].
  vm_compute. reflexivity.
Defined.

Lemma publish_and_log_trace E walk caption image w r w' :
  publish_and_log E walk caption image w = (r, w') ->
  exists evs,
    trace w' = trace w ++ evs /\
    Forall (fun ev => is_publish ev = true \/ is_append ev = true) evs /\
    (env_set (INSTAGRAM_ACCESS_TOKEN E) = true ->
     env_set (INSTAGRAM_ACCOUNT_ID E) = true -> In EvCreateContainer evs).
Proof.
  intros Hrun. apply publish_and_log_cases in Hrun.
  destruct (postToInstagram E _ _ caption w) as [[result | e] w2] eqn:Hpost.
  - pose proof Hpost as Hcase. apply postToInstagram_cases in Hcase
      as (_ & [(? & _) | [(? & ? & _) | [(? & ? & _) | (data & [= <-] & ->)]]]);
      try discriminate.
    destruct (logPost E (Some walk) result _) as [r3 w3] eqn:Hlog.
    assert (Hw' : w' = w3) by (destruct r3; tauto). subst w3. clear Hrun.
    apply logPost_cases in Hlog
      as [(-> & _) | (line & _ & _ & _ & Htrace & _)].
    + exists [EvCreateContainer; EvMediaPublish true]. cbn. rewrite <- app_assoc.
      split; [reflexivity |]. split; [each_event |]. cbn; auto.
    + exists [EvCreateContainer; EvMediaPublish true; EvAppendLog line].
      rewrite Htrace. cbn. rewrite <- !app_assoc.
      split; [reflexivity |]. split; [each_event |]. cbn; auto.
  - destruct Hrun as (_ & ->).
    pose proof Hpost as Hcase. unfold postToInstagram in Hpost.
    apply postToInstagram_cases in Hcase
      as (_ & [(_ & ->) | [(? & _ & ->) | [(? & _ & ->) | (? & ? & _)]]]);
      try discriminate.
    + exists []. rewrite app_nil_r. split; [reflexivity |]. split; [constructor |].
      intros Htoken Haccount. rewrite Htoken, Haccount in Hpost. cbn in Hpost.
      rewrite try_rethrow in Hpost.
      unfold bind, createMediaContainer_call, bind, history, emit, await, ret, throw,
        publishMediaContainer_call in Hpost.
      destruct (createMediaContainer E (trace w) (url image) caption) as [cid | reason].
      * destruct (publishMediaContainer E _ cid); injection Hpost as _ Hw;
          apply (f_equal trace) in Hw; cbn in Hw;
          apply (f_equal (@List.length event)) in Hw;
          rewrite !length_app in Hw; cbn in Hw; lia.
      * injection Hpost as _ Hw. apply (f_equal trace) in Hw; cbn in Hw.
        apply (f_equal (@List.length event)) in Hw.
        rewrite !length_app in Hw; cbn in Hw; lia.
    + exists [EvCreateContainer]. cbn.
      split; [reflexivity |]. split; [each_event |]. cbn; auto.
    + exists [EvCreateContainer; EvMediaPublish false]. cbn. rewrite <- app_assoc.
      split; [reflexivity |]. split; [each_event |]. cbn; auto.
Qed.

(** Claim C9.  Once walk, weather, caption and image are produced, the run
    takes the development branch (caption saved, no publishing, no append)
    when NODE_ENV is exactly the string development, and the production
    branch for every other value, unset included: [postToInstagram] is
    called (with credentials set, the media container is requested), and
    when it returns a result whose id can be read, with a log that can be
    written, one line is appended to the Post Log and the production
    record is returned. *)
Theorem NODE_ENV_gate
    (E : env) (w w1 : world) (walk : json) (caption : string) (image : illustration) :
  generate_content E w = (Ok (walk, caption, image), w1) ->
  (NODE_ENV E = Some "development" ->
     publishSundayWalkPost E w = save_for_review E walk caption image w1 /\
     snd (publishSundayWalkPost E w) = record EvWriteCaption w1 /\
     Forall (fun ev => is_publish ev = false) (since w (snd (publishSundayWalkPost E w))) /\
     Forall (fun ev => is_append ev = false) (since w (snd (publishSundayWalkPost E w)))) /\
  (NODE_ENV E <> Some "development" ->
     publishSundayWalkPost E w = publish_and_log E walk caption image w1 /\
     ~ In EvWriteCaption (since w (snd (publishSundayWalkPost E w))) /\
     (env_set (INSTAGRAM_ACCESS_TOKEN E) = true ->
      env_set (INSTAGRAM_ACCOUNT_ID E) = true ->
      In EvCreateContainer (since w (snd (publishSundayWalkPost E w)))) /\
     (forall result w2 id,
        postToInstagram E (url image) (localPath image) caption w1 = (Ok result, w2) ->
        get result "id" = Ok id ->
        can_append (posts_jsonl w) = true ->
        exists line title pre,
          appendFile (posts_jsonl w) line
            = Ok (posts_jsonl (snd (publishSundayWalkPost E w))) /\
          since w (snd (publishSundayWalkPost E w))
            = pre ++ [EvCreateContainer; EvMediaPublish true; EvAppendLog line] /\
          fst (publishSundayWalkPost E w)
            = Ok (mkOutcome true "production" title undefined id))).
Proof.
  intros Hcontent.
  destruct (generate_content_cases E w _ _ Hcontent)
    as (Hlog & evs & Htrace & Hevs & (members & -> & _) & _).
  destruct (is_content_event_quiet evs Hevs) as (Happ & Hpub & Hwrite).
  split.
  - intros Hdev. apply is_development_iff in Hdev.
    assert (Hrun : publishSundayWalkPost E w
                   = save_for_review E (JObj members) caption image w1)
      by (now rewrite publishSundayWalkPost_eq, Hcontent, Hdev).
    split; [exact Hrun |]. rewrite Hrun.
    destruct (save_for_review E (JObj members) caption image w1) as [r w'] eqn:Hsave.
    apply save_for_review_cases in Hsave as (-> & _). cbn [snd].
    split; [reflexivity |].
    rewrite (since_app w (record EvWriteCaption w1) (evs ++ [EvWriteCaption]))
      by (cbn; now rewrite Htrace, <- app_assoc).
    split; apply Forall_app; split; auto; repeat constructor.
  - intros Hprod.
    assert (Hdev : is_development E = false).
    { destruct (is_development E) eqn:H; [| reflexivity].
      apply is_development_iff in H. contradiction. }
    assert (Hrun : publishSundayWalkPost E w
                   = publish_and_log E (JObj members) caption image w1)
      by (now rewrite publishSundayWalkPost_eq, Hcontent, Hdev).
    split; [exact Hrun |]. rewrite Hrun.
    destruct (publish_and_log E (JObj members) caption image w1) as [r w'] eqn:Hpl.
    cbn [fst snd].
    destruct (publish_and_log_trace _ _ _ _ _ _ _ Hpl) as (pevs & Hptrace & Hpevs & Hcreate).
    rewrite (since_app w w' (evs ++ pevs)) by (now rewrite Hptrace, Htrace, <- app_assoc).
    split; [| split].
    + intros Hin. apply in_app_or in Hin as [Hin | Hin]; [contradiction |].
      rewrite Forall_forall in Hpevs. apply Hpevs in Hin. cbn in Hin.
      destruct Hin; discriminate.
    + intros Htoken Haccount. apply in_or_app. right. auto.
    + intros result w2 id Hpost Hid Hfile.
      pose proof Hpost as Hcase. apply postToInstagram_cases in Hcase
        as (_ & [(? & _) | [(? & ? & _) | [(? & ? & _) | (data & [= <-] & ->)]]]);
        try discriminate.
      destruct (logPost_appends E members result id
                  (record (EvMediaPublish true) (record EvCreateContainer w1)) Hid)
        as (line & f' & Happend & Hlogpost).
      { cbn. now rewrite Hlog. }
      unfold publish_and_log, bind in Hpl. rewrite Hpost, Hlogpost in Hpl.
      unfold lift, ret in Hpl. rewrite Hid in Hpl.
      unfold get in Hpl. injection Hpl as <- <-.
      cbn [posts_jsonl record] in Happend. rewrite Hlog in Happend.
      exists line, (lookup "walk_title" members), evs.
      split; [exact Happend |]. split; [| reflexivity].
      cbn in Hptrace. rewrite <- !app_assoc in Hptrace. cbn in Hptrace.
      apply app_inv_head in Hptrace. now rewrite <- Hptrace.
Qed.

(** NODE_ENV unset, empty, dev or Development is not development; with
    Development the run publishes and logs The Anchor. *)
Lemma NODE_ENV_gate_witness :
  NODE_ENV capital_Development_stub <> Some "development" /\
  NODE_ENV (stub_env None (always "The Anchor") published) <> Some "development" /\
  NODE_ENV (stub_env (Some "") (always "The Anchor") published) <> Some "development" /\
  NODE_ENV (stub_env (Some "dev") (always "The Anchor") published) <> Some "development" /\
  exists walk caption image w1,
    generate_content capital_Development_stub crown_logged = (Ok (walk, caption, image), w1) /\
    publishSundayWalkPost capital_Development_stub crown_logged
      = publish_and_log capital_Development_stub walk caption image w1 /\
    In EvCreateContainer
      (since crown_logged (snd (publishSundayWalkPost capital_Development_stub crown_logged))) /\
    pub_names (posts_jsonl (snd (publishSundayWalkPost capital_Development_stub crown_logged)))
      = ["The Crown"; "The Anchor"].
Proof.
  assert (Hneq : NODE_ENV capital_Development_stub <> Some "development") by discriminate.
  split; [exact Hneq |]. repeat (split; [discriminate |]).
  destruct (generate_content capital_Development_stub crown_logged)
    as [[[[walk caption] image] | e] w1] eqn:Hcontent;
    [| vm_compute in Hcontent; discriminate].
  exists walk, caption, image, w1. split; [reflexivity |].
  destruct (NODE_ENV_gate capital_Development_stub crown_logged w1 walk caption image Hcontent)
    as (_ & Hprod).
  destruct (Hprod Hneq) as (Hrun & _ & Hcreate & _).
  split; [exact Hrun |]. split; [apply Hcreate; reflexivity |].
  vm_compute. reflexivity.
Defined.

(* ===================================================================== *)
(** ** The Post Log and the deduplication gate *)
(* ===================================================================== *)

Lemma same_value_zero_string u p :
  same_value_zero (Some u) (Some (JStr p)) = true <-> u = JStr p.
Proof.
  destruct u; cbn; try (split; [discriminate | congruence]).
  rewrite String.eqb_eq. split; congruence.
Qed.

Lemma includes_string used p :
  includes used (Some (JStr p)) = true <-> In (JStr p) used.
Proof.
  unfold includes. rewrite existsb_exists. split.
  - intros (u & Hin & Heq). apply same_value_zero_string in Heq. now subst.
  - intros Hin. exists (JStr p). split; [exact Hin |]. now apply same_value_zero_string.
Qed.

Lemma includes_app l1 l2 v :
  includes (l1 ++ l2) v = includes l1 v || includes l2 v.
Proof. unfold includes. apply existsb_app. Qed.

(** Removing repetitions does not change which strings are members. *)
Lemma includes_set_of_string p :
  forall arr seen,
    includes seen (Some (JStr p)) || includes (set_of seen arr) (Some (JStr p))
    = includes seen (Some (JStr p)) || includes arr (Some (JStr p)).
Proof.
  induction arr as [| x rest IH]; intros seen; [reflexivity |].
  cbn [set_of].
  change (includes (x :: rest) (Some (JStr p)))
    with (same_value_zero (Some x) (Some (JStr p)) || includes rest (Some (JStr p))).
  destruct (includes seen (Some x)) eqn:Hseen.
  - rewrite IH.
    destruct (same_value_zero (Some x) (Some (JStr p))) eqn:Hx; [| reflexivity].
    apply same_value_zero_string in Hx. subst x. rewrite Hseen. reflexivity.
  - change (includes (x :: set_of (seen ++ [x]) rest) (Some (JStr p)))
      with (same_value_zero (Some x) (Some (JStr p))
            || includes (set_of (seen ++ [x]) rest) (Some (JStr p))).
    specialize (IH (seen ++ [x])). rewrite includes_app in IH.
    change (includes [x] (Some (JStr p)))
      with (same_value_zero (Some x) (Some (JStr p)) || false) in IH.
    rewrite orb_false_r in IH.
    destruct (includes seen (Some (JStr p))),
             (same_value_zero (Some x) (Some (JStr p))); cbn in *; auto.
Qed.

Lemma In_trim_start t lines :
  is_blank t = false -> In t lines -> In t (trim_start lines).
Proof.
  intros Ht. induction lines as [| t0 rest IH]; [contradiction |].
  cbn [trim_start]. destruct (is_blank t0) eqn:Hblank; [| auto].
  intros [-> | Hin]; [congruence | auto].
Qed.

Lemma In_trim_split t lines :
  is_blank t = false -> In t lines -> In t (trim_split lines).
Proof.
  intros Ht Hin. unfold trim_split.
  assert (H : In t (rev (trim_start (rev (trim_start lines))))).
  { rewrite <- in_rev. apply In_trim_start; [exact Ht |].
    rewrite <- in_rev. now apply In_trim_start. }
  destruct (rev (trim_start (rev (trim_start lines)))); [contradiction | exact H].
Qed.

Lemma parse_lines_Garbage lines :
  In Garbage lines -> exists e, parse_lines lines = Throw e.
Proof.
  induction lines as [| t rest IH]; [contradiction |].
  intros [-> | Hin]; cbn; [unfold JSON_parse; eauto |].
  destruct (JSON_parse t); [| eauto].
  destruct (IH Hin) as (e & ->). eauto.
Qed.

Lemma parse_lines_In j lines posts :
  parse_lines lines = Ok posts -> In (Json j) lines -> In j posts.
Proof.
  revert posts. induction lines as [| t rest IH]; [contradiction |].
  intros posts. cbn.
  destruct (JSON_parse t) as [j0 | e] eqn:Ht; [| discriminate].
  destruct (parse_lines rest) as [js | e]; [| discriminate].
  intros [= <-] [-> | Hin].
  - cbn in Ht. injection Ht as <-. now left.
  - right. now apply IH.
Qed.

Lemma pubName_of_posts_null posts :
  In JNull posts -> exists e, pubName_of_posts posts = Throw e.
Proof.
  induction posts as [| p rest IH]; [contradiction |].
  intros [-> | Hin]; cbn; [unfold get; eauto |].
  destruct (get (Some p) "pubName"); [| eauto].
  destruct (IH Hin) as (e & ->). eauto.
Qed.

(** Claim C10.  [getUsedPubs] never throws and leaves the log alone.
    Whenever reading or parsing the log fails (no file, a file that cannot
    be read, a line that is not JSON, a record that is null), it returns
    the empty list, so that no name at all is refused on that attempt. *)
Theorem getUsedPubs_never_throws (w : world) :
  fst (getUsedPubs w) = Ok (usedPubs_of (posts_jsonl w)) /\
  posts_jsonl (snd (getUsedPubs w)) = posts_jsonl w /\
  (forall e, read_used_pubs (posts_jsonl w) = Throw e ->
     fst (getUsedPubs w) = Ok [] /\
     forall name, includes (usedPubs_of (posts_jsonl w)) name = false) /\
  (posts_jsonl w = NoFile -> exists e, read_used_pubs (posts_jsonl w) = Throw e) /\
  (posts_jsonl w = Unreadable -> exists e, read_used_pubs (posts_jsonl w) = Throw e) /\
  (forall lines,
     posts_jsonl w = File lines ->
     In Garbage lines \/ In (Json JNull) lines ->
     exists e, read_used_pubs (posts_jsonl w) = Throw e).
Proof.
  split; [reflexivity |]. split; [reflexivity |]. split; [| split; [| split]].
  - intros e He. unfold getUsedPubs, usedPubs_of. rewrite He. cbn. auto.
  - intros ->. cbn. eauto.
  - intros ->. cbn. eauto.
  - intros lines -> Hbad. unfold read_used_pubs. cbn [readFile all_lines].
    destruct Hbad as [Hin | Hin].
    + apply (In_trim_split Garbage) in Hin; [| reflexivity].
      destruct (parse_lines_Garbage _ Hin) as (e & ->). eauto.
    + apply (In_trim_split (Json JNull)) in Hin; [| reflexivity].
      destruct (parse_lines (trim_split lines)) as [posts | e] eqn:Hparse; [| eauto].
      apply (parse_lines_In _ _ _ Hparse) in Hin.
      destruct (pubName_of_posts_null _ Hin) as (e & ->). eauto.
Qed.

(** The Crown is logged, a later line is not JSON: the read gives no pub
    at all, and The Crown is not refused. *)
Lemma getUsedPubs_never_throws_witness :
  posts_jsonl corrupted_log
    = File [Json (JObj [("pubName", JStr "The Crown")]); Garbage] /\
  (In Garbage [Json (JObj [("pubName", JStr "The Crown")]); Garbage]) /\
  fst (getUsedPubs corrupted_log) = Ok [] /\
  includes (usedPubs_of (posts_jsonl corrupted_log)) (Some (JStr "The Crown")) = false.
Proof.
  assert (Hin : In Garbage [Json (JObj [("pubName", JStr "The Crown")]); Garbage])
    by (right; now left).
  split; [reflexivity |]. split; [exact Hin |].
  destruct (getUsedPubs_never_throws corrupted_log) as (_ & _ & Hfail & _ & _ & Hbad).
  destruct (Hbad _ eq_refl (or_introl Hin)) as (e & He).
  destruct (Hfail e He) as (Hempty & Hnone).
  split; [exact Hempty | apply Hnone].
Defined.

(** *** Logs written by the program *)

Lemma is_record_not_blank t : is_record t -> is_blank t = false.
Proof. now intros (members & ->). Qed.

Lemma trim_start_records lines :
  Forall is_record lines -> trim_start lines = lines.
Proof.
  destruct 1 as [| t rest Ht _]; [reflexivity |].
  cbn. now rewrite (is_record_not_blank t Ht).
Qed.

Lemma trim_split_records lines :
  Forall is_record lines -> lines <> [] -> trim_split lines = lines.
Proof.
  intros Hrec Hne. unfold trim_split.
  rewrite (trim_start_records lines Hrec).
  rewrite trim_start_records by (now apply Forall_rev).
  rewrite rev_involutive. destruct lines; congruence.
Qed.

Lemma parse_records lines :
  Forall is_record lines ->
  exists posts,
    parse_lines lines = Ok posts /\
    pubName_of_posts posts = Ok (map pubName_of_line lines).
Proof.
  induction 1 as [| t rest (members & ->) _ (posts & Hparse & Hnames)].
  - exists []. split; reflexivity.
  - exists (JObj members :: posts). cbn. unfold JSON_parse, get.
    rewrite Hparse, Hnames. split; reflexivity.
Qed.

Lemma usedPubs_of_records lines :
  Forall is_record lines -> lines <> [] ->
  usedPubs_of (File lines) = set_of [] (filter_Boolean (map pubName_of_line lines)).
Proof.
  intros Hrec Hne. unfold usedPubs_of, read_used_pubs. cbn [readFile all_lines].
  rewrite (trim_split_records lines Hrec Hne).
  destruct (parse_records lines Hrec) as (posts & -> & ->). reflexivity.
Qed.

Lemma In_strings_of s vs :
  In s (strings_of vs) <-> In (Some (JStr s)) vs.
Proof.
  induction vs as [| [[| | | s0 | |] |] rest IH]; cbn; try tauto;
    try (rewrite IH; split; [auto | intros [H | H]; [discriminate | exact H]]).
  rewrite IH. split; intros [H | H]; auto; left; congruence.
Qed.

Lemma In_filter_Boolean s vs :
  s <> "" -> In (Some (JStr s)) vs -> In (JStr s) (filter_Boolean vs).
Proof.
  intros Hs. induction vs as [| [j |] rest IH]; cbn [filter_Boolean]; [contradiction | |].
  - intros [[= ->] | Hin].
    + cbn. destruct (String.eqb_spec s ""); [contradiction | now left].
    + destruct (truthy (Some j)); [right |]; auto.
  - intros [H | Hin]; [discriminate | auto].
Qed.

(** On a well-formed log the read misses no recorded name. *)
Lemma logged_name_is_used f s :
  well_formed f -> s <> "" -> In s (pub_names f) ->
  includes (usedPubs_of f) (Some (JStr s)) = true.
Proof.
  intros (Hacc & Hrec) Hs Hin. unfold pub_names in Hin.
  destruct Hacc as [-> | (lines & ->)]; cbn [log_lines all_lines] in *;
    [contradiction |].
  destruct lines as [| t rest]; [contradiction |].
  rewrite usedPubs_of_records by (auto; discriminate).
  pose proof (includes_set_of_string s
                (filter_Boolean (map pubName_of_line (t :: rest))) []) as Hset.
  cbn [includes existsb orb] in Hset. unfold includes at 1 3 in Hset. cbn [existsb orb] in Hset.
  rewrite Hset. apply includes_string. apply In_filter_Boolean; [exact Hs |].
  now apply In_strings_of.
Qed.

Lemma strings_of_app vs1 vs2 :
  strings_of (vs1 ++ vs2) = strings_of vs1 ++ strings_of vs2.
Proof.
  induction vs1 as [| [[| | | s | |] |] rest IH]; cbn; auto. now rewrite IH.
Qed.


Lemma truthy_string_nonempty s : truthy (Some (JStr s)) = true -> s <> "".
Proof. cbn. now destruct (String.eqb_spec s ""). Qed.

Lemma appendFile_accessible f line :
  plain f -> appendFile f line = Ok (File (log_lines f ++ [line])).
Proof. intros [-> | (lines & ->)]; reflexivity. Qed.

(** A run that returns the production record has appended its line. *)
Lemma production_success_appends E w o :
  can_append (posts_jsonl w) = true ->
  fst (publishSundayWalkPost E w) = Ok o ->
  mode o = "production" ->
  exists line,
    appendFile (posts_jsonl w) line = Ok (posts_jsonl (snd (publishSundayWalkPost E w))).
Proof.
  intros Hfile. rewrite publishSundayWalkPost_eq.
  destruct (generate_content E w) as [[[[walk caption] image] | e] w1] eqn:Hcontent;
    [| discriminate].
  destruct (generate_content_cases E w _ _ Hcontent)
    as (Hlog & _ & _ & _ & (members & -> & _) & _).
  destruct (is_development E).
  - unfold save_for_review, bind, history, emit, await, lift, ret, throw.
    destruct (writeFile_caption E _ _ caption) as [[] | reason]; [| discriminate].
    unfold get. cbn. intros [= <-]. discriminate.
  - unfold publish_and_log, bind.
    destruct (postToInstagram E _ _ caption w1) as [[result | e] w2] eqn:Hpost;
      [| discriminate].
    apply postToInstagram_cases in Hpost
      as (_ & [(? & _) | [(? & ? & _) | [(? & ? & _) | (data & [= <-] & ->)]]]);
      try discriminate.
    destruct (get result "id") as [id | e] eqn:Hid.
    + destruct (logPost_appends E members result id
                  (record (EvMediaPublish true) (record EvCreateContainer w1)) Hid)
        as (line & f' & Happend & ->); [cbn; now rewrite Hlog |].
      intros _ _. exists line. cbn in Happend |- *. now rewrite <- Hlog.
    + unfold logPost, bind, history, lift. unfold get at 1 2 3 4 5. rewrite Hid.
      discriminate.
Qed.

Lemma written_string j s : written j = JStr s <-> j = JStr s.
Proof.
  destruct j as [| b | x | s0 | items | members]; cbn; try (split; discriminate);
    try tauto.
  destruct (PrimFloat.is_finite x); [destruct (PrimFloat.eqb x 0) |];
    split; discriminate.
Qed.

Lemma written_name_string (pub : value) s :
  option_map written pub = Some (JStr s) <-> pub = Some (JStr s).
Proof.
  destruct pub as [j |]; cbn; [| split; discriminate].
  split; intros [= H]; f_equal; now apply written_string.
Qed.

(** One run of the pipeline keeps the invariant. *)
Lemma run_keeps_invariant E w :
  dedup_invariant (posts_jsonl w) ->
  dedup_invariant (posts_jsonl (snd (publishSundayWalkPost E w))).
Proof.
  intros (Hwf & Hnodup).
  destruct (run_cases E w) as (evs & _ & [(-> & _) | Happend]); [now split |].
  destruct Happend as (walk & caption & image & w1 & result & w2 & line & pre & members
                       & _ & _ & _ & Happend & Hrec & _ & Hname & Hinc & Htruthy & _).
  apply (appendFile_lines _ _ _ (proj1 Hwf)) in Happend as ->.
  split.
  - split; [right; eauto |]. cbn [log_lines all_lines].
    apply Forall_app. split; [apply Hwf | repeat constructor; exact Hrec].
  - unfold pub_names. cbn [log_lines all_lines]. rewrite map_app, strings_of_app.
    cbn [map].
    destruct (pubName_of_line line) as [[| | | s | |] |] eqn:Hpub; cbn [strings_of];
      try (now rewrite app_nil_r).
    symmetry in Hname. apply (proj1 (written_name_string _ _)) in Hname.
    apply NoDup_app; [exact Hnodup | repeat constructor; auto |].
    intros s' Hin [<- | []]. rewrite Hname in Hinc, Htruthy.
    apply (logged_name_is_used _ s Hwf) in Hin; [congruence |].
    now apply truthy_string_nonempty.
Qed.

Lemma triggers_keep_invariant Es :
  forall w, dedup_invariant (posts_jsonl w) ->
            dedup_invariant (posts_jsonl (triggers Es w)).
Proof.
  induction Es as [| E rest IH]; intros w Hinv; [exact Hinv |].
  cbn [triggers]. apply IH. now apply run_keeps_invariant.
Qed.

(** Claim C1.  The guarantee is one on the pub names that are strings.
    From a log that is absent where it can be created, or is read and
    written, ends with a newline and has one object per line, without
    repeated string pubName, every
    sequence of runs of the pipeline, whatever the collaborators answer,
    leaves such a log.  A run leaves the log as it was or appends exactly
    one line (it does append when it returns the production record); in
    that case the effects of the run end with the last read of the used
    pubs, the chat completion of the accepted proposal, the image, the two
    publishing calls of which media_publish succeeded, and the append.
    The pub name of that proposal is truthy and not in the used pubs of
    that last read; the line records what [JSON.stringify] writes for it:
    the same string when it is a string, and then a string that is not in
    the log. *)
Theorem dedup_invariant_holds (w : world) :
  dedup_invariant (posts_jsonl w) ->
  (forall Es : list env, dedup_invariant (posts_jsonl (triggers Es w))) /\
  (forall E : env,
     posts_jsonl (snd (publishSundayWalkPost E w)) = posts_jsonl w \/
     exists line pre used members caption image w1,
       generate_content E w = (Ok (JObj members, caption, image), w1) /\
       posts_jsonl (snd (publishSundayWalkPost E w))
         = File (log_lines (posts_jsonl w) ++ [line]) /\
       since w (snd (publishSundayWalkPost E w))
         = pre ++ [EvReadLog used; EvChat used; EvImage;
                   EvCreateContainer; EvMediaPublish true; EvAppendLog line] /\
       used = usedPubs_of (posts_jsonl w) /\
       includes used (lookup "end_pub_name" members) = false /\
       truthy (lookup "end_pub_name" members) = true /\
       pubName_of_line line = option_map written (lookup "end_pub_name" members) /\
       forall s,
         (pubName_of_line line = Some (JStr s)
          <-> lookup "end_pub_name" members = Some (JStr s)) /\
         (pubName_of_line line = Some (JStr s) ->
          ~ In s (pub_names (posts_jsonl w)))) /\
  (forall (E : env) (o : outcome),
     fst (publishSundayWalkPost E w) = Ok o ->
     mode o = "production" ->
     posts_jsonl (snd (publishSundayWalkPost E w)) <> posts_jsonl w).
Proof.
  intros Hinv. split; [intros Es; now apply triggers_keep_invariant |].
  pose proof (proj1 (proj1 Hinv)) as Hplain.
  split.
  2:{ intros E o Hok Hmode.
      destruct (production_success_appends E w o (plain_can_append _ Hplain) Hok Hmode)
        as (line & Happend).
      apply (appendFile_lines _ _ _ Hplain) in Happend as ->.
      destruct Hplain as [-> | (lines & ->)]; cbn; [discriminate |].
      intros [= H]. apply (f_equal (@List.length text)) in H.
      rewrite length_app in H. cbn in H. lia. }
  intros E.
  destruct (run_cases E w) as (evs & Htrace & [(Hlog & _) | Happend]); [now left |].
  right.
  destruct Happend as (walk & caption & image & w1 & result & w2 & line & pre & members
                       & _ & Hcontent & _ & Happend & _ & -> & Hname & Hinc & Htruthy
                       & Hevs & _).
  exists line, pre, (usedPubs_of (posts_jsonl w)), members, caption, image, w1.
  rewrite (since_app _ _ _ Htrace).
  apply (appendFile_lines _ _ _ Hplain) in Happend.
  repeat split; auto.
  - rewrite Hname. apply written_name_string.
  - rewrite Hname. apply written_name_string.
  - intros Hs Hin. rewrite Hname in Hs. apply (proj1 (written_name_string _ _)) in Hs.
    rewrite Hs in Hinc, Htruthy.
    apply (logged_name_is_used _ s (proj1 Hinv)) in Hin; [congruence |].
    now apply truthy_string_nonempty.
Qed.

(** Three triggers from no log: The Crown, The Crown again (refused after
    five attempts), The Anchor. *)
Lemma dedup_invariant_holds_witness :
  dedup_invariant (posts_jsonl fresh_world) /\
  dedup_invariant
    (posts_jsonl (triggers [crown_stub; crown_stub; anchor_stub] fresh_world)) /\
  pub_names (posts_jsonl (triggers [crown_stub; crown_stub; anchor_stub] fresh_world))
    = ["The Crown"; "The Anchor"].
Proof.
  assert (Hinv : dedup_invariant (posts_jsonl fresh_world)).
  { split; [split; [now left | constructor] | constructor]. }
  split; [exact Hinv |].
  split; [| vm_compute; reflexivity].
  exact (proj1 (dedup_invariant_holds fresh_world Hinv) [crown_stub; crown_stub; anchor_stub]).
Defined.

(** The claim without the restriction to strings fails.  From no log, two
    runs whose collaborator names the pub by the array ["The Crown"] both
    publish it: the array read from the log is not the array of the
    reply, and the log ends with two lines of the same pubName.  Two runs
    whose collaborator names the pub 1e999 both publish it too: the line
    records null in its place, which the next read leaves out. *)
Lemma same_pub_is_logged_twice :
  (exists o1 o2,
     fst (publishSundayWalkPost array_stub fresh_world) = Ok o1 /\
     mode o1 = "production" /\
     fst (publishSundayWalkPost array_stub
            (snd (publishSundayWalkPost array_stub fresh_world))) = Ok o2 /\
     mode o2 = "production") /\
  map pubName_of_line
      (log_lines (posts_jsonl (triggers [array_stub; array_stub] fresh_world)))
    = [Some (JArr [JStr "The Crown"]); Some (JArr [JStr "The Crown"])] /\
  ~ no_shared_pubName (posts_jsonl (triggers [array_stub; array_stub] fresh_world)) /\
  (exists o1 o2,
     fst (publishSundayWalkPost infinity_stub fresh_world) = Ok o1 /\
     mode o1 = "production" /\
     fst (publishSundayWalkPost infinity_stub
            (snd (publishSundayWalkPost infinity_stub fresh_world))) = Ok o2 /\
     mode o2 = "production") /\
  map pubName_of_line
      (log_lines (posts_jsonl (triggers [infinity_stub; infinity_stub] fresh_world)))
    = [Some JNull; Some JNull] /\
  ~ no_shared_pubName (posts_jsonl (triggers [infinity_stub; infinity_stub] fresh_world)).
Proof.
  assert (Htwice : forall v : value, ~ NoDup [v; v]).
  { intros v H. inversion H as [| ? ? Hin _]. apply Hin. now left. }
  split; [eexists; eexists; vm_compute; repeat split; reflexivity |].
  split; [vm_compute; reflexivity |].
  split; [unfold no_shared_pubName;
          replace (map pubName_of_line _)
            with [Some (JArr [JStr "The Crown"]); Some (JArr [JStr "The Crown"])]
            by (vm_compute; reflexivity);
          apply Htwice |].
  split; [eexists; eexists; vm_compute; repeat split; reflexivity |].
  split; [vm_compute; reflexivity |].
  unfold no_shared_pubName.
  replace (map pubName_of_line _) with [Some JNull; Some JNull]
    by (vm_compute; reflexivity).
  apply Htwice.
Qed.

(** *** Append, then read *)


(** Claim C7.  With no log, [getUsedPubs] returns the empty list.  After
    [logPost] of a walk ending at The Crown and [logPost] of a walk ending
    at The Anchor, it returns The Crown and The Anchor, and a string is a
    member of what it returns exactly when it is one of the two. *)
Theorem log_round_trip
    (E1 E2 : env) (walk1 walk2 : list (string * json))
    (result1 result2 id1 id2 : value) (w : world) :
  posts_jsonl w = NoFile ->
  lookup "end_pub_name" walk1 = Some (JStr "The Crown") ->
  lookup "end_pub_name" walk2 = Some (JStr "The Anchor") ->
  get result1 "id" = Ok id1 ->
  get result2 "id" = Ok id2 ->
  fst (getUsedPubs w) = Ok [] /\
  fst (getUsedPubs
         (snd (logPost E2 (Some (JObj walk2)) result2
                 (snd (logPost E1 (Some (JObj walk1)) result1 w)))))
    = Ok [JStr "The Crown"; JStr "The Anchor"] /\
  (forall p,
     includes
       (usedPubs_of
          (posts_jsonl
             (snd (logPost E2 (Some (JObj walk2)) result2
                     (snd (logPost E1 (Some (JObj walk1)) result1 w))))))
       (Some (JStr p)) = true
     <-> p = "The Crown" \/ p = "The Anchor").
Proof.
  intros Hfile Hcrown Hanchor Hid1 Hid2.
  split; [unfold getUsedPubs; now rewrite Hfile |].
  destruct (logPost_entry E1 walk1 result1 id1 w Hid1) as (line1 & Hrec1 & Hname1 & ->);
    [rewrite Hfile; now left |].
  cbn [snd].
  destruct (logPost_entry E2 walk2 result2 id2
              (mkWorld (File (log_lines (posts_jsonl w) ++ [line1])) (openaiClient w)
                 (trace w ++ [EvAppendLog line1])) Hid2)
    as (line2 & Hrec2 & Hname2 & ->); [right; eexists; reflexivity |].
  cbn [snd posts_jsonl log_lines all_lines]. rewrite Hfile. cbn [log_lines app].
  assert (Hused : usedPubs_of (File [line1; line2]) = [JStr "The Crown"; JStr "The Anchor"]).
  { rewrite usedPubs_of_records by (repeat constructor; auto; discriminate).
    cbn [map]. rewrite Hname1, Hname2, Hcrown, Hanchor. reflexivity. }
  unfold getUsedPubs. cbn [fst posts_jsonl]. rewrite Hused.
  split; [reflexivity |].
  intros p. rewrite includes_string. cbn.
  split; [intros [[= <-] | [[= <-] | []]]; auto | intros [-> | ->]; auto].
Qed.

(** Two small walks logged on an absent log. *)
Lemma log_round_trip_witness :
  posts_jsonl fresh_world = NoFile /\
  fst (getUsedPubs fresh_world) = Ok [] /\
  fst (getUsedPubs
         (snd (logPost anchor_stub
                 (Some (JObj [("id", JStr "walk-2"); ("end_pub_name", JStr "The Anchor")]))
                 (Some (JObj [("id", JStr "post-2")]))
                 (snd (logPost crown_stub
                         (Some (JObj [("id", JStr "walk-1"); ("end_pub_name", JStr "The Crown")]))
                         (Some (JObj [("id", JStr "post-1")]))
                         fresh_world)))))
    = Ok [JStr "The Crown"; JStr "The Anchor"].
Proof.
  split; [reflexivity |].
  destruct (log_round_trip crown_stub anchor_stub
              [("id", JStr "walk-1"); ("end_pub_name", JStr "The Crown")]
              [("id", JStr "walk-2"); ("end_pub_name", JStr "The Anchor")]
              (Some (JObj [("id", JStr "post-1")]))
              (Some (JObj [("id", JStr "post-2")]))
              (Some (JStr "post-1")) (Some (JStr "post-2"))
              fresh_world eq_refl eq_refl eq_refl eq_refl eq_refl)
    as (Hempty & Hread & _).
  split; assumption.
Defined.

(** *** Exact comparison of names *)

(** Claim C8.  For strings, [includes] is membership: nothing is
    normalized.  In an attempt that gets a reply whose end_pub_name is the
    string [p], the reply is refused (and the generator retries) when [p]
    is literally in the used pubs, and goes on to [formatWalkData]
    otherwise.  With The Crown used, the names that differ from it by
    case, by a trailing space or by punctuation are not refused. *)
Theorem exact_string_match :
  (forall (used : list json) (p : string),
     includes used (Some (JStr p)) = true <-> In (JStr p) used) /\
  (forall (E : env) (k a : nat) (w : world) (walkData : json) (p : string),
     a <= k ->
     reaches_collaborator E w ->
     chat_completions_create E (trace (after_read w)) (usedPubs_of (posts_jsonl w))
       = Fulfilled (Json walkData) ->
     get (Some walkData) "end_pub_name" = Ok (Some (JStr p)) ->
     (In (JStr p) (usedPubs_of (posts_jsonl w)) ->
        generateWalk E k a w = generateWalk E k (S a) (after_chat w)) /\
     (~ In (JStr p) (usedPubs_of (posts_jsonl w)) ->
        generateWalk E k a w =
          (formatWalkData (ToNumber E) (Date_now E (trace (after_chat w))) walkData,
           after_chat w))) /\
  includes [JStr "The Crown"] (Some (JStr "the crown")) = false /\
  includes [JStr "The Crown"] (Some (JStr "The Crown ")) = false /\
  includes [JStr "The Crown"] (Some (JStr "The Crown!")) = false /\
  includes [JStr "The Crown"] (Some (JStr "The Crown")) = true.
Proof.
  split; [exact includes_string |].
  split; [| repeat split; reflexivity].
  intros E k a w walkData p Ha Hclient Hchat Hname.
  rewrite generateWalk_step by exact Ha.
  rewrite one_attempt_eq. cbv zeta.
  destruct Hclient as (-> & Hclient).
  replace (negb (openaiClient w) && negb (env_set (OPENAI_API_KEY E))) with false
    by (destruct Hclient as [-> | ->]; [reflexivity | now rewrite andb_false_r]).
  rewrite Hchat. unfold JSON_parse. rewrite Hname.
  split; intros Hin.
  - apply includes_string in Hin. now rewrite Hin.
  - destruct (includes (usedPubs_of (posts_jsonl w)) (Some (JStr p))) eqn:Hinc.
    + apply includes_string in Hinc. contradiction.
    + destruct (formatWalkData _ _ walkData); reflexivity.
Qed.

(** With The Crown logged, a full walk ending at the crown is accepted. *)
Lemma exact_string_match_witness :
  1 <= 5 /\
  reaches_collaborator lowercase_stub crown_logged /\
  In (JStr "The Crown") (usedPubs_of (posts_jsonl crown_logged)) /\
  ~ In (JStr "the crown") (usedPubs_of (posts_jsonl crown_logged)) /\
  exists walk,
    generateWalk lowercase_stub 5 1 crown_logged = (Ok walk, after_chat crown_logged) /\
    get (Some walk) "end_pub_name" = Ok (Some (JStr "the crown")).
Proof.
  assert (Hle : 1 <= 5) by lia.
  assert (Hclient : reaches_collaborator lowercase_stub crown_logged)
    by (split; [| right]; vm_compute; reflexivity).
  assert (Hnew : ~ In (JStr "the crown") (usedPubs_of (posts_jsonl crown_logged))).
  { vm_compute. intros [H | []]. discriminate. }
  split; [exact Hle |]. split; [exact Hclient |].
  split; [vm_compute; now left |]. split; [exact Hnew |].
  destruct exact_string_match as (_ & Hgate & _).
  destruct (Hgate lowercase_stub 5 1 crown_logged
              (sample_walk "Heath to Hearth" "the crown") "the crown"
              Hle Hclient eq_refl eq_refl) as (_ & Haccept).
  rewrite (Haccept Hnew).
  eexists. split; vm_compute; reflexivity.
Defined.

(* ===================================================================== *)
(** ** Further properties of the generator *)
(* ===================================================================== *)

(** *** What the read of the log returns *)

Lemma filter_Boolean_truthy vs :
  Forall (fun j => truthy (Some j) = true) (filter_Boolean vs).
Proof.
  induction vs as [| [j |] rest IH]; cbn [filter_Boolean]; auto.
  destruct (truthy (Some j)) eqn:Hj; auto.
Qed.

Lemma In_filter_Boolean_inv j vs :
  In j (filter_Boolean vs) -> In (Some j) vs.
Proof.
  induction vs as [| [j0 |] rest IH]; cbn [filter_Boolean]; [contradiction | |].
  - destruct (truthy (Some j0)); [intros [-> | H] |]; cbn; auto.
  - cbn; auto.
Qed.

Lemma In_set_of x arr :
  forall seen, In x (set_of seen arr) -> In x arr.
Proof.
  induction arr as [| y rest IH]; intros seen; cbn [set_of]; [contradiction |].
  destruct (includes seen (Some y)).
  - intros H. right. eauto.
  - intros [-> | H]; [now left | right; eauto].
Qed.

Lemma In_strings_of_json s l :
  In s (strings_of (map Some l)) <-> In (JStr s) l.
Proof.
  rewrite In_strings_of, in_map_iff. split.
  - intros (j & [= ->] & Hin). exact Hin.
  - intros Hin. eauto.
Qed.

(** A set holds a string once, and none that was already seen. *)
Lemma set_of_strings arr :
  forall seen,
    NoDup (strings_of (map Some (set_of seen arr))) /\
    (forall s, In (JStr s) (set_of seen arr) -> includes seen (Some (JStr s)) = false).
Proof.
  induction arr as [| x rest IH]; intros seen; cbn [set_of].
  - split; [constructor | contradiction].
  - destruct (includes seen (Some x)) eqn:Hseen; [apply IH |].
    destruct (IH (seen ++ [x])) as (Hnodup & Hfresh).
    assert (Hrest : forall s, In (JStr s) (set_of (seen ++ [x]) rest) ->
                              includes seen (Some (JStr s)) = false /\ x <> JStr s).
    { intros s Hin. apply Hfresh in Hin. rewrite includes_app in Hin.
      apply orb_false_elim in Hin as (Hs & Hx). split; [exact Hs |].
      intros ->. unfold includes in Hx. cbn in Hx. now rewrite String.eqb_refl in Hx. }
    split.
    + cbn [map]. destruct x as [| | | s0 | |]; cbn [strings_of]; try exact Hnodup.
      constructor; [| exact Hnodup].
      rewrite In_strings_of_json. intros Hin. apply Hrest in Hin. tauto.
    + intros s [-> | Hin]; [exact Hseen | now apply Hrest].
Qed.

Lemma usedPubs_of_stored writable lines rest :
  Forall is_record (all_lines lines rest) ->
  all_lines lines rest <> [] ->
  usedPubs_of (Stored true writable lines rest)
  = set_of [] (filter_Boolean (map pubName_of_line (all_lines lines rest))).
Proof.
  intros Hrec Hne. unfold usedPubs_of, read_used_pubs. cbn [readFile].
  rewrite (trim_split_records _ Hrec Hne).
  destruct (parse_records _ Hrec) as (posts & -> & ->). reflexivity.
Qed.

Lemma well_formed_read_as_records f : well_formed f -> read_as_records f.
Proof.
  intros ([-> | (lines & ->)] & Hrec); (split; [| exact Hrec]);
    [left; eexists; reflexivity | now right].
Qed.

(** Property X1.  Whatever the log, [getUsedPubs] returns truthy values only
    and no string twice.  On a log that is absent, or is readable with an
    object on every line, a string is returned exactly when it is not
    empty and is the pubName of some line. *)
Theorem usedPubs_of_content (f : file) :
  Forall (fun j => truthy (Some j) = true) (usedPubs_of f) /\
  NoDup (strings_of (map Some (usedPubs_of f))) /\
  (read_as_records f ->
   forall s, In (JStr s) (usedPubs_of f) <-> s <> "" /\ In s (pub_names f)) /\
  (well_formed f -> read_as_records f).
Proof.
  assert (Hshape : usedPubs_of f = [] \/
                   exists names, usedPubs_of f = set_of [] (filter_Boolean names)).
  { unfold usedPubs_of, read_used_pubs.
    destruct (readFile f) as [data | e]; [| now left].
    destruct (parse_lines (trim_split data)) as [posts | e]; [| now left].
    destruct (pubName_of_posts posts) as [names | e]; [| now left].
    right. eauto. }
  split; [| split; [| split; [| apply well_formed_read_as_records]]].
  - destruct Hshape as [-> | (names & ->)]; [constructor |].
    rewrite Forall_forall. intros j Hin. apply In_set_of in Hin.
    pose proof (filter_Boolean_truthy names) as Htruthy.
    rewrite Forall_forall in Htruthy. auto.
  - destruct Hshape as [-> | (names & ->)]; [constructor |].
    apply set_of_strings.
  - intros (Hread & Hrec) s.
    destruct f as [creatable | | readable writable lines rest].
    + cbn. tauto.
    + destruct Hread as [(c & Hread) | Hread]; discriminate.
    + destruct Hread as [(c & Hread) | Hread]; [discriminate |].
      cbn in Hread. subst readable. cbn [log_lines] in Hrec.
      unfold pub_names. cbn [log_lines].
      destruct (all_lines lines rest) as [| t others] eqn:Hall.
      * assert (Hempty : usedPubs_of (Stored true writable lines rest) = []).
        { unfold usedPubs_of, read_used_pubs. cbn [readFile]. now rewrite Hall. }
        rewrite Hempty. cbn. tauto.
      * rewrite <- Hall in *.
        rewrite usedPubs_of_stored by (auto; rewrite Hall; discriminate).
        split.
        -- intros Hin. apply In_set_of in Hin.
           pose proof (filter_Boolean_truthy (map pubName_of_line (all_lines lines rest)))
             as Htruthy.
           rewrite Forall_forall in Htruthy.
           split; [apply truthy_string_nonempty; auto |].
           apply In_strings_of. now apply In_filter_Boolean_inv.
        -- intros (Hs & Hin). apply includes_string.
           pose proof (includes_set_of_string s
                         (filter_Boolean (map pubName_of_line (all_lines lines rest))) [])
             as Hset.
           cbn [includes existsb orb] in Hset. unfold includes at 1 3 in Hset.
           cbn [existsb orb] in Hset.
           rewrite Hset. apply includes_string. apply In_filter_Boolean; [exact Hs |].
           now apply In_strings_of.
Qed.

Lemma usedPubs_of_content_witness :
  well_formed (posts_jsonl crown_logged) /\
  (In (JStr "The Crown") (usedPubs_of (posts_jsonl crown_logged)) <->
   "The Crown" <> "" /\ In "The Crown" (pub_names (posts_jsonl crown_logged))) /\
  In (JStr "The Crown") (usedPubs_of (posts_jsonl crown_logged)).
Proof.
  assert (Hwf : well_formed (posts_jsonl crown_logged)).
  { split; [right; eexists; reflexivity |]. repeat constructor. eexists. reflexivity. }
  split; [exact Hwf |].
  destruct (usedPubs_of_content (posts_jsonl crown_logged)) as (_ & _ & Hiff & Hread).
  split; [exact (Hiff (Hread Hwf) "The Crown") |].
  apply (Hiff (Hread Hwf) "The Crown"). split; [discriminate | now left].
Defined.

(** *** Blank lines in the log *)

Lemma trim_start_snoc_blank lines :
  trim_start (lines ++ [Blank]) =
  match trim_start lines with
  | [] => []
  | kept => kept ++ [Blank]
  end.
Proof.
  induction lines as [| t rest IH]; [reflexivity |].
  cbn [app trim_start]. destruct (is_blank t); [exact IH | reflexivity].
Qed.

Lemma trim_split_snoc_blank lines :
  trim_split (lines ++ [Blank]) = trim_split lines.
Proof.
  unfold trim_split. rewrite trim_start_snoc_blank.
  destruct (trim_start lines) as [| t kept]; [reflexivity |].
  rewrite rev_app_distr. reflexivity.
Qed.

Lemma trim_split_blank_ends n m lines :
  trim_split (repeat Blank n ++ lines ++ repeat Blank m) = trim_split lines.
Proof.
  induction n as [| n IHn]; cbn [repeat app].
  - induction m as [| m IHm]; cbn [repeat]; [now rewrite app_nil_r |].
    replace (Blank :: repeat Blank m) with (repeat Blank m ++ [Blank])
      by (clear; induction m; cbn; congruence).
    now rewrite app_assoc, trim_split_snoc_blank.
  - exact IHn.
Qed.

Lemma trim_start_kept t lines :
  is_blank t = false -> trim_start (t :: lines) = t :: lines.
Proof. intros H. cbn. now rewrite H. Qed.

Lemma trim_split_between t1 t2 middle :
  is_blank t1 = false -> is_blank t2 = false ->
  trim_split (t1 :: middle ++ [t2]) = t1 :: middle ++ [t2].
Proof.
  intros H1 H2. unfold trim_split.
  rewrite (trim_start_kept t1 _ H1).
  change (t1 :: middle ++ [t2]) with ((t1 :: middle) ++ [t2]).
  rewrite rev_app_distr. cbn [rev app].
  rewrite (trim_start_kept t2 _ H2).
  change (t2 :: rev middle ++ [t1]) with ([t2] ++ rev (t1 :: middle)).
  rewrite rev_app_distr, rev_involutive. reflexivity.
Qed.

Lemma parse_lines_Blank lines :
  In Blank lines -> exists e, parse_lines lines = Throw e.
Proof.
  induction lines as [| t rest IH]; [contradiction |].
  intros [-> | Hin]; cbn; [unfold JSON_parse; eauto |].
  destruct (JSON_parse t); [| eauto].
  destruct (IH Hin) as (e & ->). eauto.
Qed.

(** Property X2.  Blank lines before the first and after the last line of
    the log change nothing to what [getUsedPubs] returns; one blank line
    between two lines makes it return the empty list, whatever is logged. *)
Theorem blank_lines_of_the_log (lines : list text) (n m : nat) :
  usedPubs_of (File (repeat Blank n ++ lines ++ repeat Blank m))
    = usedPubs_of (File lines) /\
  (forall t1 t2 before after,
     is_blank t1 = false -> is_blank t2 = false ->
     lines = t1 :: before ++ Blank :: after ++ [t2] ->
     usedPubs_of (File lines) = []).
Proof.
  split.
  - unfold usedPubs_of, read_used_pubs. cbn [readFile all_lines].
    now rewrite trim_split_blank_ends.
  - intros t1 t2 before after H1 H2 ->.
    unfold usedPubs_of, read_used_pubs. cbn [readFile all_lines].
    replace (t1 :: before ++ Blank :: after ++ [t2])
      with (t1 :: (before ++ Blank :: after) ++ [t2])
      by (now rewrite <- app_assoc).
    rewrite trim_split_between by assumption.
    destruct (parse_lines_Blank (t1 :: (before ++ Blank :: after) ++ [t2])) as (e & ->);
      [| reflexivity].
    right. apply in_or_app. left. apply in_or_app. right. now left.
Qed.

Lemma blank_lines_of_the_log_witness :
  usedPubs_of (File [Blank; Json (JObj [("pubName", JStr "The Crown")]); Blank; Blank])
    = [JStr "The Crown"] /\
  usedPubs_of (File [Json (JObj [("pubName", JStr "The Crown")]); Blank;
                     Json (JObj [("pubName", JStr "The Anchor")])]) = [].
Proof.
  split.
  - exact (eq_trans
             (proj1 (blank_lines_of_the_log
                       [Json (JObj [("pubName", JStr "The Crown")])] 1 2))
             eq_refl).
  - apply (proj2 (blank_lines_of_the_log _ 0 0)
             (Json (JObj [("pubName", JStr "The Crown")]))
             (Json (JObj [("pubName", JStr "The Anchor")])) [] []); reflexivity.
Defined.

(** *** The generator and its collaborator *)

Lemma trace_after_reads n w :
  posts_jsonl (Nat.iter n after_read w) = posts_jsonl w /\
  openaiClient (Nat.iter n after_read w) = openaiClient w /\
  trace (Nat.iter n after_read w)
    = trace w ++ repeat (EvReadLog (usedPubs_of (posts_jsonl w))) n.
Proof.
  induction n as [| n (Hlog & Hclient & Htrace)].
  - cbn. now rewrite app_nil_r.
  - rewrite Nat.iter_succ. cbn [repeat].
    remember (Nat.iter n after_read w) as w' eqn:Hw'.
    unfold after_read, record. cbn [posts_jsonl openaiClient trace].
    rewrite Hlog, Htrace, <- app_assoc. repeat split; auto.
    f_equal. clear. induction n; cbn; congruence.
Qed.

Lemma generateWalk_without_key E k a w :
  a <= k ->
  openaiClient w = false ->
  env_set (OPENAI_API_KEY E) = false ->
  generateWalk E k a w
  = (Throw (keyless_error (usedPubs_of (posts_jsonl w))), after_read w).
Proof.
  intros Ha Hclient Hkey.
  rewrite generateWalk_step by exact Ha. rewrite one_attempt_eq. cbv zeta.
  unfold keyless_error.
  destruct (existsb to_string_throws (usedPubs_of (posts_jsonl w))); [reflexivity |].
  now rewrite Hclient, Hkey.
Qed.

Lemma generator_runs_without_key E n :
  forall w,
    openaiClient w = false ->
    env_set (OPENAI_API_KEY E) = false ->
    generator_runs E n w
    = (repeat (Throw (keyless_error (usedPubs_of (posts_jsonl w)))) n,
       Nat.iter n after_read w).
Proof.
  induction n as [| n IH]; intros w Hclient Hkey; [reflexivity |].
  cbn [generator_runs]. rewrite generateWalk_without_key by (auto; lia).
  rewrite IH by auto. rewrite Nat.iter_succ_r. reflexivity.
Qed.

Lemma chats_reads u n : chats (repeat (EvReadLog u) n) = 0.
Proof. induction n; cbn; auto. Qed.

Lemma first_success_failures e n : first_success (repeat (Throw e) n) = None.
Proof. induction n; cbn; auto. Qed.

(** Property X3.  Without OPENAI_API_KEY and with no client created yet,
    no attempt of [generateWalk] reaches the collaborator: it throws after
    one read of the log and no call.  What it throws is the configuration
    error of [getOpenAIClient], unless a used pub cannot be written in the
    prompt (an object with a member called toString), in which case it is
    the TypeError of the prompt, built before the client is asked for.
    [generateBestWalk(n)] then makes its [n] runs without a single call,
    leaves the client uncreated, and reports 'Failed to generate any
    walks' in place of that error. *)
Theorem missing_key_calls_nobody (E : env) (w : world) :
  openaiClient w = false ->
  env_set (OPENAI_API_KEY E) = false ->
  (forall k a, a <= k ->
     generateWalk E k a w
     = (Throw (keyless_error (usedPubs_of (posts_jsonl w))), after_read w) /\
     chats (since w (after_read w)) = 0) /\
  (existsb to_string_throws (usedPubs_of (posts_jsonl w)) = false ->
   keyless_error (usedPubs_of (posts_jsonl w)) = missing_key) /\
  (existsb to_string_throws (usedPubs_of (posts_jsonl w)) = true ->
   keyless_error (usedPubs_of (posts_jsonl w)) = not_primitive) /\
  (forall n,
     generateBestWalk E n w = (Throw no_walks, Nat.iter n after_read w) /\
     chats (since w (Nat.iter n after_read w)) = 0 /\
     openaiClient (Nat.iter n after_read w) = false).
Proof.
  intros Hclient Hkey. split; [| split; [| split]].
  - intros k a Ha. split; [now apply generateWalk_without_key |].
    rewrite (since_app w (after_read w) [EvReadLog (usedPubs_of (posts_jsonl w))]);
      reflexivity.
  - unfold keyless_error. now intros ->.
  - unfold keyless_error. now intros ->.
  - intros n. destruct (trace_after_reads n w) as (_ & Hc & Htrace).
    split; [| split].
    + rewrite generateBestWalk_runs, generator_runs_without_key by auto.
      cbn [fst snd]. now rewrite first_success_failures.
    + rewrite (since_app _ _ _ Htrace). apply chats_reads.
    + now rewrite Hc.
Qed.

Lemma missing_key_calls_nobody_witness :
  openaiClient fresh_world = false /\
  env_set (OPENAI_API_KEY keyless_stub) = false /\
  generateWalk keyless_stub 5 1 fresh_world
    = (Throw missing_key, after_read fresh_world) /\
  fst (generateBestWalk keyless_stub 2 fresh_world) = Throw no_walks /\
  chats (trace (snd (generateBestWalk keyless_stub 2 fresh_world))) = 0.
Proof.
  assert (H1 : openaiClient fresh_world = false) by reflexivity.
  assert (H2 : env_set (OPENAI_API_KEY keyless_stub) = false) by reflexivity.
  destruct (missing_key_calls_nobody keyless_stub fresh_world H1 H2)
    as (Hwalk & _ & _ & Hbest).
  split; [exact H1 |]. split; [exact H2 |].
  split; [exact (proj1 (Hwalk 5 1 ltac:(lia))) |].
  destruct (Hbest 2) as (-> & _). split; reflexivity.
Defined.

(** *** The shape of the effects of the generator *)

Lemma attempts_trace_snoc u c :
  attempts_trace u (S c) = [EvReadLog u; EvChat u] ++ attempts_trace u c.
Proof. reflexivity. Qed.

Lemma chats_attempts_trace u c : chats (attempts_trace u c) = c.
Proof.
  induction c as [| c IH]; [reflexivity |].
  rewrite attempts_trace_snoc, chats_app, IH. reflexivity.
Qed.

Lemma generateWalk_reads_then_chats E k :
  forall n a w,
    n = S k - a ->
    exists c,
      c <= n /\
      (trace (snd (generateWalk E k a w))
         = trace w ++ attempts_trace (usedPubs_of (posts_jsonl w)) c \/
       (trace (snd (generateWalk E k a w))
          = trace w ++ attempts_trace (usedPubs_of (posts_jsonl w)) c
                    ++ [EvReadLog (usedPubs_of (posts_jsonl w))] /\
        c < n /\
        exists e, fst (generateWalk E k a w) = Throw e)).
Proof.
  induction n as [| m IH]; intros a w Hn.
  - exists 0. split; [lia |]. left.
    rewrite generateWalk_over by lia. cbn. now rewrite app_nil_r.
  - rewrite generateWalk_step by lia.
    destruct (one_attempt E w) as [[[walk |] | e] w1] eqn:Hone;
      apply one_attempt_cases in Hone.
    + destruct Hone as [(_ & e & He & _) | (-> & _)]; [discriminate |].
      exists 1. split; [lia |]. left. cbn. now rewrite <- app_assoc.
    + destruct Hone as [(_ & e & He & _) | (-> & _)]; [discriminate |].
      destruct (IH (S a) (after_chat w) ltac:(lia)) as (c & Hc & Hshape).
      cbn [posts_jsonl trace after_chat] in Hshape.
      exists (S c). split; [lia |].
      destruct Hshape as [-> | (-> & Hlt & He)]; [left | right].
      * rewrite <- !app_assoc. reflexivity.
      * split; [rewrite <- !app_assoc; reflexivity |]. split; [lia | exact He].
    + destruct Hone as [(-> & _) | (-> & _)].
      * exists 0. split; [lia |]. right. cbn. split; [reflexivity |].
        split; [lia | eauto].
      * exists 1. split; [lia |]. left. cbn. now rewrite <- app_assoc.
Qed.

(** Property X4.  The effects of [generateWalk] are reads of the log and
    chat completions only, in turn: every attempt reads the log afresh, and
    the prompt of its chat completion lists exactly the pubs just read.
    The last read is not followed by a call only when the prompt or the
    client failed, and then the run throws.  At most maxAttempts + 1 -
    attempt attempts are made, and the log is never written. *)
Theorem generateWalk_reads_before_every_call (E : env) (k a : nat) (w : world) :
  posts_jsonl (snd (generateWalk E k a w)) = posts_jsonl w /\
  exists c,
    c <= S k - a /\
    (since w (snd (generateWalk E k a w))
       = attempts_trace (usedPubs_of (posts_jsonl w)) c \/
     (since w (snd (generateWalk E k a w))
        = attempts_trace (usedPubs_of (posts_jsonl w)) c
          ++ [EvReadLog (usedPubs_of (posts_jsonl w))] /\
      c < S k - a /\
      exists e, fst (generateWalk E k a w) = Throw e)).
Proof.
  split.
  - destruct (generateWalk E k a w) as [r w'] eqn:Hrun.
    now destruct (generateWalk_spec E k _ a w r w' eq_refl Hrun).
  - destruct (generateWalk_reads_then_chats E k _ a w eq_refl) as (c & Hc & Hshape).
    exists c. split; [exact Hc |].
    destruct Hshape as [H | (H & Hrest)]; [left | right; split; [| exact Hrest]];
      now apply since_app.
Qed.

(** *** Structural validation, in full *)

Lemma check_required_members members id slug fields :
  (forall f, In f fields -> In f required) ->
  check_required (("id", id) :: ("slug", slug) :: members) fields
  = check_required members fields.
Proof.
  induction fields as [| f rest IH]; intros Hsub; [reflexivity |].
  cbn [check_required].
  assert (Hf : In f required) by (apply Hsub; now left).
  rewrite lookup_walk_member.
  - rewrite IH; [reflexivity |]. intros g Hg. apply Hsub. now right.
  - intros ->. cbn in Hf. repeat destruct Hf as [Hf | Hf]; try discriminate; contradiction.
  - intros ->. cbn in Hf. repeat destruct Hf as [Hf | Hf]; try discriminate; contradiction.
Qed.

Lemma check_required_first members before field after :
  (forall f, In f before -> truthy (lookup f members) = true) ->
  truthy (lookup field members) = false ->
  check_required members (before ++ field :: after)
  = Throw (Error ("Generated walk missing required field: " ++ field)%string).
Proof.
  intros Hbefore Hfield. induction before as [| f rest IH]; cbn [app check_required].
  - now rewrite Hfield.
  - rewrite (Hbefore f) by now left. cbn [negb]. apply IH.
    intros g Hg. apply Hbefore. now right.
Qed.

Lemma formatWalkData_inv T now walkData walk :
  formatWalkData T now walkData = Ok walk ->
  exists members title lat lng,
    walkData = JObj members /\
    lookup "walk_title" members = Some (JStr title) /\
    (forall f, In f required -> truthy (lookup f members) = true) /\
    get (lookup "location_coords" members) "lat" = Ok lat /\
    get (lookup "location_coords" members) "lng" = Ok lng /\
    truthy lat = true /\
    truthy lng = true /\
    length_less_than T (lookup "highlights" members) 2 = Ok false /\
    length_less_than T (lookup "directions" members) 4 = Ok false /\
    walk = JObj (("id", JStr ("walk-" ++ now)%string)
                 :: ("slug", JStr (slug_of title)) :: members).
Proof.
  intros Hfmt. pose proof Hfmt as Hok.
  apply formatWalkData_Ok in Hok as (members & title & -> & Htitle & -> & Hreq).
  unfold formatWalkData, get at 1 in Hfmt. rewrite Htitle in Hfmt.
  cbn [walk_title_toLowerCase spread] in Hfmt.
  rewrite check_required_members in Hfmt by auto.
  destruct (check_required members required) as [[] | e] eqn:Hcheck; [| discriminate].
  rewrite !lookup_walk_member in Hfmt by discriminate.
  destruct (get (lookup "location_coords" members) "lat") as [lat | e] eqn:Hlat;
    [| discriminate].
  destruct (get (lookup "location_coords" members) "lng") as [lng | e] eqn:Hlng;
    [| discriminate].
  destruct (truthy lat) eqn:Htlat; [| discriminate].
  destruct (truthy lng) eqn:Htlng; [| discriminate].
  cbn [negb orb] in Hfmt.
  destruct (length_less_than T (lookup "highlights" members) 2) as [[] | e] eqn:Hhigh;
    try discriminate.
  destruct (length_less_than T (lookup "directions" members) 4) as [[] | e] eqn:Hdir;
    try discriminate.
  exists members, title, lat, lng. repeat split; auto.
  intros f Hf. now apply (check_required_In members required Hcheck).
Qed.

(** Property X5.  [formatWalkData] accepts a reply exactly when it is an
    object whose walk_title is a string, whose eleven required members are
    all truthy, whose location_coords has truthy lat and lng, and for
    which the tests highlights.length < 2 and directions.length < 4 are
    both evaluated without an exception and are both false; what it
    returns is the reply with the generated id and slug put in front. *)
Theorem formatWalkData_accepts_exactly
    (T : json -> float) (now : string) (walkData walk : json) :
  formatWalkData T now walkData = Ok walk <->
  exists members title lat lng,
    walkData = JObj members /\
    lookup "walk_title" members = Some (JStr title) /\
    (forall f, In f required -> truthy (lookup f members) = true) /\
    get (lookup "location_coords" members) "lat" = Ok lat /\
    get (lookup "location_coords" members) "lng" = Ok lng /\
    truthy lat = true /\
    truthy lng = true /\
    length_less_than T (lookup "highlights" members) 2 = Ok false /\
    length_less_than T (lookup "directions" members) 4 = Ok false /\
    walk = JObj (("id", JStr ("walk-" ++ now)%string)
                 :: ("slug", JStr (slug_of title)) :: members).
Proof.
  split; [apply formatWalkData_inv |].
  intros (members & title & lat & lng & -> & Htitle & Hreq & Hlat & Hlng
          & Htlat & Htlng & Hhigh & Hdir & ->).
  apply formatWalkData_accepts; eauto 10.
Qed.

(** Property X6.  When the title is a string, the error of [formatWalkData]
    names the first required member, in the order of the list, that is
    missing or falsy; the members after it are not looked at. *)
Theorem first_missing_field_is_reported
    (T : json -> float) (now : string) (members : list (string * json))
    (title : string) (before after : list string) (field : string) :
  lookup "walk_title" members = Some (JStr title) ->
  required = before ++ field :: after ->
  (forall f, In f before -> truthy (lookup f members) = true) ->
  truthy (lookup field members) = false ->
  formatWalkData T now (JObj members)
  = Throw (Error ("Generated walk missing required field: " ++ field)%string).
Proof.
  intros Htitle Hsplit Hbefore Hfield.
  unfold formatWalkData, get at 1. rewrite Htitle.
  cbn [walk_title_toLowerCase spread].
  rewrite check_required_members by auto.
  rewrite Hsplit, (check_required_first members before field after Hbefore Hfield).
  reflexivity.
Qed.

Lemma first_missing_field_is_reported_witness :
  formatWalkData (fun _ => nan) "1700000000000"
    (JObj [("walk_title", JStr "Heath to Hearth"); ("area", JStr "Hampstead");
           ("start_point", JStr "Hampstead station")])
  = Throw (Error "Generated walk missing required field: area_short").
Proof.
  apply (first_missing_field_is_reported (fun _ => nan) "1700000000000"
           [("walk_title", JStr "Heath to Hearth"); ("area", JStr "Hampstead");
            ("start_point", JStr "Hampstead station")]
           "Heath to Hearth" ["walk_title"; "area"]
           ["start_point"; "end_pub_name"; "distance_km"; "duration_minutes";
            "highlights"; "landmarks_for_prompt"; "location_coords"; "directions"]
           "area_short").
  - reflexivity.
  - reflexivity.
  - intros f [<- | [<- | []]]; reflexivity.
  - reflexivity.
Defined.

Lemma lookup_front k front members v :
  lookup k members = Some v -> lookup k (front ++ members) = Some v.
Proof.
  intros H. induction front as [| [k' v'] rest IH]; [exact H |].
  cbn [app lookup]. now rewrite IH.
Qed.

(** Property X7.  In the walk that [formatWalkData] returns, every member of
    the reply keeps its value; an id or a slug sent in the reply replaces
    the generated one, which is kept only when the reply has none. *)
Theorem reply_members_win
    (T : json -> float) (now : string) (walkData walk : json) :
  formatWalkData T now walkData = Ok walk ->
  exists members title,
    walkData = JObj members /\
    lookup "walk_title" members = Some (JStr title) /\
    (forall k v, lookup k members = Some v -> get (Some walk) k = Ok (Some v)) /\
    (lookup "id" members = None ->
       get (Some walk) "id" = Ok (Some (JStr ("walk-" ++ now)%string))) /\
    (lookup "slug" members = None ->
       get (Some walk) "slug" = Ok (Some (JStr (slug_of title)))).
Proof.
  intros Hfmt.
  apply formatWalkData_Ok in Hfmt as (members & title & -> & Htitle & -> & _).
  exists members, title. repeat split; auto.
  - intros k v Hk. unfold get. f_equal.
    exact (lookup_front k [("id", JStr ("walk-" ++ now)%string);
                           ("slug", JStr (slug_of title))] members v Hk).
  - intros Hid. unfold get. cbn [lookup]. rewrite Hid. reflexivity.
  - intros Hslug. unfold get. cbn [lookup]. rewrite Hslug. reflexivity.
Qed.

Lemma reply_members_win_witness :
  exists walk,
    formatWalkData (fun _ => nan) "1700000000000"
      (JObj (("id", JStr "walk-from-the-model")
             :: spread (sample_walk "Heath to Hearth" "The Crown"))) = Ok walk /\
    get (Some walk) "id" = Ok (Some (JStr "walk-from-the-model")) /\
    get (Some walk) "slug" = Ok (Some (JStr "heath-to-hearth")).
Proof.
  destruct (formatWalkData (fun _ => nan) "1700000000000"
              (JObj (("id", JStr "walk-from-the-model")
                     :: spread (sample_walk "Heath to Hearth" "The Crown"))))
    as [walk | e] eqn:Hfmt; [| vm_compute in Hfmt; discriminate].
  exists walk. split; [reflexivity |].
  destruct (reply_members_win _ _ _ _ Hfmt)
    as (members & title & [= <-] & Htitle & Hkeep & _ & Hslug).
  split; [apply Hkeep; reflexivity |].
  vm_compute in Htitle. injection Htitle as <-.
  apply Hslug. reflexivity.
Defined.

(** *** The slug *)

Lemma is_a_z_0_9_not_dash c : is_a_z_0_9 c = true -> is_dash c = false.
Proof.
  destruct c as [[] [] [] [] [] [] [] []]; vm_compute; congruence.
Qed.

Lemma lower_slug_char c : is_a_z_0_9 c || is_dash c = true -> lower c = c.
Proof.
  destruct c as [[] [] [] [] [] [] [] []]; vm_compute; congruence.
Qed.

Lemma replace_runs_shape (s : string) (in_run : bool) :
  all_chars (fun c => is_a_z_0_9 c || is_dash c) (replace_runs in_run s) = true /\
  dash_twice (replace_runs in_run s) = false /\
  (in_run = true -> starts_with_dash (replace_runs in_run s) = false).
Proof.
  revert in_run. induction s as [| c rest IH]; intros in_run; [now cbn |].
  cbn [replace_runs]. destruct (is_a_z_0_9 c) eqn:Hc.
  - destruct (IH false) as (Hall & Htwice & _).
    cbn [all_chars dash_twice starts_with_dash].
    rewrite Hc, Hall, Htwice, (is_a_z_0_9_not_dash c Hc). now cbn.
  - destruct (IH true) as (Hall & Htwice & Hstart). specialize (Hstart eq_refl).
    destruct in_run.
    + repeat split; auto.
    + cbn [all_chars dash_twice starts_with_dash].
      rewrite Hall, Htwice, Hstart. repeat split; try discriminate.
Qed.

Lemma drop_last_dash_cons c d rest :
  drop_last_dash (String c (String d rest))
  = String c (drop_last_dash (String d rest)).
Proof. reflexivity. Qed.

Lemma drop_last_dash_all p s :
  all_chars p s = true -> all_chars p (drop_last_dash s) = true.
Proof.
  induction s as [| c rest IH]; [reflexivity |]. intros Hall.
  cbn [all_chars] in Hall. apply andb_true_iff in Hall as [Hc Hall].
  destruct rest as [| d rest'].
  - cbn [drop_last_dash]. destruct (Ascii.eqb c "-"); cbn; [reflexivity |].
    now rewrite Hc.
  - rewrite drop_last_dash_cons. cbn [all_chars]. now rewrite Hc, IH.
Qed.

Lemma drop_last_dash_start s :
  starts_with_dash s = false -> starts_with_dash (drop_last_dash s) = false.
Proof.
  destruct s as [| c [| d rest]]; [reflexivity | |].
  - cbn [drop_last_dash starts_with_dash]. unfold is_dash. intros Hc.
    rewrite Hc. exact Hc.
  - rewrite drop_last_dash_cons. auto.
Qed.

Lemma drop_last_dash_start_inv s :
  starts_with_dash (drop_last_dash s) = true -> starts_with_dash s = true.
Proof.
  destruct (starts_with_dash s) eqn:Hs; [reflexivity |].
  now rewrite (drop_last_dash_start s Hs).
Qed.

Lemma drop_last_dash_twice s :
  dash_twice s = false -> dash_twice (drop_last_dash s) = false.
Proof.
  induction s as [| c rest IH]; [reflexivity |]. intros Htwice.
  cbn [dash_twice] in Htwice. apply orb_false_iff in Htwice as [Hpair Htwice].
  destruct rest as [| d rest'].
  - cbn [drop_last_dash]. destruct (Ascii.eqb c "-"); cbn; [reflexivity |].
    now rewrite andb_false_r.
  - rewrite drop_last_dash_cons. cbn [dash_twice]. rewrite (IH Htwice), orb_false_r.
    destruct (is_dash c); [| reflexivity]. cbn [andb] in Hpair |- *.
    destruct (starts_with_dash (drop_last_dash (String d rest'))) eqn:Hd; [| reflexivity].
    apply drop_last_dash_start_inv in Hd. congruence.
Qed.

Lemma drop_last_dash_end s :
  dash_twice s = false -> ends_with_dash (drop_last_dash s) = false.
Proof.
  induction s as [| c rest IH]; [reflexivity |]. intros Htwice.
  cbn [dash_twice] in Htwice. apply orb_false_iff in Htwice as [Hpair Htwice].
  destruct rest as [| d rest'].
  - cbn [drop_last_dash]. destruct (Ascii.eqb c "-") eqn:Hc; [reflexivity |].
    cbn [ends_with_dash]. exact Hc.
  - rewrite drop_last_dash_cons. specialize (IH Htwice).
    destruct (drop_last_dash (String d rest')) as [| e rest''] eqn:Hdrop.
    + (* the rest was a single dash *)
      destruct rest' as [| e rest'']; [| rewrite drop_last_dash_cons in Hdrop; discriminate].
      cbn [drop_last_dash] in Hdrop.
      destruct (Ascii.eqb d "-") eqn:Hd; [| discriminate].
      cbn [starts_with_dash] in Hpair. unfold is_dash in Hpair at 2.
      rewrite Hd, andb_true_r in Hpair. exact Hpair.
    + exact IH.
Qed.

Lemma strip_dashes_shape (s : string) :
  all_chars (fun c => is_a_z_0_9 c || is_dash c) s = true ->
  dash_twice s = false ->
  slug_shaped (strip_dashes s) = true.
Proof.
  intros Hall Htwice.
  assert (Hshape : forall r,
            all_chars (fun c => is_a_z_0_9 c || is_dash c) r = true ->
            dash_twice r = false -> starts_with_dash r = false ->
            slug_shaped (drop_last_dash r) = true).
  { intros r Hr1 Hr2 Hr3. unfold slug_shaped.
    now rewrite (drop_last_dash_all _ r Hr1), (drop_last_dash_start r Hr3),
      (drop_last_dash_end r Hr2), (drop_last_dash_twice r Hr2). }
  destruct s as [| c rest]; [reflexivity |].
  cbn [strip_dashes]. destruct (Ascii.eqb c "-") eqn:Hc.
  - cbn [all_chars dash_twice] in Hall, Htwice.
    apply andb_true_iff in Hall as [_ Hall].
    apply orb_false_iff in Htwice as [Hpair Htwice].
    unfold is_dash in Hpair at 1. rewrite Hc in Hpair. now apply Hshape.
  - now apply Hshape.
Qed.

Lemma toLowerCase_cons c rest :
  byte_is 196 c = false -> byte_is 226 c = false ->
  toLowerCase (String c rest) = String (lower c) (toLowerCase rest).
Proof.
  intros H196 H226. cbn [toLowerCase]. rewrite H196, H226. cbn [andb].
  destruct rest as [| d [| e rest2]]; reflexivity.
Qed.

Lemma slug_char_is_plain c :
  is_a_z_0_9 c || is_dash c = true -> byte_is 196 c = false /\ byte_is 226 c = false.
Proof.
  destruct c as [[] [] [] [] [] [] [] []]; vm_compute; intuition congruence.
Qed.

Lemma toLowerCase_fixed s :
  all_chars (fun c => is_a_z_0_9 c || is_dash c) s = true -> toLowerCase s = s.
Proof.
  induction s as [| c rest IH]; [reflexivity |]. cbn [all_chars].
  intros [Hc Hall]%andb_true_iff.
  destruct (slug_char_is_plain c Hc) as [H196 H226].
  now rewrite (toLowerCase_cons c rest H196 H226), (lower_slug_char c Hc), IH.
Qed.

Lemma replace_runs_fixed s in_run :
  all_chars (fun c => is_a_z_0_9 c || is_dash c) s = true ->
  dash_twice s = false ->
  (in_run = true -> starts_with_dash s = false) ->
  replace_runs in_run s = s.
Proof.
  revert in_run. induction s as [| c rest IH]; [reflexivity |].
  intros in_run [Hc Hall]%andb_true_iff [Hpair Htwice]%orb_false_iff Hstart.
  cbn [replace_runs]. destruct (is_a_z_0_9 c) eqn:Haz.
  - rewrite IH; auto. discriminate.
  - cbn [orb] in Hc. cbn [starts_with_dash] in Hstart. rewrite Hc in Hpair, Hstart.
    destruct in_run; [specialize (Hstart eq_refl); discriminate |].
    rewrite IH; auto. unfold is_dash in Hc. apply Ascii.eqb_eq in Hc. now subst c.
Qed.

Lemma drop_last_dash_fixed s : ends_with_dash s = false -> drop_last_dash s = s.
Proof.
  induction s as [| c rest IH]; [reflexivity |]. intros Hend.
  destruct rest as [| d rest'].
  - cbn [ends_with_dash] in Hend. cbn [drop_last_dash]. unfold is_dash in Hend.
    now rewrite Hend.
  - rewrite drop_last_dash_cons, IH; [reflexivity |]. exact Hend.
Qed.

Lemma strip_dashes_fixed s :
  starts_with_dash s = false -> ends_with_dash s = false -> strip_dashes s = s.
Proof.
  intros Hstart Hend. destruct s as [| c rest]; [reflexivity |].
  cbn [strip_dashes]. cbn [starts_with_dash] in Hstart. unfold is_dash in Hstart.
  rewrite Hstart. now apply drop_last_dash_fixed.
Qed.

Lemma slug_shaped_fixed s : slug_shaped s = true -> slug_of s = s.
Proof.
  unfold slug_shaped, slug_of.
  intros [[[Hall Hstart]%andb_true_iff Hend]%andb_true_iff Htwice]%andb_true_iff.
  apply negb_true_iff in Hstart, Hend, Htwice.
  rewrite (toLowerCase_fixed s Hall), (replace_runs_fixed s false Hall Htwice)
    by discriminate.
  now apply strip_dashes_fixed.
Qed.

Lemma replace_runs_empty s in_run :
  all_chars (fun c => negb (is_a_z_0_9 c)) s = true ->
  strip_dashes (replace_runs in_run s) = EmptyString.
Proof.
  destruct s as [| c rest]; [reflexivity |].
  cbn [all_chars]. intros [Hc Hall]%andb_true_iff.
  apply negb_true_iff in Hc. cbn [replace_runs]. rewrite Hc.
  assert (Hrest : forall r, all_chars (fun c => negb (is_a_z_0_9 c)) r = true ->
                            replace_runs true r = EmptyString).
  { induction r as [| d r IH]; [reflexivity |]. cbn [all_chars replace_runs].
    intros [Hd Hr]%andb_true_iff. apply negb_true_iff in Hd. rewrite Hd. auto. }
  rewrite (Hrest rest Hall). now destruct in_run.
Qed.

Lemma drop_last_dash_keeps c s :
  is_a_z_0_9 c = true -> drop_last_dash (String c s) <> EmptyString.
Proof.
  intros Hc. destruct s as [| d rest].
  - cbn [drop_last_dash]. apply is_a_z_0_9_not_dash in Hc. unfold is_dash in Hc.
    now rewrite Hc.
  - now rewrite drop_last_dash_cons.
Qed.

Lemma replace_runs_not_empty s in_run :
  all_chars (fun c => negb (is_a_z_0_9 c)) s = false ->
  (in_run = true \/ starts_with_dash (replace_runs in_run s) = false ->
   drop_last_dash (replace_runs in_run s) <> EmptyString) /\
  strip_dashes (replace_runs in_run s) <> EmptyString.
Proof.
  revert in_run. induction s as [| c rest IH]; [discriminate |].
  intros in_run Hsome. cbn [all_chars] in Hsome. cbn [replace_runs].
  destruct (is_a_z_0_9 c) eqn:Hc.
  - split; [intros _; now apply drop_last_dash_keeps |].
    cbn [strip_dashes]. apply is_a_z_0_9_not_dash in Hc as Hdash.
    unfold is_dash in Hdash. rewrite Hdash. now apply drop_last_dash_keeps.
  - cbn [negb andb] in Hsome. destruct (IH true Hsome) as [Hdrop Hstrip].
    specialize (Hdrop (or_introl eq_refl)).
    destruct in_run.
    + split; [intros _; exact Hdrop | exact Hstrip].
    + split.
      * intros [Hf | Hf]; [discriminate | cbn in Hf; discriminate].
      * cbn [strip_dashes]. exact Hdrop.
Qed.

(** Property X8.  The slug that [formatWalkData] builds from a title is made
    of the characters a-z, 0-9 and the dash only, neither starts nor ends
    with a dash and has no two dashes in a row; building the slug of a slug
    changes nothing; and the slug is empty exactly when the lower-cased
    title has no letter and no digit. *)
Theorem slug_of_shape (title : string) :
  slug_shaped (slug_of title) = true /\
  slug_of (slug_of title) = slug_of title /\
  (slug_of title = EmptyString <->
   all_chars (fun c => negb (is_a_z_0_9 c)) (toLowerCase title) = true).
Proof.
  assert (Hshape : slug_shaped (slug_of title) = true).
  { unfold slug_of.
    destruct (replace_runs_shape (toLowerCase title) false) as (Hall & Htwice & _).
    now apply strip_dashes_shape. }
  split; [exact Hshape |]. split; [now apply slug_shaped_fixed |].
  unfold slug_of. split.
  - intros Hempty.
    destruct (all_chars (fun c => negb (is_a_z_0_9 c)) (toLowerCase title)) eqn:Hsome;
      [reflexivity |].
    now destruct (proj2 (replace_runs_not_empty (toLowerCase title) false Hsome)).
  - apply replace_runs_empty.
Qed.

(** *** The runs of generateBestWalk *)

Lemma generator_runs_frame E :
  forall n w,
    posts_jsonl (snd (generator_runs E n w)) = posts_jsonl w /\
    (exists evs,
       trace (snd (generator_runs E n w)) = trace w ++ evs /\
       Forall (fun ev => is_generator_event ev = true) evs /\
       chats evs <= 5 * n) /\
    (forall walk, In (Ok walk) (fst (generator_runs E n w)) ->
                  accepted (usedPubs_of (posts_jsonl w)) walk).
Proof.
  induction n as [| n IH]; intros w.
  - cbn. split; [reflexivity |]. split; [| contradiction].
    exists []. rewrite app_nil_r. repeat split; auto.
  - cbn [generator_runs].
    destruct (generateWalk E 5 1 w) as [r w1] eqn:Hrun.
    destruct (generateWalk_spec E 5 5 1 w r w1 eq_refl Hrun)
      as (Hlog & evs & Htrace & Hevs & Hchats & Hres).
    destruct (IH w1) as (Hlog' & (evs' & Htrace' & Hevs' & Hchats') & Hacc).
    destruct (generator_runs E n w1) as [rs w2]. cbn [fst snd] in *.
    split; [congruence |]. split.
    + exists (evs ++ evs'). rewrite Htrace', Htrace, <- app_assoc.
      split; [reflexivity |]. split; [now apply Forall_app |].
      rewrite chats_app. lia.
    + intros walk [-> | Hin].
      * now destruct Hres as (Hwalk & _).
      * rewrite <- Hlog. now apply Hacc.
Qed.

Lemma first_success_In rs walk : first_success rs = Some walk -> In (Ok walk) rs.
Proof.
  induction rs as [| [walk' | e] rest IH]; cbn; [discriminate | |].
  - intros [= ->]. now left.
  - intros H. right. auto.
Qed.

Lemma generateBestWalk_effects E n w :
  posts_jsonl (snd (generateBestWalk E n w)) = posts_jsonl w /\
  (exists evs,
     trace (snd (generateBestWalk E n w)) = trace w ++ evs /\
     Forall (fun ev => is_generator_event ev = true) evs /\
     chats evs <= 5 * n) /\
  match fst (generateBestWalk E n w) with
  | Ok walk => accepted (usedPubs_of (posts_jsonl w)) walk
  | Throw e => e = no_walks
  end.
Proof.
  rewrite generateBestWalk_runs. cbn [fst snd].
  destruct (generator_runs_frame E n w) as (Hlog & Hevs & Hacc).
  repeat split; auto.
  destruct (first_success (fst (generator_runs E n w))) as [walk |] eqn:Hfirst;
    [| reflexivity].
  apply Hacc. now apply first_success_In.
Qed.

(** Property X9.  [generateBestWalk(n)] never writes the log: its effects are
    reads of the log and chat completions only, with at most 5 n calls of
    the collaborator in all.  The walk it returns is an object whose
    end_pub_name is truthy and absent from the used pubs of the log; the
    only error it throws is 'Failed to generate any walks', whatever the
    runs threw. *)
Theorem generateBestWalk_frame (E : env) (n : nat) (w : world) :
  posts_jsonl (snd (generateBestWalk E n w)) = posts_jsonl w /\
  Forall (fun ev => is_generator_event ev = true)
         (since w (snd (generateBestWalk E n w))) /\
  chats (since w (snd (generateBestWalk E n w))) <= 5 * n /\
  match fst (generateBestWalk E n w) with
  | Ok walk => accepted (usedPubs_of (posts_jsonl w)) walk
  | Throw e => e = no_walks
  end.
Proof.
  destruct (generateBestWalk_effects E n w)
    as (Hlog & (evs & Htrace & Hevs & Hchats) & Hres).
  rewrite (since_app _ _ _ Htrace). auto.
Qed.

(** *** What the generator hands over *)

Lemma formatWalkData_valid T now walkData walk :
  formatWalkData T now walkData = Ok walk -> valid_walk T walk.
Proof.
  intros Hfmt.
  apply formatWalkData_inv in Hfmt
    as (members & title & lat & lng & -> & Htitle & Hreq & Hlat & Hlng
        & Htlat & Htlng & Hhigh & Hdir & ->).
  exists (("id", JStr ("walk-" ++ now)%string) :: ("slug", JStr (slug_of title)) :: members),
    title, lat, lng.
  rewrite (lookup_walk_member "walk_title"), (lookup_walk_member "location_coords"),
    (lookup_walk_member "highlights"), (lookup_walk_member "directions")
    by discriminate.
  split; [reflexivity |].
  split; [cbn [lookup]; destruct (lookup "id" members); [discriminate |];
          cbn; discriminate |].
  split; [cbn [lookup]; destruct (lookup "slug" members); discriminate |].
  repeat split; auto.
  intros f Hf. rewrite lookup_walk_member; auto.
  - intros ->. cbn in Hf. repeat destruct Hf as [Hf | Hf]; try discriminate; contradiction.
  - intros ->. cbn in Hf. repeat destruct Hf as [Hf | Hf]; try discriminate; contradiction.
Qed.

Lemma one_attempt_valid E w walk w' :
  one_attempt E w = (Ok (Some walk), w') -> valid_walk (ToNumber E) walk.
Proof.
  rewrite one_attempt_eq. cbv zeta.
  destruct (existsb to_string_throws _); [discriminate |].
  destruct (negb (openaiClient w) && negb (env_set (OPENAI_API_KEY E))); [discriminate |].
  destruct (chat_completions_create E _ _) as [content | reason]; [| discriminate].
  destruct (JSON_parse content) as [walkData | e]; [| discriminate].
  destruct (get (Some walkData) "end_pub_name") as [name | e]; [| discriminate].
  destruct (includes _ name); [discriminate |].
  destruct (formatWalkData _ _ walkData) as [walk0 | e] eqn:Hfmt; [| discriminate].
  intros [= <- <-]. eapply formatWalkData_valid; eauto.
Qed.

Lemma generateWalk_valid E k a w walk w' :
  generateWalk E k a w = (Ok walk, w') -> valid_walk (ToNumber E) walk.
Proof.
  intros Hrun.
  destruct (generateWalk_spec E k _ a w _ _ eq_refl Hrun)
    as (_ & _ & _ & _ & _ & _ & _ & (w_last & Hlast)).
  eapply one_attempt_valid; eauto.
Qed.

Lemma generator_runs_valid E :
  forall n w walk,
    In (Ok walk) (fst (generator_runs E n w)) -> valid_walk (ToNumber E) walk.
Proof.
  induction n as [| n IH]; intros w walk; [contradiction |].
  cbn [generator_runs].
  destruct (generateWalk E 5 1 w) as [r w1] eqn:Hrun.
  specialize (IH w1 walk). destruct (generator_runs E n w1) as [rs w2].
  cbn [fst] in *. intros [-> | Hin]; [| auto].
  eapply generateWalk_valid; eauto.
Qed.

Lemma generateBestWalk_valid E n w walk :
  fst (generateBestWalk E n w) = Ok walk -> valid_walk (ToNumber E) walk.
Proof.
  rewrite generateBestWalk_runs. cbn [fst].
  destruct (first_success (fst (generator_runs E n w))) as [walk0 |] eqn:Hfirst;
    [| discriminate].
  intros [= <-]. apply first_success_In in Hfirst.
  eapply generator_runs_valid; eauto.
Qed.

Lemma length_at_least T v n :
  length_less_than T v n = Ok false ->
  (forall items, v = Some (JArr items) -> n <= List.length items) /\
  (forall s, v = Some (JStr s) -> n <= utf16_length s).
Proof.
  intros Hlen. split.
  - intros items ->. cbn in Hlen. injection Hlen as Hlen.
    now apply Nat.ltb_ge in Hlen.
  - intros s ->. cbn in Hlen. injection Hlen as Hlen.
    now apply Nat.ltb_ge in Hlen.
Qed.

(** Property X10.  Every walk that [generateWalk] or [generateBestWalk]
    returns has passed [formatWalkData]: it is an object with an id and a
    slug, its walk_title is a string, its eleven required members are
    truthy, its location has truthy lat and lng, and the tests
    highlights.length < 2 and directions.length < 4 are false on it.  So
    highlights that are an array have at least 2 items and directions that
    are an array at least 4 (as many code units when they are strings); a
    number or a boolean in their place has no length and passes as well.
    No reply of the collaborator gets round the validation. *)
Theorem generated_walks_are_valid (E : env) (w : world) (walk : json) :
  (forall k a, fst (generateWalk E k a w) = Ok walk -> valid_walk (ToNumber E) walk) /\
  (forall n, fst (generateBestWalk E n w) = Ok walk -> valid_walk (ToNumber E) walk) /\
  (valid_walk (ToNumber E) walk ->
   exists members,
     walk = JObj members /\
     (forall items, lookup "highlights" members = Some (JArr items) ->
                    2 <= List.length items) /\
     (forall s, lookup "highlights" members = Some (JStr s) -> 2 <= utf16_length s) /\
     (forall items, lookup "directions" members = Some (JArr items) ->
                    4 <= List.length items) /\
     (forall s, lookup "directions" members = Some (JStr s) -> 4 <= utf16_length s)) /\
  (forall n x b,
     length_less_than (ToNumber E) (Some (JNum x)) n = Ok false /\
     length_less_than (ToNumber E) (Some (JBool b)) n = Ok false).
Proof.
  split; [| split; [| split]].
  - intros k a Hok. destruct (generateWalk E k a w) as [r w'] eqn:Hrun.
    cbn [fst] in Hok. subst r. eapply generateWalk_valid; eauto.
  - intros n. apply generateBestWalk_valid.
  - intros (members & title & lat & lng & -> & _ & _ & _ & _ & _ & _ & _ & _
            & Hhigh & Hdir).
    exists members. split; [reflexivity |].
    destruct (length_at_least _ _ _ Hhigh) as (Hhigh1 & Hhigh2).
    destruct (length_at_least _ _ _ Hdir) as (Hdir1 & Hdir2).
    repeat split; auto.
  - intros n x b. split; reflexivity.
Qed.

Lemma generated_walks_are_valid_witness :
  exists walk,
    fst (generateBestWalk anchor_stub 1 fresh_world) = Ok walk /\
    valid_walk (ToNumber anchor_stub) walk.
Proof.
  destruct (fst (generateBestWalk anchor_stub 1 fresh_world)) as [walk | e] eqn:Hrun;
    [| vm_compute in Hrun; discriminate].
  exists walk. split; [reflexivity |].
  exact (proj1 (proj2 (generated_walks_are_valid anchor_stub fresh_world walk)) 1 Hrun).
Defined.

Lemma fetchWeatherSummary_valid E T walk w :
  valid_walk T walk ->
  fetchWeatherSummary E walk w = (Ok (weather_service E (trace w) walk), w).
Proof.
  intros (members & title & lat & lng & -> & _ & _ & _ & _ & Hlat & _).
  unfold fetchWeatherSummary, bind, lift, history, ret.
  unfold get at 1. now rewrite Hlat.
Qed.

(** Property X11.  The weather step cannot fail a run: on a walk that the
    generator returned, [fetchWeatherSummary] does not throw.  When steps
    1 to 4 of the pipeline throw, either no walk was generated (the error
    is 'Failed to generate any walks', and no image was asked for), or
    [buildCaption] threw on the generated walk, or the generation of the
    image was rejected. *)
Theorem content_failures (E : env) (w w1 : world) (e : error) :
  generate_content E w = (Throw e, w1) ->
  (e = no_walks /\ ~ In EvImage (since w w1)) \/
  (exists walk w0,
     generateBestWalk E 1 w = (Ok walk, w0) /\
     fetchWeatherSummary E walk w0 = (Ok (weather_service E (trace w0) walk), w0) /\
     (buildCaption E walk (weather_service E (trace w0) walk) = Throw e /\ w1 = w0 \/
      exists caption reason,
        buildCaption E walk (weather_service E (trace w0) walk) = Ok caption /\
        generateIllustration E (trace w0) walk (weather_service E (trace w0) walk)
          = Rejected reason /\
        e = External reason /\
        w1 = record EvImage w0)).
Proof.
  unfold generate_content, bind at 1.
  destruct (generateBestWalk E 1 w) as [[walk | e0] w0] eqn:Hbest.
  - pose proof (generateBestWalk_valid E 1 w walk) as Hvalid.
    rewrite Hbest in Hvalid. specialize (Hvalid eq_refl).
    pose proof (fetchWeatherSummary_valid E _ walk w0 Hvalid) as Hweather.
    unfold bind at 1. rewrite Hweather.
    intros Hrun. right. exists walk, w0. split; [reflexivity |]. split; [exact Hweather |].
    revert Hrun. unfold bind, lift.
    destruct (buildCaption E walk _) as [caption | e1]; [| intros [= <- <-]; now left].
    unfold generateIllustration_call, bind, history, emit, await, ret, throw.
    cbn [trace record].
    destruct (generateIllustration E _ walk _) as [image | reason] eqn:Himage;
      [discriminate |].
    intros [= <- <-]. right. exists caption, reason. repeat split; auto.
  - intros [= <- <-].
    destruct (generateBestWalk_effects E 1 w) as (_ & (evs & Htrace & Hevs & _) & Hres).
    rewrite Hbest in Htrace, Hres. cbn [fst snd] in Htrace, Hres.
    left. split; [exact Hres |].
    rewrite (since_app _ _ _ Htrace).
    intros Hin. rewrite Forall_forall in Hevs. specialize (Hevs _ Hin). discriminate.
Qed.

Lemma content_failures_witness :
  exists w1,
    generate_content crown_stub crown_logged = (Throw no_walks, w1) /\
    ~ In EvImage (since crown_logged w1).
Proof.
  destruct (generate_content crown_stub crown_logged) as [[content | e] w1] eqn:Hcontent;
    [vm_compute in Hcontent; discriminate |].
  exists w1.
  destruct (content_failures crown_stub crown_logged w1 e Hcontent)
    as [(-> & Hquiet) | (walk & w0 & Hbest & _)].
  - split; [reflexivity | exact Hquiet].
  - vm_compute in Hbest. discriminate.
Defined.

(** *** The effects of a run, in order *)

Lemma generate_content_trace E w r w1 :
  generate_content E w = (r, w1) ->
  exists gen,
    Forall (fun ev => is_generator_event ev = true) gen /\
    chats gen <= 5 /\
    ((trace w1 = trace w ++ gen /\ exists e, r = Throw e) \/
     trace w1 = trace w ++ gen ++ [EvImage]).
Proof.
  unfold generate_content, bind. rewrite generateBestWalk_one.
  destruct (generateWalk E 5 1 w) as [[walk | e] w0] eqn:Hgen;
    destruct (generateWalk_spec E 5 5 1 w _ _ eq_refl Hgen)
      as (_ & gen & Htrace & Hgen_evs & Hchats & _);
    cbn in Hchats.
  2:{ intros [= <- <-]. exists gen. repeat split; eauto. }
  unfold fetchWeatherSummary, bind, lift, history, ret.
  destruct (get (Some walk) "location_coords") as [coords | e];
    [| intros [= <- <-]; exists gen; repeat split; eauto].
  destruct (get coords "lat") as [lat | e];
    [| intros [= <- <-]; exists gen; repeat split; eauto].
  destruct (buildCaption E walk _) as [caption | e];
    [| intros [= <- <-]; exists gen; repeat split; eauto].
  unfold generateIllustration_call, bind, history, emit, await, ret, throw.
  destruct (generateIllustration E _ _ _) as [image | reason];
    intros [= <- <-]; exists gen; (split; [exact Hgen_evs |]); (split; [exact Hchats |]);
    right; cbn; rewrite Htrace, <- app_assoc; reflexivity.
Qed.

(** Property X12.  The effects of one run of [publishSundayWalkPost] come in
    a fixed order: reads of the log and at most five chat completions;
    then at most one image generation; then, in development mode, one
    write of the caption file, or, in production mode, at most one
    container creation, at most one media_publish and at most one append
    to the log, each only after the one before succeeded.  A run that
    returns a record has written the caption file, or has had its
    media_publish succeed. *)
Theorem run_effects_in_order (E : env) (w : world) :
  exists gen tail,
    since w (snd (publishSundayWalkPost E w)) = gen ++ tail /\
    Forall (fun ev => is_generator_event ev = true) gen /\
    chats gen <= 5 /\
    (tail = [] \/
     tail = [EvImage] \/
     (is_development E = true /\ tail = [EvImage; EvWriteCaption]) \/
     (is_development E = false /\
      (tail = [EvImage; EvCreateContainer] \/
       tail = [EvImage; EvCreateContainer; EvMediaPublish false] \/
       tail = [EvImage; EvCreateContainer; EvMediaPublish true] \/
       exists line,
         tail = [EvImage; EvCreateContainer; EvMediaPublish true; EvAppendLog line]))) /\
    (forall o, fst (publishSundayWalkPost E w) = Ok o ->
       tail = [EvImage; EvWriteCaption] \/
       tail = [EvImage; EvCreateContainer; EvMediaPublish true] \/
       exists line,
         tail = [EvImage; EvCreateContainer; EvMediaPublish true; EvAppendLog line]).
Proof.
  rewrite publishSundayWalkPost_eq.
  destruct (generate_content E w) as [r w1] eqn:Hcontent.
  destruct (generate_content_trace E w r w1 Hcontent)
    as (gen & Hgen & Hchats & Htrace).
  exists gen.
  destruct r as [[[walk caption] image] | e]; cbn [fst snd].
  2:{ destruct Htrace as [(Htrace & _) | Htrace].
      - exists []. rewrite (since_app w w1 gen Htrace), app_nil_r.
        repeat split; auto 10; discriminate.
      - exists [EvImage]. rewrite (since_app w w1 _ Htrace).
        repeat split; auto 10; discriminate. }
  destruct Htrace as [(_ & e & He) | Htrace]; [discriminate |].
  destruct (is_development E) eqn:Hmode.
  - destruct (save_for_review E walk caption image w1) as [r w2] eqn:Hsave.
    apply save_for_review_cases in Hsave as (-> & _).
    exists [EvImage; EvWriteCaption]. cbn [snd fst].
    rewrite (since_app w (record EvWriteCaption w1) (gen ++ [EvImage; EvWriteCaption])).
    + repeat split; auto.
    + cbn. rewrite Htrace, <- !app_assoc. reflexivity.
  - destruct (publish_and_log E walk caption image w1) as [r w2] eqn:Hrun.
    apply publish_and_log_cases in Hrun. cbn [fst snd].
    destruct (postToInstagram E _ _ caption w1) as [[result | e] w3] eqn:Hpost;
      apply postToInstagram_cases in Hpost
        as (_ & [(Hr & Hw) | [(reason & Hr & Hw)
                 | [(reason & Hr & Hw) | (data & Hr & Hw)]]]);
      try discriminate.
    + (* published *)
      destruct (logPost E (Some walk) result w3) as [r3 w4] eqn:Hlog.
      assert (Hw2 : w2 = w4) by (destruct r3; tauto).
      apply logPost_cases in Hlog as [(Hw4 & Hr3) | (line & _ & _ & _ & Hline & _)].
      * exists [EvImage; EvCreateContainer; EvMediaPublish true].
        rewrite (since_app w w2 (gen ++ [EvImage; EvCreateContainer; EvMediaPublish true])).
        -- repeat split; auto. right. right. right. split; auto.
        -- subst. cbn. rewrite Htrace, <- !app_assoc. reflexivity.
      * exists [EvImage; EvCreateContainer; EvMediaPublish true; EvAppendLog line].
        rewrite (since_app w w2
                   (gen ++ [EvImage; EvCreateContainer; EvMediaPublish true;
                            EvAppendLog line])).
        -- repeat split; eauto 10.
        -- subst w2. rewrite Hline. subst w3. cbn. rewrite Htrace, <- !app_assoc.
           reflexivity.
    + (* no credentials *)
      destruct Hrun as (-> & ->). subst w3.
      exists [EvImage]. rewrite (since_app w w1 _ Htrace).
      repeat split; auto 10; discriminate.
    + destruct Hrun as (-> & ->). subst w3.
      exists [EvImage; EvCreateContainer].
      rewrite (since_app w (record EvCreateContainer w1) (gen ++ [EvImage; EvCreateContainer])).
      * repeat split; auto 10; discriminate.
      * cbn. rewrite Htrace, <- !app_assoc. reflexivity.
    + destruct Hrun as (-> & ->). subst w3.
      exists [EvImage; EvCreateContainer; EvMediaPublish false].
      rewrite (since_app w _ (gen ++ [EvImage; EvCreateContainer; EvMediaPublish false])).
      * repeat split; auto 10; discriminate.
      * cbn. rewrite Htrace, <- !app_assoc. reflexivity.
Qed.

(** *** Publishing without logging *)

Lemma logPost_unappendable E members result id w :
  get result "id" = Ok id ->
  can_append (posts_jsonl w) = false ->
  logPost E (Some (JObj members)) result w = (Ok tt, w).
Proof.
  intros Hid Hfile. unfold logPost, bind, history, lift.
  unfold get at 1 2 3 4 5. rewrite Hid.
  match goal with
  | |- context [appendFile ?f ?l] =>
      destruct (appendFile f l) as [f' | e] eqn:Happend; [| reflexivity];
        assert (Hcan : can_append f = true)
          by (apply (can_append_appendFile f l); eauto)
  end.
  congruence.
Qed.

Lemma logPost_without_id E walk result e w :
  get result "id" = Throw e ->
  exists e', logPost E walk result w = (Throw e', w).
Proof.
  intros Hid. unfold logPost, bind, history, lift.
  destruct (get walk "id"); [| eauto].
  destruct (get walk "walk_title"); [| eauto].
  destruct (get walk "slug"); [| eauto].
  destruct (get walk "end_pub_name"); [| eauto].
  destruct (get walk "area_short"); [| eauto].
  rewrite Hid. eauto.
Qed.

Lemma published_trace E w w1 w2 walk caption image result :
  generate_content E w = (Ok (walk, caption, image), w1) ->
  postToInstagram E (url image) (localPath image) caption w1 = (Ok result, w2) ->
  posts_jsonl w2 = posts_jsonl w /\
  (exists members, walk = JObj members) /\
  exists pre,
    Forall (fun ev => is_append ev = false) pre /\
    since w w2 = pre ++ [EvCreateContainer; EvMediaPublish true].
Proof.
  intros Hcontent Hpost.
  destruct (generate_content_cases E w _ _ Hcontent)
    as (Hlog & evs & Htrace & Hevs & (members & -> & _) & _).
  destruct (is_content_event_quiet evs Hevs) as (Happ & _ & _).
  apply postToInstagram_cases in Hpost
    as (Hlog2 & [(? & _) | [(? & ? & _) | [(? & ? & _) | (data & [= <-] & ->)]]]);
    try discriminate.
  split; [congruence |]. split; [eauto |].
  exists evs. split; [exact Happ |].
  apply since_app. cbn. rewrite Htrace, <- !app_assoc. reflexivity.
Qed.

(** Property X13.  A log that cannot be appended to, because it is
    read-only, out of reach, or absent where it cannot be created, does
    not fail the run: in production mode,
    once media_publish has succeeded with a result whose id can be read,
    [logPost] swallows the failure of the append, the run returns the
    production record, the log is as it was and nothing has been appended.
    The pub just published is therefore still absent from the used pubs,
    whatever else the log lets them be. *)
Theorem unwritable_log_is_not_reported
    (E : env) (w w1 w2 : world) (walk : json) (caption : string)
    (image : illustration) (result id : value) :
  can_append (posts_jsonl w) = false ->
  is_development E = false ->
  generate_content E w = (Ok (walk, caption, image), w1) ->
  postToInstagram E (url image) (localPath image) caption w1 = (Ok result, w2) ->
  get result "id" = Ok id ->
  exists title pub,
    publishSundayWalkPost E w
      = (Ok (mkOutcome true "production" title undefined id), w2) /\
    posts_jsonl w2 = posts_jsonl w /\
    Forall (fun ev => is_append ev = false) (since w w2) /\
    In (EvMediaPublish true) (since w w2) /\
    get (Some walk) "end_pub_name" = Ok pub /\
    truthy pub = true /\
    includes (usedPubs_of (posts_jsonl w2)) pub = false.
Proof.
  intros Hfile Hmode Hcontent Hpost Hid.
  destruct (published_trace E w w1 w2 walk caption image result Hcontent Hpost)
    as (Hlog & _ & pre & Hpre & Hsince).
  destruct (generate_content_cases E w _ _ Hcontent)
    as (_ & _ & _ & _ & (members & -> & Hinc & Htruthy) & _).
  exists (lookup "walk_title" members), (lookup "end_pub_name" members).
  split; [| split; [exact Hlog | split; [| split; [| split; [| split]]]]].
  - rewrite publishSundayWalkPost_eq, Hcontent, Hmode.
    unfold publish_and_log, bind. rewrite Hpost.
    rewrite (logPost_unappendable E members result id w2 Hid) by (now rewrite Hlog).
    unfold lift, ret. rewrite Hid. reflexivity.
  - rewrite Hsince. apply Forall_app. split; [exact Hpre | each_event].
  - rewrite Hsince. apply in_or_app. right. cbn. auto.
  - reflexivity.
  - exact Htruthy.
  - now rewrite Hlog.
Qed.

(** The Crown is in a read-only log: The Anchor is published, the run
    reports success, and the log still holds The Crown alone. *)
Lemma unwritable_log_is_not_reported_witness :
  exists title w2,
    publishSundayWalkPost anchor_stub read_only_log
      = (Ok (mkOutcome true "production" title undefined (Some (JStr "post-1"))), w2) /\
    posts_jsonl w2 = posts_jsonl read_only_log /\
    In (EvMediaPublish true) (since read_only_log w2) /\
    usedPubs_of (posts_jsonl w2) = [JStr "The Crown"].
Proof.
  destruct (generate_content anchor_stub read_only_log)
    as [[[[walk caption] image] | e] w1] eqn:Hcontent;
    [| vm_compute in Hcontent; discriminate].
  destruct (postToInstagram anchor_stub (url image) (localPath image) caption w1)
    as [[result | e] w2] eqn:Hpost;
    [| vm_compute in Hcontent; injection Hcontent as <- <- <- <-;
       vm_compute in Hpost; discriminate].
  assert (Hid : get result "id" = Ok (Some (JStr "post-1"))).
  { vm_compute in Hcontent. injection Hcontent as <- <- <- <-.
    vm_compute in Hpost. injection Hpost as <- <-. reflexivity. }
  destruct (unwritable_log_is_not_reported anchor_stub read_only_log w1 w2 walk caption
              image result (Some (JStr "post-1")) eq_refl eq_refl Hcontent Hpost Hid)
    as (title & pub & Hrun & Hlog & _ & Hpub & _).
  exists title, w2. repeat split; try assumption.
  rewrite Hlog. reflexivity.
Defined.

(** Property X14.  A media_publish that succeeds is not always recorded: when
    its result is null or undefined, reading the post id in [logPost]
    throws before the append is tried, so the run throws although the
    post has been published, and the log is as it was. *)
Theorem published_without_id_fails
    (E : env) (w w1 w2 : world) (walk : json) (caption : string)
    (image : illustration) (result : value) (e : error) :
  is_development E = false ->
  generate_content E w = (Ok (walk, caption, image), w1) ->
  postToInstagram E (url image) (localPath image) caption w1 = (Ok result, w2) ->
  get result "id" = Throw e ->
  (result = None \/ result = Some JNull) /\
  (exists e', publishSundayWalkPost E w = (Throw e', w2)) /\
  posts_jsonl w2 = posts_jsonl w /\
  Forall (fun ev => is_append ev = false) (since w w2) /\
  In (EvMediaPublish true) (since w w2).
Proof.
  intros Hmode Hcontent Hpost Hid.
  destruct (published_trace E w w1 w2 walk caption image result Hcontent Hpost)
    as (Hlog & _ & pre & Hpre & Hsince).
  split; [| split; [| split; [exact Hlog | split]]].
  - unfold get in Hid. destruct result as [[] |]; try discriminate; auto.
  - destruct (logPost_without_id E (Some walk) result e w2 Hid) as (e' & Hlogged).
    exists e'. rewrite publishSundayWalkPost_eq, Hcontent, Hmode.
    unfold publish_and_log, bind. now rewrite Hpost, Hlogged.
  - rewrite Hsince. apply Forall_app. split; [exact Hpre | each_event].
  - rewrite Hsince. apply in_or_app. right. cbn. auto.
Qed.

Lemma published_without_id_fails_witness :
  exists e' w2,
    publishSundayWalkPost null_body_stub fresh_world = (Throw e', w2) /\
    posts_jsonl w2 = NoFile /\
    In (EvMediaPublish true) (since fresh_world w2).
Proof.
  destruct (generate_content null_body_stub fresh_world)
    as [[[[walk caption] image] | e] w1] eqn:Hcontent;
    [| vm_compute in Hcontent; discriminate].
  destruct (postToInstagram null_body_stub (url image) (localPath image) caption w1)
    as [[result | e] w2] eqn:Hpost;
    [| vm_compute in Hcontent; injection Hcontent as <- <- <- <-;
       vm_compute in Hpost; discriminate].
  assert (Hid : get result "id"
                = Throw (TypeError "Cannot read properties of null (reading 'id')")).
  { vm_compute in Hcontent. injection Hcontent as <- <- <- <-.
    vm_compute in Hpost. injection Hpost as <- <-. reflexivity. }
  destruct (published_without_id_fails null_body_stub fresh_world w1 w2 walk caption
              image result _ eq_refl Hcontent Hpost Hid)
    as (_ & (e' & Hrun) & Hlog & _ & Hpub).
  exists e', w2. repeat split; assumption.
Defined.

(** *** What the log remembers *)

Lemma run_keeps_names E w s :
  well_formed (posts_jsonl w) ->
  In s (pub_names (posts_jsonl w)) ->
  well_formed (posts_jsonl (snd (publishSundayWalkPost E w))) /\
  In s (pub_names (posts_jsonl (snd (publishSundayWalkPost E w)))).
Proof.
  intros Hwf Hin.
  destruct (run_cases E w) as (evs & _ & [(-> & _) | Happend]); [now split |].
  destruct Happend as (walk & caption & image & w1 & result & w2 & line & pre & members
                       & _ & _ & _ & Happend & Hrec & _).
  apply (appendFile_lines _ _ _ (proj1 Hwf)) in Happend as ->. split.
  - split; [right; eauto |]. cbn [log_lines all_lines].
    apply Forall_app. split; [apply Hwf | repeat constructor; exact Hrec].
  - unfold pub_names. cbn [log_lines all_lines]. rewrite map_app, strings_of_app.
    apply in_or_app. now left.
Qed.

Lemma triggers_keep_names Es s :
  forall w,
    well_formed (posts_jsonl w) ->
    In s (pub_names (posts_jsonl w)) ->
    well_formed (posts_jsonl (triggers Es w)) /\
    In s (pub_names (posts_jsonl (triggers Es w))).
Proof.
  induction Es as [| E rest IH]; intros w Hwf Hin; [now split |].
  cbn [triggers]. destruct (run_keeps_names E w s Hwf Hin). now apply IH.
Qed.

(** Property X15.  In a well-formed log (absent where it can be created,
    or read and written, ended by a newline, with an object on every
    line), a pub name that is
    not empty, once recorded, stays used: after any number of runs of the
    pipeline, whatever the collaborators answer, the log is well formed,
    the name is still recorded and [getUsedPubs] still returns it; no run
    of [generateWalk] then returns a walk that ends at that pub, and no
    run of the pipeline appends it again.  (What the final newline is
    needed for is shown by the example an_append_without_newline_is_glued.) *)
Theorem logged_pub_is_never_proposed_again (Es : list env) (w : world) (s : string) :
  well_formed (posts_jsonl w) ->
  In s (pub_names (posts_jsonl w)) ->
  s <> "" ->
  well_formed (posts_jsonl (triggers Es w)) /\
  In s (pub_names (posts_jsonl (triggers Es w))) /\
  includes (usedPubs_of (posts_jsonl (triggers Es w))) (Some (JStr s)) = true /\
  (forall E k a walk,
     fst (generateWalk E k a (triggers Es w)) = Ok walk ->
     get (Some walk) "end_pub_name" <> Ok (Some (JStr s))) /\
  (forall E line,
     In (EvAppendLog line)
        (since (triggers Es w) (snd (publishSundayWalkPost E (triggers Es w)))) ->
     pubName_of_line line <> Some (JStr s)).
Proof.
  intros Hwf Hin Hs.
  destruct (triggers_keep_names Es s w Hwf Hin) as (Hwf' & Hin').
  pose proof (logged_name_is_used _ s Hwf' Hs Hin') as Hused.
  remember (triggers Es w) as w' eqn:Hw'. clear Hw'.
  split; [exact Hwf' |]. split; [exact Hin' |]. split; [exact Hused |]. split.
  - intros E k a walk Hok.
    destruct (generateWalk E k a w') as [r w''] eqn:Hrun. cbn [fst] in Hok. subst r.
    destruct (generateWalk_spec E k _ a w' _ _ eq_refl Hrun)
      as (_ & _ & _ & _ & _ & (members & -> & Hinc & _) & _).
    unfold get. intros [= Hpub]. congruence.
  - intros E line Hline.
    destruct (run_cases E w') as (evs & Htrace & [(_ & Happ & _) | Happend]).
    + rewrite (since_app _ _ _ Htrace) in Hline.
      rewrite Forall_forall in Happ. specialize (Happ _ Hline). discriminate.
    + destruct Happend as (walk & caption & image & w1 & result & w2 & line' & pre
                           & members & _ & _ & _ & _ & _ & _ & Hname & Hinc & _
                           & Hevs & Hpre).
      rewrite (since_app _ _ _ Htrace), Hevs in Hline.
      apply in_app_or in Hline as [Hline | Hline].
      * destruct (is_content_event_quiet pre Hpre) as (Happ & _).
        rewrite Forall_forall in Happ. specialize (Happ _ Hline). discriminate.
      * cbn in Hline.
        repeat (destruct Hline as [Hline | Hline]; [try discriminate |]);
          [| contradiction].
        injection Hline as <-. rewrite Hname. intros Hlogged.
        apply (proj1 (written_name_string _ _)) in Hlogged. congruence.
Qed.

Lemma logged_pub_is_never_proposed_again_witness :
  includes
    (usedPubs_of (posts_jsonl (triggers [anchor_stub; crown_stub] crown_logged)))
    (Some (JStr "The Crown")) = true /\
  forall E k a walk,
    fst (generateWalk E k a (triggers [anchor_stub; crown_stub] crown_logged)) = Ok walk ->
    get (Some walk) "end_pub_name" <> Ok (Some (JStr "The Crown")).
Proof.
  destruct (logged_pub_is_never_proposed_again [anchor_stub; crown_stub] crown_logged
              "The Crown") as (_ & _ & Hused & Hgen & _).
  - split; [right; eexists; reflexivity |]. repeat constructor. eexists. reflexivity.
  - cbn. auto.
  - discriminate.
  - split; assumption.
Defined.

(** *** The path of the caption file *)

Lemma length_append (s1 s2 : string) :
  String.length (s1 ++ s2)%string = String.length s1 + String.length s2.
Proof. induction s1 as [| c rest IH]; cbn; auto. Qed.

Lemma toLowerCase_head s c0 t :
  toLowerCase s = String c0 t -> c0 <> "i"%char -> c0 <> "k"%char ->
  exists c rest, s = String c rest /\ toLowerCase rest = t.
Proof.
  intros Hlow Hi Hk. destruct s as [| c rest]; [discriminate |].
  exists c, rest. split; [reflexivity |]. cbn [toLowerCase] in Hlow.
  destruct rest as [| d rest1]; [now injection Hlow |].
  destruct (byte_is 196 c && byte_is 176 d); [injection Hlow as <- _; now destruct Hi |].
  destruct rest1 as [| e rest2]; [now injection Hlow |].
  destruct (byte_is 226 c && byte_is 132 d && byte_is 170 e);
    [injection Hlow as <- _; now destruct Hk |].
  now injection Hlow.
Qed.

Lemma toLowerCase_nil s : toLowerCase s = EmptyString -> s = EmptyString.
Proof.
  destruct s as [| c rest]; [reflexivity |]. cbn [toLowerCase].
  destruct rest as [| d rest1]; [discriminate |].
  destruct (byte_is 196 c && byte_is 176 d); [discriminate |].
  destruct rest1 as [| e rest2]; [discriminate |].
  destruct (byte_is 226 c && byte_is 132 d && byte_is 170 e); discriminate.
Qed.

Lemma png_length ext : toLowerCase ext = ".png" -> String.length ext = 4.
Proof.
  intros H.
  apply toLowerCase_head in H as (c1 & r1 & -> & H); [| discriminate ..].
  apply toLowerCase_head in H as (c2 & r2 & -> & H); [| discriminate ..].
  apply toLowerCase_head in H as (c3 & r3 & -> & H); [| discriminate ..].
  apply toLowerCase_head in H as (c4 & r4 & -> & H); [| discriminate ..].
  apply toLowerCase_nil in H as ->. reflexivity.
Qed.

Lemma replace_png_suffix prefix ext :
  toLowerCase ext = ".png" ->
  replace_png (prefix ++ ext)%string = (prefix ++ "-caption.txt")%string.
Proof.
  intros Hext. induction prefix as [| c rest IH].
  - cbn [append]. destruct ext as [| c rest]; [discriminate |].
    cbn [replace_png]. now rewrite Hext.
  - cbn [append replace_png]. rewrite IH.
    destruct (String.eqb_spec (toLowerCase (String c (rest ++ ext))) ".png") as [Heq |];
      [| reflexivity].
    apply png_length in Heq, Hext. cbn [String.length] in Heq.
    rewrite length_append in Heq. lia.
Qed.

Lemma replace_png_other s :
  (forall prefix ext, s = (prefix ++ ext)%string -> toLowerCase ext <> ".png") ->
  replace_png s = s.
Proof.
  induction s as [| c rest IH]; intros Hnone; [reflexivity |].
  cbn [replace_png].
  destruct (String.eqb_spec (toLowerCase (String c rest)) ".png") as [Heq |].
  - now destruct (Hnone EmptyString (String c rest) eq_refl).
  - rewrite IH; [reflexivity |].
    intros prefix ext ->. now apply (Hnone (String c prefix) ext).
Qed.

(** Property X16.  The caption file of the development mode is named after
    the image: when the path of the image ends in .png, in any mix of
    upper and lower case, that ending, and only it, is replaced by
    -caption.txt.  For every other path the name is the path of the image
    itself, so that the caption is written over the image. *)
Theorem caption_path_of_image (s : string) :
  (forall prefix ext,
     s = (prefix ++ ext)%string -> toLowerCase ext = ".png" ->
     replace_png s = (prefix ++ "-caption.txt")%string) /\
  (replace_png s = s <->
   forall prefix ext, s = (prefix ++ ext)%string -> toLowerCase ext <> ".png").
Proof.
  split; [intros prefix ext -> Hext; now apply replace_png_suffix |].
  split; [| apply replace_png_other].
  intros Hsame prefix ext -> Hext.
  rewrite (replace_png_suffix prefix ext Hext) in Hsame.
  apply (f_equal String.length) in Hsame. rewrite !length_append in Hsame.
  apply png_length in Hext. cbn in Hsame. lia.
Qed.

(** *** The entry points *)

Lemma development_run_is_quiet E w :
  is_development E = true ->
  posts_jsonl (snd (publishSundayWalkPost E w)) = posts_jsonl w /\
  Forall (fun ev => is_append ev = false) (since w (snd (publishSundayWalkPost E w))) /\
  Forall (fun ev => is_publish ev = false) (since w (snd (publishSundayWalkPost E w))).
Proof.
  intros Hdev.
  destruct (run_cases E w) as (evs & Htrace & [(Hlog & Happ & Hpub) | Happend]).
  - rewrite (since_app _ _ _ Htrace). auto.
  - destruct Happend as (? & ? & ? & ? & ? & ? & ? & ? & ? & Hmode & _). congruence.
Qed.

(** Property X17.  The test script never publishes and never logs, whatever
    NODE_ENV was configured: it forces the development mode before it runs
    the pipeline.  It does not throw; it asks for exit code 1 exactly when
    the pipeline threw. *)
Theorem test_script_never_publishes (E : env) (w : world) :
  posts_jsonl (snd (testPost E w)) = posts_jsonl w /\
  Forall (fun ev => is_publish ev = false) (since w (snd (testPost E w))) /\
  Forall (fun ev => is_append ev = false) (since w (snd (testPost E w))) /\
  (exists code,
     fst (testPost E w) = Ok code /\
     (code = Some 1 <->
      exists e, fst (publishSundayWalkPost (set_NODE_ENV "development" E) w) = Throw e)).
Proof.
  assert (Hsnd : snd (testPost E w)
                 = snd (publishSundayWalkPost (set_NODE_ENV "development" E) w)).
  { unfold testPost, try_catch, bind, ret.
    now destruct (publishSundayWalkPost _ w) as [[o | e] w']. }
  rewrite Hsnd.
  destruct (development_run_is_quiet (set_NODE_ENV "development" E) w eq_refl)
    as (Hlog & Happ & Hpub).
  repeat split; auto.
  unfold testPost, try_catch, bind, ret.
  destruct (publishSundayWalkPost _ w) as [[o | e] w']; cbn [fst].
  - exists None. split; [reflexivity |]. split; [discriminate | intros (e & He); discriminate].
  - exists (Some 1). split; [reflexivity |]. split; eauto.
Qed.

Lemma or_default_nonempty x d : d <> "" -> or_default x d <> "".
Proof.
  intros Hd. unfold or_default. destruct x as [s |]; [| exact Hd].
  now destruct (String.eqb_spec s "").
Qed.

(** Property X18.  The startup banner and the pipeline do not read NODE_ENV
    alike: the banner prints development for an unset or empty variable,
    for which the pipeline takes the production branch.  The two agree
    for every other value. *)
Theorem banner_and_mode (E : env) :
  (banner_environment E = "development" /\ is_development E = false
   <-> NODE_ENV E = None \/ NODE_ENV E = Some "") /\
  (is_development E = true -> banner_environment E = "development") /\
  (forall s, NODE_ENV E = Some s -> s <> "" -> banner_environment E = s).
Proof.
  unfold banner_environment, or_default, is_development.
  destruct (NODE_ENV E) as [s |].
  - destruct (String.eqb_spec s "") as [-> | Hs].
    + repeat split; auto; try discriminate. intros t [= <-]. congruence.
    + split; [split |].
      * intros (-> & Hdev). discriminate.
      * intros [Hnone | [= Hempty]]; [discriminate | contradiction].
      * split; [now intros ->%String.eqb_eq | now intros t [= <-]].
  - repeat split; auto; discriminate.
Qed.

(** Property X19.  The HTTP handler starts the pipeline only for the path
    /trigger with a secret parameter equal to TRIGGER_SECRET, and then
    answers 200; every other request to /trigger is answered 401.  A request
    without the parameter, or with an empty one, starts nothing, however
    the variable is set; when the variable is unset or empty, the secret
    is the default one of the source. *)
Theorem trigger_needs_the_secret
    (var : option string) (images : string -> nat * string) (req : request) :
  (started (handler var images req) = true <->
   req = Url "/trigger" (Some (TRIGGER_SECRET var))) /\
  (started (handler var images req) = true -> status (handler var images req) = 200) /\
  (forall providedSecret,
     req = Url "/trigger" providedSecret ->
     started (handler var images req) = false ->
     status (handler var images req) = 401) /\
  (req = Url "/trigger" None \/ req = Url "/trigger" (Some "") ->
   started (handler var images req) = false) /\
  (var = None \/ var = Some "" -> TRIGGER_SECRET var = "change-me-in-production").
Proof.
  assert (Hne : TRIGGER_SECRET var <> "") by (apply or_default_nonempty; discriminate).
  assert (Hiff : started (handler var images req) = true <->
                 req = Url "/trigger" (Some (TRIGGER_SECRET var))).
  { destruct req as [| pathname providedSecret]; cbn [handler]; [split; discriminate |].
    destruct (String.eqb_spec pathname "/health") as [-> | Hhealth];
      [split; discriminate |].
    destruct (String.eqb_spec pathname "/trigger") as [-> | Htrigger].
    - destruct providedSecret as [s |]; cbn [differs]; [| split; discriminate].
      destruct (String.eqb_spec s (TRIGGER_SECRET var)) as [-> | Hs]; cbn [negb started].
      + split; reflexivity.
      + split; [discriminate | intros [= H]; contradiction].
    - destruct (String.prefix "/images/" pathname); cbn [started];
        (split; [discriminate | intros [= H]; contradiction]). }
  split; [exact Hiff |]. split; [| split; [| split]].
  - intros Hstarted. apply Hiff in Hstarted. subst req. cbn.
    now rewrite String.eqb_refl.
  - intros providedSecret -> Hnot. cbn in Hnot |- *.
    destruct (differs providedSecret (TRIGGER_SECRET var)); [reflexivity | discriminate].
  - intros [-> | ->]; cbn; [reflexivity |].
    destruct (TRIGGER_SECRET var); [now destruct Hne | reflexivity].
  - intros [-> | ->]; reflexivity.
Qed.

(** *** The check and the append are apart *)

(** Property X20.  Step 5 of the pipeline never reads the log: once the walk
    is generated, [postToInstagram] and [logPost] publish it and append
    its pub whatever the log holds by then (the log being absent where it
    can be created, or read and written and ended by a newline).  If the
    pub has been logged in
    the meantime, by a run started while this one was waiting (the manual
    trigger starts runs without waiting for the one in progress), the log
    ends with that pub twice. *)
Theorem publishing_does_not_read_the_log
    (E : env) (members : list (string * json)) (caption : string)
    (image : illustration) (w w2 : world) (result id : value) (s : string) :
  plain (posts_jsonl w) ->
  postToInstagram E (url image) (localPath image) caption w = (Ok result, w2) ->
  get result "id" = Ok id ->
  lookup "end_pub_name" members = Some (JStr s) ->
  pub_names (posts_jsonl (snd (publish_and_log E (JObj members) caption image w)))
    = pub_names (posts_jsonl w) ++ [s] /\
  (In s (pub_names (posts_jsonl w)) ->
   ~ dedup_invariant (posts_jsonl (snd (publish_and_log E (JObj members) caption image w)))).
Proof.
  intros Hfile Hpost Hid Hpub.
  assert (Hnames :
    pub_names (posts_jsonl (snd (publish_and_log E (JObj members) caption image w)))
    = pub_names (posts_jsonl w) ++ [s]).
  { unfold publish_and_log, bind. rewrite Hpost.
    pose proof Hpost as Hcase. apply postToInstagram_cases in Hcase as (Hlog & _).
    destruct (logPost_entry E members result id w2 Hid) as (line & _ & Hname & ->);
      [congruence |].
    unfold lift, ret. unfold get at 1. rewrite Hid. cbn [snd posts_jsonl].
    unfold pub_names. cbn [log_lines all_lines]. rewrite map_app, strings_of_app, Hlog.
    cbn [map]. rewrite Hname, Hpub. reflexivity. }
  split; [exact Hnames |].
  intros Hin (_ & Hnodup). rewrite Hnames in Hnodup.
  apply NoDup_remove_2 in Hnodup. rewrite app_nil_r in Hnodup. contradiction.
Qed.

Lemma publishing_does_not_read_the_log_witness :
  exists walk caption image w1,
    generate_content anchor_stub fresh_world = (Ok (walk, caption, image), w1) /\
    pub_names (posts_jsonl (snd (publishSundayWalkPost anchor_stub w1)))
      = ["The Anchor"] /\
    pub_names
      (posts_jsonl
         (snd (publish_and_log anchor_stub walk caption image
                 (snd (publishSundayWalkPost anchor_stub w1)))))
      = ["The Anchor"; "The Anchor"].
Proof.
  destruct (generate_content anchor_stub fresh_world)
    as [[[[walk caption] image] | e] w1] eqn:Hcontent;
    [| vm_compute in Hcontent; discriminate].
  exists walk, caption, image, w1. split; [reflexivity |].
  vm_compute in Hcontent. injection Hcontent as <- <- <- <-.
  split; [reflexivity |].
  match goal with
  | |- context [publish_and_log ?E (JObj ?m) ?c ?i ?w] =>
      destruct (postToInstagram E (url i) (localPath i) c w) as [[result | e] w2] eqn:Hpost;
        [| vm_compute in Hpost; discriminate];
      refine (proj1 (publishing_does_not_read_the_log E m c i w w2 result
                       (Some (JStr "post-1")) "The Anchor" _ Hpost _ eq_refl))
  end.
  - right. eexists. reflexivity.
  - vm_compute in Hpost. injection Hpost as <- <-. reflexivity.
Defined.

(** *** Dates *)

(** Property X21.  The prompt of the walk and the prompt of the image name
    the same season for the same month: winter for December to February,
    spring for March to May, summer for June to August, autumn for the
    other months. *)
Theorem seasons_agree (month : nat) :
  (In month [12; 1; 2] /\
   getCurrentSeason month = "winter (cosy pubs, crisp air, roaring fires)" /\
   getSeasonHint month = "crisp winter") \/
  (In month [3; 4; 5] /\
   getCurrentSeason month = "spring (fresh blooms, mild weather, beer gardens opening)" /\
   getSeasonHint month = "fresh spring") \/
  (In month [6; 7; 8] /\
   getCurrentSeason month = "summer (long days, sunny terraces, riverside pints)" /\
   getSeasonHint month = "bright summer") \/
  (~ In month [12; 1; 2; 3; 4; 5; 6; 7; 8] /\
   getCurrentSeason month = "autumn (golden leaves, mild temperatures, harvest season)" /\
   getSeasonHint month = "golden autumn").
Proof.
  do 13 (destruct month as [| month]; [cbn; intuition (discriminate || lia) |]).
  right. right. right. cbn. intuition (discriminate || lia).
Qed.

(** Property X22.  [getNextSunday] returns noon of a Sunday that is strictly
    after today and at most seven days ahead, with no Sunday in between:
    the coming Sunday, and on a Sunday the one of the week after. *)
Theorem getNextSunday_is_the_coming_Sunday (today : date) :
  getDay (getNextSunday today) = 0 /\
  day_number today < day_number (getNextSunday today) <= day_number today + 7 /\
  (forall d : date,
     day_number today < day_number d < day_number (getNextSunday today) ->
     getDay d <> 0) /\
  (getDay today = 0 -> day_number (getNextSunday today) = day_number today + 7) /\
  hours (getNextSunday today) = 12 /\
  minutes (getNextSunday today) = 0 /\
  seconds (getNextSunday today) = 0 /\
  milliseconds (getNextSunday today) = 0.
Proof.
  unfold getNextSunday, getDay. cbn [day_number hours minutes seconds milliseconds].
  set (n := day_number today).
  pose proof (Nat.mod_upper_bound (n + 4) 7 ltac:(lia)) as Hday.
  pose proof (Nat.div_mod_eq (n + 4) 7) as Hn.
  set (q := (n + 4) / 7) in *. set (r := (n + 4) mod 7) in *.
  assert (Hcases : r = 0 \/ r = 1 \/ r = 2 \/ r = 3 \/ r = 4 \/ r = 5 \/ r = 6) by lia.
  assert (Hsunday : forall k m, m = 7 * k -> m mod 7 = 0).
  { intros k m ->. rewrite Nat.mul_comm. apply Nat.Div0.mod_mul. }
  assert (Hother : forall d, q * 7 < d + 4 < (q + 1) * 7 -> (d + 4) mod 7 <> 0).
  { intros d Hd Hmod.
    pose proof (Nat.div_mod_eq (d + 4) 7) as Hdm. rewrite Hmod in Hdm. nia. }
  destruct Hcases as [Hr | [Hr | [Hr | [Hr | [Hr | [Hr | Hr]]]]]]; rewrite Hr in *;
    cbn [Nat.sub Nat.modulo Nat.divmod fst snd];
    (split; [apply (Hsunday (q + 1)); lia |]);
    (split; [lia |]);
    (split; [intros d Hd; apply Hother; lia |]);
    (split; [intros; lia |]); repeat split.
Qed.
